(** * A shallow embedding of [provisioner.go]

    The Terraform provisioner that bootstraps Ansible on a remote host:
    configuration decoding, inventory rendering, command-line assembly,
    remote command execution, connection retry and the deployment
    workflow.  Definitions follow the Go source function by function and
    keep its names; the external collaborators (the communicator, the
    local file system, [encoding/json], [strconv], [path/filepath],
    [go-homedir]) are interfaces whose behaviour is left open. *)

From Stdlib Require Import ZArith Lia Ascii DecimalString.
From stdpp Require Import strings gmap list sorting.

Set Warnings "-register-all".
Set Default Proof Using "Type".

(* ================================================================= *)
(** * Go values                                                       *)
(* ================================================================= *)

(** A Go [error] is modelled by its message ([Error()]); the interface
    value [nil] is [None]. *)
Definition error : Type := string.

(** The result of a Go function returning [(T, error)]. *)
Inductive result (A : Type) : Type :=
  | Ok (a : A)
  | Err (e : error).
Arguments Ok {A} a.
Arguments Err {A} e.

(** [%d] on an [int]. *)
Definition itoa (z : Z) : string := NilEmpty.string_of_int (Z.to_int z).

(** [strings.Join]. *)
Definition strings_Join (elems : list string) (sep : string) : string :=
  String.concat sep elems.

(** [len(s) > 0] on a string. *)
Definition nonempty (s : string) : bool :=
  match s with EmptyString => false | String _ _ => true end.

(** [len(l) > 0] on a slice. *)
Definition nonnil {A} (l : list A) : bool :=
  match l with [] => false | _ :: _ => true end.

(** The dynamic values behind [interface{}] that [schema.ResourceData]
    hands out. *)
Inductive Value : Type :=
  | VNil
  | VString (s : string)
  | VInt (z : Z)
  | VBool (b : bool)
  | VList (l : list Value)
  | VMap (m : gmap string Value).

(** Type assertions [v.(string)], [v.(int)], [v.(bool)]; [None] is the
    run-time panic of a failed assertion. *)
Definition assertString (v : Value) : option string :=
  match v with VString s => Some s | _ => None end.
Definition assertInt (v : Value) : option Z :=
  match v with VInt z => Some z | _ => None end.
Definition assertBool (v : Value) : option bool :=
  match v with VBool b => Some b | _ => None end.

(* ================================================================= *)
(** * Constants and the provisioner struct                            *)
(* ================================================================= *)

Definition bootstrapDirectory : string := "/tmp/ansible-terraform-bootstrap".

Record provisioner : Type := mkProvisioner {
  Playbook : string;
  Hosts : list string;
  Groups : list string;
  Tags : list string;
  SkipTags : list string;
  StartAtTask : string;
  Limit : string;
  Forks : Z;
  ExtraVars : gmap string Value;
  Verbose : bool;
  ForceHandlers : bool;
  Become : bool;
  BecomeMethod : string;
  BecomeUser : string;
  VaultPasswordFile : string;
  useSudo : bool;
  skipInstall : bool;
  skipCleanup : bool;
  installVersion : string
}.

Record ansibleInstaller : Type := mkInstaller { AnsibleVersion : string }.

(* ================================================================= *)
(** * decodeConfig                                                    *)
(* ================================================================= *)

(** [schema.ResourceData]: the configuration values by key.  [d.Get]
    of a key that holds nothing is [nil]. *)
Definition Get (d : gmap string Value) (key : string) : Value :=
  default VNil (d !! key).

(** [getStringList]: [nil] gives the nil slice, a list keeps its string
    elements in order and drops the others, anything else panics. *)
Definition getStringList (v : Value) : option (list string) :=
  match v with
  | VNil => Some []
  | VList l => Some (omap assertString l)
  | _ => None
  end.

(** [getStringMap]. *)
Definition getStringMap (v : Value) : option (gmap string Value) :=
  match v with
  | VNil => Some ∅
  | VMap m => Some m
  | _ => None
  end.

(** [decodeConfig]; [None] is a panic, the error component is the
    [nil] the function always returns. *)
Definition decodeConfig (d : gmap string Value)
  : option (provisioner * option error) :=
  playbook ← assertString (Get d "playbook");
  hosts ← getStringList (Get d "hosts");
  groups ← getStringList (Get d "groups");
  tags ← getStringList (Get d "tags");
  skip_tags ← getStringList (Get d "skip_tags");
  start_at_task ← assertString (Get d "start_at_task");
  limit ← assertString (Get d "limit");
  forks ← assertInt (Get d "forks");
  extra_vars ← getStringMap (Get d "extra_vars");
  verbose ← assertBool (Get d "verbose");
  force_handlers ← assertBool (Get d "force_handlers");
  become ← assertBool (Get d "become");
  become_method ← assertString (Get d "become_method");
  become_user ← assertString (Get d "become_user");
  vault_password_file ← assertString (Get d "vault_password_file");
  use_sudo ← assertBool (Get d "use_sudo");
  skip_install ← assertBool (Get d "skip_install");
  skip_cleanup ← assertBool (Get d "skip_cleanup");
  install_version ← assertString (Get d "install_version");
  let p := {|
    Playbook := playbook; Hosts := hosts; Groups := groups; Tags := tags;
    SkipTags := skip_tags; StartAtTask := start_at_task; Limit := limit;
    Forks := forks; ExtraVars := extra_vars; Verbose := verbose;
    ForceHandlers := force_handlers; Become := become;
    BecomeMethod := become_method; BecomeUser := become_user;
    VaultPasswordFile := vault_password_file; useSudo := use_sudo;
    skipInstall := skip_install; skipCleanup := skip_cleanup;
    installVersion := install_version |} in
  (* p.Hosts = append(p.Hosts, "localhost") *)
  let p := {|
    Playbook := Playbook p; Hosts := Hosts p ++ ["localhost"];
    Groups := Groups p; Tags := Tags p; SkipTags := SkipTags p;
    StartAtTask := StartAtTask p; Limit := Limit p; Forks := Forks p;
    ExtraVars := ExtraVars p; Verbose := Verbose p;
    ForceHandlers := ForceHandlers p; Become := Become p;
    BecomeMethod := BecomeMethod p; BecomeUser := BecomeUser p;
    VaultPasswordFile := VaultPasswordFile p; useSudo := useSudo p;
    skipInstall := skipInstall p; skipCleanup := skipCleanup p;
    installVersion := installVersion p |} in
  Some (p, None).

(** The schema of [Provisioner()]: the type of the value [d.Get] returns
    for each key. *)
Inductive ValueType : Type :=
  | TypeString | TypeInt | TypeBool | TypeList | TypeMap.

Definition Schema : list (string * ValueType) :=
  [ ("playbook", TypeString); ("hosts", TypeList); ("groups", TypeList);
    ("tags", TypeList); ("skip_tags", TypeList);
    ("start_at_task", TypeString); ("limit", TypeString);
    ("extra_vars", TypeMap); ("forks", TypeInt); ("verbose", TypeBool);
    ("force_handlers", TypeBool); ("become", TypeBool);
    ("become_method", TypeString); ("become_user", TypeString);
    ("vault_password_file", TypeString); ("use_sudo", TypeBool);
    ("skip_install", TypeBool); ("skip_cleanup", TypeBool);
    ("install_version", TypeString) ].

Definition hasType (v : Value) (t : ValueType) : bool :=
  match t, v with
  | TypeString, VString _ => true
  | TypeInt, VInt _ => true
  | TypeBool, VBool _ => true
  | TypeList, VList _ => true
  | TypeMap, VMap _ => true
  | _, _ => false
  end.

(** A [ResourceData] as the schema layer delivers it. *)
Definition conforms (d : gmap string Value) : bool :=
  forallb (fun kt => hasType (Get d kt.1) kt.2) Schema.

(** Occurrences of a host name in a host list. *)
Definition occurrences (h : string) (l : list string) : nat :=
  length (filter (λ x, x = h) l).

(* ================================================================= *)
(** * text/template, the fragment the inventory template uses         *)
(* ================================================================= *)

(** Actions are delimited by [{{] and [}}]; a [-}}] preceded by white
    space trims the white space that follows the action, a [{{-]
    followed by white space trims the white space before it.  Inside an
    action the fragment has [end], [range PIPE], [$v := PIPE] and
    [PIPE], where a pipe is [.], a field chain [.F.G] or a variable with
    an optional field chain [$v.F]. *)

Module Template.

(** White space of the trim markers: space, tab, carriage return and
    newline. *)
Definition isSpace (a : ascii) : bool :=
  match a with
  | " "%char => true
  | _ => bool_decide (a = ascii_of_nat 9)
         || bool_decide (a = ascii_of_nat 10)
         || bool_decide (a = ascii_of_nat 13)
  end.

Fixpoint trimLeft (s : string) : string :=
  match s with
  | String a s' => if isSpace a then trimLeft s' else s
  | EmptyString => EmptyString
  end.

Definition trimRight (s : string) : string :=
  String.rev (trimLeft (String.rev s)).

Definition trimSpace (s : string) : string := trimLeft (trimRight s).

(** The text between delimiters, before trimming. *)
Inductive rawTok : Type :=
  | RText (s : string)
  | RAction (body : string)
  | RUnclosed.

Definition snoc (s : string) (a : ascii) : string := s +:+ String a "".

Fixpoint scan (inAction : bool) (acc : string) (s : string) : list rawTok :=
  match s with
  | EmptyString => if inAction then [RUnclosed] else [RText acc]
  | String a s1 =>
      match s1 with
      | String b s2 =>
          if negb inAction && bool_decide (a = "{"%char)
             && bool_decide (b = "{"%char)
          then RText acc :: scan true "" s2
          else if inAction && bool_decide (a = "}"%char)
                  && bool_decide (b = "}"%char)
          then RAction acc :: scan false "" s2
          else scan inAction (snoc acc a) s1
      | EmptyString => scan inAction (snoc acc a) s1
      end
  end.

(** [{{- ] at the start of an action body: the body begins with the
    marker and a white space. *)
Definition hasLeftTrim (body : string) : bool :=
  match body with
  | String m (String a _) => bool_decide (m = "-"%char) && isSpace a
  | _ => false
  end.

(** [ -}}] at the end of an action body. *)
Definition hasRightTrim (body : string) : bool :=
  hasLeftTrim (String.rev body).

Definition dropMarker (body : string) : string :=
  match body with String _ s => s | EmptyString => EmptyString end.

(** The action body without its trim markers and surrounding spaces. *)
Definition actionText (body : string) : string :=
  let body := if hasLeftTrim body then dropMarker body else body in
  let body :=
    if hasRightTrim body
    then String.rev (dropMarker (String.rev body)) else body in
  trimSpace body.

Definition nextTrimsLeft (rest : list rawTok) : bool :=
  match rest with
  | RAction body :: _ => hasLeftTrim body
  | _ => false
  end.

(** A pipe: the variable it starts from ([None] is the dot) and the
    chain of fields. *)
Record pipe : Type := mkPipe { base : option string; path : list string }.

Inductive tok : Type :=
  | TText (s : string)
  | TEnd
  | TRange (p : pipe)
  | TDecl (v : string) (p : pipe)
  | TPrint (p : pipe)
  | TBad.

Fixpoint splitOn (c : ascii) (cur : string) (s : string) : list string :=
  match s with
  | EmptyString => [cur]
  | String a s' =>
      if bool_decide (a = c) then cur :: splitOn c "" s'
      else splitOn c (snoc cur a) s'
  end.

(** Words of an action, separated by white space. *)
Fixpoint fields (cur : string) (s : string) : list string :=
  match s with
  | EmptyString => if nonempty cur then [cur] else []
  | String a s' =>
      if isSpace a
      then (if nonempty cur then [cur] else []) ++ fields "" s'
      else fields (snoc cur a) s'
  end.

Definition isVariable (w : string) : bool :=
  match w with String a _ => bool_decide (a = "$"%char) | _ => false end.

Definition parsePipe (w : string) : option pipe :=
  match splitOn "."%char "" w with
  | [ ""; "" ] => Some (mkPipe None [])
  | "" :: fs => if forallb nonempty fs then Some (mkPipe None fs) else None
  | v :: fs =>
      if isVariable v && forallb nonempty fs
      then Some (mkPipe (Some v) fs) else None
  | [] => None
  end.

Definition parseAction (body : string) : tok :=
  match fields "" (actionText body) with
  | [ "end" ] => TEnd
  | [ "range"; w ] =>
      match parsePipe w with Some p => TRange p | None => TBad end
  | [ v; ":="; w ] =>
      match parsePipe w with
      | Some p => if isVariable v then TDecl v p else TBad
      | None => TBad
      end
  | [ w ] => match parsePipe w with Some p => TPrint p | None => TBad end
  | _ => TBad
  end.

(** The lexer: texts with the trim markers applied, actions parsed.  An
    empty text produces no token. *)
Fixpoint lex (trimLead : bool) (toks : list rawTok) : list tok :=
  match toks with
  | [] => []
  | RText t :: rest =>
      let t := if trimLead then trimLeft t else t in
      let t := if nextTrimsLeft rest then trimRight t else t in
      (if nonempty t then [TText t] else []) ++ lex false rest
  | RAction body :: rest => parseAction body :: lex (hasRightTrim body) rest
  | RUnclosed :: rest => TBad :: lex false rest
  end.

Inductive node : Type :=
  | NText (s : string)
  | NAction (p : pipe)
  | NDecl (v : string) (p : pipe)
  | NRange (p : pipe) (body : nodes)
with nodes : Type :=
  | NNil
  | NCons (n : node) (ns : nodes).

(** The parser; it stops in front of an [end] and leaves it to the
    enclosing [range]. *)
Fixpoint parseNodes (fuel : nat) (toks : list tok)
  : option (nodes * list tok) :=
  match fuel with
  | O => None
  | S fuel =>
      match toks with
      | [] => Some (NNil, [])
      | TEnd :: _ => Some (NNil, toks)
      | TBad :: _ => None
      | TText s :: rest =>
          r ← parseNodes fuel rest; Some (NCons (NText s) r.1, r.2)
      | TPrint p :: rest =>
          r ← parseNodes fuel rest; Some (NCons (NAction p) r.1, r.2)
      | TDecl v p :: rest =>
          r ← parseNodes fuel rest; Some (NCons (NDecl v p) r.1, r.2)
      | TRange p :: rest =>
          b ← parseNodes fuel rest;
          match b.2 with
          | TEnd :: rest' =>
              r ← parseNodes fuel rest';
              Some (NCons (NRange p b.1) r.1, r.2)
          | _ => None
          end
      end
  end.

(** [Parse]: [None] is a parse error. *)
Definition Parse (text : string) : option nodes :=
  let toks := lex false (scan false "" text) in
  match parseNodes (S (length toks)) toks with
  | Some (ns, []) => Some ns
  | _ => None
  end.

(** [template.Must]; it is applied to templates that parse. *)
Definition Must (t : option nodes) : nodes := default NNil t.

(** The data a template is executed on. *)
Inductive data : Type :=
  | DString (s : string)
  | DInt (z : Z)
  | DBool (b : bool)
  | DList (l : list data)
  | DStruct (fs : list (string * data)).

Fixpoint lookupField (fs : list (string * data)) (f : string) : option data :=
  match fs with
  | [] => None
  | (k, v) :: fs' => if bool_decide (k = f) then Some v else lookupField fs' f
  end.

Fixpoint evalPath (d : data) (fs : list string) : result data :=
  match fs with
  | [] => Ok d
  | f :: fs' =>
      match d with
      | DStruct flds =>
          match lookupField flds f with
          | Some d' => evalPath d' fs'
          | None => Err ("can't evaluate field " +:+ f)
          end
      | _ => Err ("can't evaluate field " +:+ f)
      end
  end.

Definition vars : Type := list (string * data).

Definition evalPipe (vs : vars) (dot : data) (p : pipe) : result data :=
  match base p with
  | None => evalPath dot (path p)
  | Some v =>
      match lookupField vs v with
      | Some d => evalPath d (path p)
      | None => Err ("undefined variable " +:+ v)
      end
  end.

(** Printing of the scalar values. *)
Definition printValue (d : data) : result string :=
  match d with
  | DString s => Ok s
  | DInt z => Ok (itoa z)
  | DBool b => Ok (if b then "true" else "false")
  | _ => Err "unsupported value"
  end.

(** Execution writes to the buffer [out]; a variable declared in a
    [range] body goes out of scope at the end of the iteration. *)
Fixpoint execNode (n : node) (vs : vars) (dot : data) (out : string)
  : result (string * vars) :=
  match n with
  | NText s => Ok (out +:+ s, vs)
  | NAction p =>
      match evalPipe vs dot p with
      | Ok d =>
          match printValue d with
          | Ok s => Ok (out +:+ s, vs)
          | Err e => Err e
          end
      | Err e => Err e
      end
  | NDecl v p =>
      match evalPipe vs dot p with
      | Ok d => Ok (out, (v, d) :: vs)
      | Err e => Err e
      end
  | NRange p body =>
      match evalPipe vs dot p with
      | Ok (DList items) =>
          (fix each (items : list data) (out : string) : result (string * vars) :=
             match items with
             | [] => Ok (out, vs)
             | it :: items' =>
                 match execNodes body vs it out with
                 | Ok r => each items' r.1
                 | Err e => Err e
                 end
             end) items out
      | Ok _ => Err "range can't iterate"
      | Err e => Err e
      end
  end
with execNodes (ns : nodes) (vs : vars) (dot : data) (out : string)
  : result (string * vars) :=
  match ns with
  | NNil => Ok (out, vs)
  | NCons n ns' =>
      match execNode n vs dot out with
      | Ok r => execNodes ns' r.2 dot r.1
      | Err e => Err e
      end
  end.

(** [t.Execute(&buf, data)] on an empty buffer. *)
Definition Execute (t : nodes) (d : data) : result string :=
  match execNodes t [] d "" with
  | Ok r => Ok r.1
  | Err e => Err e
  end.

End Template.

(** [inventoryTemplate], byte for byte. *)
Definition inventoryTemplate : string :=
"{{$top := . -}}
{{range .Hosts -}}
{{.}} ansible_connection=local
{{end}}

{{range .Groups -}}
[{{.}}]
{{range $top.Hosts -}}
{{.}} ansible_connection=local
{{end}}

{{end}}".

(** The exported fields of [provisioner] the template engine can reach
    (those of string, int, bool and string-slice type). *)
Definition templateData (p : provisioner) : Template.data :=
  let strs l := Template.DList (Template.DString <$> l) in
  Template.DStruct
    [ ("Playbook", Template.DString (Playbook p));
      ("Hosts", strs (Hosts p));
      ("Groups", strs (Groups p));
      ("Tags", strs (Tags p));
      ("SkipTags", strs (SkipTags p));
      ("StartAtTask", Template.DString (StartAtTask p));
      ("Limit", Template.DString (Limit p));
      ("Forks", Template.DInt (Forks p));
      ("Verbose", Template.DBool (Verbose p));
      ("ForceHandlers", Template.DBool (ForceHandlers p));
      ("Become", Template.DBool (Become p));
      ("BecomeMethod", Template.DString (BecomeMethod p));
      ("BecomeUser", Template.DString (BecomeUser p));
      ("VaultPasswordFile", Template.DString (VaultPasswordFile p)) ].

(** The rendering step of [uploadInventory]:
    [template.Must(template.New("hosts").Parse(inventoryTemplate))]
    executed on [p]. *)
Definition renderInventory (p : provisioner) : result string :=
  Template.Execute (Template.Must (Template.Parse inventoryTemplate))
    (templateData p).

(* ================================================================= *)
(** * The libraries the provisioner calls                             *)
(* ================================================================= *)

(** Pure library functions whose code is outside the repository. *)
Class Lib : Type := {
  (** [json.Marshal] of the extra variables. *)
  json_Marshal : gmap string Value → result string;
  (** The [%q] verb on a string. *)
  strconv_Quote : string → string;
  filepath_Join : list string → string;
  filepath_Dir : string → string;
  filepath_Base : string → string;
  (** The path [homedir.Expand] returns; its error is dropped by the
      caller. *)
  homedir_Expand : string → string;
  (** [t.Execute(&buf, installer)] on [installerProgramTemplate]. *)
  executeInstaller : ansibleInstaller → result string
}.

Section Builder.
Context `{Lib}.

Definition inventoryFilePath : string :=
  filepath_Join [bootstrapDirectory; ".inventory-ansible-bootstrap/hosts"].

(** [commandBuilder]: every [command = fmt.Sprintf("%s ...", command, ...)]
    is an append to the command built so far. *)
Definition commandBuilder (p : provisioner)
    (playbookFile uploadedVaultPasswordFilePath : string) : result string :=
  let command := "ansible-playbook " +:+ playbookFile in
  let command := command +:+ " --inventory-file=" +:+ inventoryFilePath in
  let withExtraVars :=
    if bool_decide (0 < size (ExtraVars p))%nat then
      match json_Marshal (ExtraVars p) with
      | Err err => Err err
      | Ok extraVars => Ok (command +:+ " --extra-vars='" +:+ extraVars +:+ "'")
      end
    else Ok command in
  match withExtraVars with
  | Err err => Err err
  | Ok command =>
      let command :=
        if nonnil (SkipTags p)
        then command +:+ " --skip-tags=" +:+ strings_Join (SkipTags p) ","
        else command in
      let command :=
        if nonnil (Tags p)
        then command +:+ " --tags=" +:+ strings_Join (Tags p) ","
        else command in
      let command :=
        if nonempty uploadedVaultPasswordFilePath
        then command +:+ " --vault-password-file="
                     +:+ uploadedVaultPasswordFilePath
        else command in
      let command :=
        if nonempty (StartAtTask p)
        then command +:+ " --start-at-task=" +:+ StartAtTask p
        else command in
      let command :=
        if nonempty (Limit p)
        then command +:+ " --limit=" +:+ Limit p
        else command in
      let command :=
        if bool_decide (0 < Forks p)%Z
        then command +:+ " --forks=" +:+ itoa (Forks p)
        else command in
      let command :=
        if Verbose p then command +:+ " --verbose" else command in
      let command :=
        if ForceHandlers p then command +:+ " --force-handlers" else command in
      let command :=
        if Become p
        then command +:+ " --become --become-method='" +:+ BecomeMethod p
                     +:+ "' --become-user='" +:+ BecomeUser p +:+ "'"
        else command in
      Ok command
  end.

(** ** The flags, one by one, as the specification lists them *)

Definition extraVarsFlag (p : provisioner) : result (option string) :=
  if bool_decide (ExtraVars p = ∅) then Ok None
  else match json_Marshal (ExtraVars p) with
       | Ok js => Ok (Some ("--extra-vars='" +:+ js +:+ "'"))
       | Err e => Err e
       end.

Definition skipTagsFlag (p : provisioner) : option string :=
  match SkipTags p with
  | [] => None
  | l => Some ("--skip-tags=" +:+ String.concat "," l)
  end.

Definition tagsFlag (p : provisioner) : option string :=
  match Tags p with
  | [] => None
  | l => Some ("--tags=" +:+ String.concat "," l)
  end.

Definition vaultPasswordFileFlag (uploaded : string) : option string :=
  if bool_decide (uploaded = "") then None
  else Some ("--vault-password-file=" +:+ uploaded).

Definition startAtTaskFlag (p : provisioner) : option string :=
  if bool_decide (StartAtTask p = "") then None
  else Some ("--start-at-task=" +:+ StartAtTask p).

Definition limitFlag (p : provisioner) : option string :=
  if bool_decide (Limit p = "") then None
  else Some ("--limit=" +:+ Limit p).

Definition forksFlag (p : provisioner) : option string :=
  if bool_decide (Forks p ≤ 0)%Z then None
  else Some ("--forks=" +:+ itoa (Forks p)).

Definition verboseFlag (p : provisioner) : option string :=
  if Verbose p then Some "--verbose" else None.

Definition forceHandlersFlag (p : provisioner) : option string :=
  if ForceHandlers p then Some "--force-handlers" else None.

Definition becomeFlags (p : provisioner) : list string :=
  if Become p
  then [ "--become";
         "--become-method='" +:+ BecomeMethod p +:+ "'";
         "--become-user='" +:+ BecomeUser p +:+ "'" ]
  else [].

(** The words of the command line in the order of the specification:
    the program, the playbook, the inventory, then the flags that are
    present. *)
Definition commandWords (p : provisioner) (playbookFile uploaded : string)
    (extraVars : option string) : list string :=
  [ "ansible-playbook"; playbookFile;
    "--inventory-file=" +:+ inventoryFilePath ]
  ++ omap id
       [ extraVars; skipTagsFlag p; tagsFlag p; vaultPasswordFileFlag uploaded;
         startAtTaskFlag p; limitFlag p; forksFlag p; verboseFlag p;
         forceHandlersFlag p ]
  ++ becomeFlags p.

End Builder.

(* ================================================================= *)
(** * The collaborators and the observable trace                      *)
(* ================================================================= *)

(** The communicator, the remote host and the local file system are one
    state machine; every call answers from the current state [W] and
    moves it on. *)
Class Communicator (W : Type) : Type := {
  (** [communicator.New(s)]. *)
  communicator_New : W → option error * W;
  (** [comm.Timeout()], in nanoseconds. *)
  comm_Timeout : W → Z;
  (** [comm.Connect(o)] and the time the attempt takes. *)
  comm_Connect : W → option error * N * W;
  comm_Disconnect : W → option error * W;
  comm_UploadDir : string → string → W → option error * W;
  comm_Upload : string → string → W → option error * W;
  comm_UploadScript : string → string → W → option error * W;
  (** [comm.Start(cmd)]: the submission of a command. *)
  comm_Start : string → W → option error * W;
  (** [cmd.Wait()]: the exit status, the lines the two relays pass on
      before the wait is over and the lines they pass on afterwards,
      before their completion signals. *)
  cmd_Wait : W → Z * list string * list string * W;
  (** Whether [os.Stat] succeeds. *)
  os_Stat : string → W → bool;
  (** [os.Open] and the bytes read from the file. *)
  os_Open : string → W → result string;
  (** Which timer wins the [select] of [retryFunc] when both fire at the
      same instant; [true] is the overall timeout. *)
  select_tie : W → bool
}.

(** The workflow phases of the design. *)
Inductive Phase : Type :=
  | Connecting | Installing | UploadingArtifacts | BuildingCommand
  | Running | CleaningUp | Done | Failed.

Global Instance Phase_eq_dec : EqDecision Phase.
Proof. solve_decision. Defined.

(** What the provisioner does to its collaborators, with the answer. *)
Inductive Action : Type :=
  | ANew (r : option error)
  | AConnect (r : option error)
  | ALog (msg : string)
  | ADisconnect
  | AUploadDir (dst src : string) (r : option error)
  | AUpload (dst content : string) (r : option error)
  | AUploadScript (dst content : string) (r : option error)
  | AStart (command : string) (r : option error)
  | AWait (status : Z)
  | AOutput (line : string)
  | AStat (path : string) (found : bool)
  | AOpen (path : string) (r : result string)
  | ABuild (r : result string).

(** An action and the phase of the workflow that performs it. *)
Record Event : Type := Ev { phase : Phase; action : Action }.

Section Workflow.
Context {W : Type} `{Communicator W} `{Lib}.

(** The collaborators' state and the clock, in nanoseconds. *)
Record St : Type := mkSt { world : W; now : Z }.

(** A run of a piece of the provisioner: its result, the state it
    leaves and the events it produced, in order. *)
Record Run (A : Type) : Type := mkRun {
  val : A;
  post : St;
  events : list Event
}.
Arguments mkRun {A} val post events.
Arguments val {A} r.
Arguments post {A} r.
Arguments events {A} r.

Definition M (A : Type) : Type := St → Run A.

Definition ret {A} (a : A) : M A := λ s, mkRun a s [].

Definition bind {A B} (m : M A) (k : A → M B) : M B :=
  λ s, let r := m s in
       let r' := k (val r) (post r) in
       mkRun (val r') (post r') (events r ++ events r').

Notation "'let*' x ':=' m 'in' k" := (bind m (λ x, k))
  (at level 10, x pattern, m at level 100, k at level 200).
Notation "m '>>' k" := (bind m (λ _, k))
  (at level 100, k at level 200, right associativity).

Definition emit (ph : Phase) (a : Action) : M unit :=
  λ s, mkRun tt s [Ev ph a].

(** A call of the collaborators that answers with [A]. *)
Definition call {A} (f : W → A * W) : M A :=
  λ s, let r := f (world s) in mkRun r.1 (mkSt r.2 (now s)) [].

(** A question to the collaborators that leaves their state alone. *)
Definition ask {A} (f : W → A) : M A := λ s, mkRun (f (world s)) s [].

(** [time.Now()]. *)
Definition getNow : M Z := λ s, mkRun (now s) s [].

(** [o.Output(msg)]. *)
Definition Output (ph : Phase) (msg : string) : M unit :=
  emit ph (AOutput msg).

Fixpoint forEach {A} (l : list A) (body : A → M unit) : M unit :=
  match l with
  | [] => ret tt
  | x :: l' => body x >> forEach l' body
  end.

(** ** retryFunc *)

(** [3 * time.Second]. *)
Definition retryInterval : Z := 3 * 1000000000.

Definition sleepUntil (t : Z) : M unit :=
  λ s, mkRun tt (mkSt (world s) t) [].

(** The loop of [retryFunc]; [finish] is the instant [time.After(timeout)]
    fires.  The [select] returns the error when the timeout has fired or
    fires first; the result [None] stands for a loop that is still
    running after [fuel] iterations. *)
Fixpoint retryLoop (fuel : nat) (ph : Phase) (finish : Z)
    (f : M (option error)) : M (option (option error)) :=
  match fuel with
  | O => ret None
  | S fuel =>
      let* err := f in
      match err with
      | None => ret (Some None)
      | Some e =>
          emit ph (ALog ("Retryable error: " +:+ e)) >>
          let* t := getNow in
          if bool_decide (finish ≤ t)%Z then ret (Some (Some e))
          else if bool_decide (finish < t + retryInterval)%Z then
            sleepUntil finish >> ret (Some (Some e))
          else if bool_decide (finish = t + retryInterval)%Z then
            sleepUntil finish >>
            let* timeoutFirst := ask select_tie in
            if timeoutFirst : bool then ret (Some (Some e))
            else retryLoop fuel ph finish f
          else
            sleepUntil (t + retryInterval) >> retryLoop fuel ph finish f
      end
  end.

(** Every iteration that does not return lets [retryInterval] pass, so
    this many iterations reach the timeout. *)
Definition retryFuel (timeout : Z) : nat :=
  Z.to_nat (timeout / retryInterval) + 2.

Definition retryFunc (ph : Phase) (timeout : Z) (f : M (option error))
  : M (option (option error)) :=
  let* start := getNow in
  retryLoop (retryFuel timeout) ph (start + timeout) f.

(** ** runCommand *)

(** [fmt.Errorf("Error executing command %q: %v", cmd.Command, err)]. *)
Definition errExecuting (command : string) (err : error) : error :=
  "Error executing command " +:+ strconv_Quote command +:+ ": " +:+ err.

(** [fmt.Errorf("Command %q exited with non-zero exit status: %d", ...)]. *)
Definition errExitStatus (command : string) (status : Z) : error :=
  "Command " +:+ strconv_Quote command
  +:+ " exited with non-zero exit status: " +:+ itoa status.

(** [runCommand], seen from the workflow: the two relays run between
    the submission and the return, and their lines reach the observer
    in that window. *)
Definition runCommand (ph : Phase) (p : provisioner) (command : string)
  : M (option error) :=
  let command := if useSudo p then "sudo " +:+ command else command in
  let* err := call (comm_Start command) in
  emit ph (AStart command err) >>
  match err with
  | Some err => ret (Some (errExecuting command err))
  | None =>
      let* w := call cmd_Wait in
      let '(status, early, late) := w in
      forEach early (Output ph) >>
      emit ph (AWait status) >>
      let err :=
        if bool_decide (status ≠ 0)%Z
        then Some (errExitStatus command status) else None in
      forEach late (Output ph) >>
      ret err
  end.

(** ** resolvePath *)

Definition resolvePath (ph : Phase) (path : string) : M (result string) :=
  let expandedPath := homedir_Expand path in
  let* found := ask (os_Stat expandedPath) in
  emit ph (AStat expandedPath found) >>
  if found : bool then ret (Ok expandedPath)
  else ret (Err ("Ansible module not found at path: [" +:+ path +:+ "]")).

(** ** uploadVaultPasswordFile *)

Definition uploadVaultPasswordFile (p : provisioner) (passwordFilePath : string)
  : M (result string) :=
  let ph := UploadingArtifacts in
  let passwordFileName := filepath_Base passwordFilePath in
  let targetPath :=
    filepath_Join
      [bootstrapDirectory; ".vault-ansible-bootstrap"; passwordFileName] in
  let commands :=
    [ "mkdir -p " +:+ filepath_Dir targetPath;
      "chmod 0777 " +:+ filepath_Dir targetPath ] in
  forEach commands (λ command, runCommand ph p command >> ret tt) >>
  Output ph ("Uploading ansible vault password file to '"
             +:+ targetPath +:+ "'...") >>
  let* file := ask (os_Open passwordFilePath) in
  emit ph (AOpen passwordFilePath file) >>
  match file with
  | Err err => ret (Err err)
  | Ok content =>
      let* err := call (comm_Upload targetPath content) in
      emit ph (AUpload targetPath content err) >>
      match err with
      | Some err => ret (Err err)
      | None =>
          Output ph "Ansible vault password file uploaded." >>
          ret (Ok targetPath)
      end
  end.

(** ** uploadInventory *)

Definition uploadInventory (p : provisioner) : M (option error) :=
  let ph := UploadingArtifacts in
  Output ph "Generating ansible inventory..." >>
  match renderInventory p with
  | Err err =>
      ret (Some ("Error executing 'hosts' template: " +:+ err))
  | Ok buf =>
      let targetPath := inventoryFilePath in
      let commands :=
        [ "mkdir -p " +:+ filepath_Dir targetPath;
          "chmod 0777 " +:+ filepath_Dir targetPath ] in
      forEach commands (λ command, runCommand ph p command >> ret tt) >>
      Output ph ("Uploading ansible inventory to " +:+ targetPath +:+ "...") >>
      let* err := call (comm_Upload targetPath buf) in
      emit ph (AUpload targetPath buf err) >>
      match err with
      | Some err => ret (Some err)
      | None => Output ph "Ansible inventory uploaded." >> ret None
      end
  end.

(** ** cleanupAfterBootstrap *)

Definition cleanupAfterBootstrap (p : provisioner) : M unit :=
  let ph := CleaningUp in
  Output ph "Cleaning up after bootstrap..." >>
  runCommand ph p ("rm -rf " +:+ filepath_Dir bootstrapDirectory) >>
  Output ph "Cleanup complete.".

(** ** installAnsible *)

Definition installAnsible (p : provisioner) : M (option error) :=
  let ph := Installing in
  let installer := mkInstaller "ansible" in
  let installer :=
    if nonempty (installVersion p)
    then mkInstaller (AnsibleVersion installer +:+ "==" +:+ installVersion p)
    else installer in
  Output ph ("Installing '" +:+ AnsibleVersion installer +:+ "'...") >>
  match executeInstaller installer with
  | Err err =>
      ret (Some ("Error executing 'installer' template: " +:+ err))
  | Ok buf =>
      let targetPath := "/tmp/ansible-install.sh" in
      Output ph ("Uploading ansible installer program to "
                 +:+ targetPath +:+ "...") >>
      let* err := call (comm_UploadScript targetPath buf) in
      emit ph (AUploadScript targetPath buf err) >>
      match err with
      | Some err => ret (Some err)
      | None =>
          let* err :=
            runCommand ph p
              ("/bin/bash -c '" +:+ targetPath +:+ " && rm "
               +:+ targetPath +:+ "'") in
          match err with
          | Some err => ret (Some err)
          | None => Output ph "Ansible installed." >> ret None
          end
      end
  end.

(** ** deployAnsibleModule *)

Definition deployAnsibleModule (p : provisioner) : M (option error) :=
  let* r := resolvePath UploadingArtifacts (Playbook p) in
  match r with
  | Err err => ret (Some err)
  | Ok playbookPath =>
      let playbookDir := filepath_Dir playbookPath in
      let remotePlaybookPath :=
        filepath_Join [bootstrapDirectory; filepath_Base playbookPath] in
      let* err := call (comm_UploadDir bootstrapDirectory playbookDir) in
      emit UploadingArtifacts
        (AUploadDir bootstrapDirectory playbookDir err) >>
      match err with
      | Some err => ret (Some err)
      | None =>
          let vaultPasswordFilePath := VaultPasswordFile p in
          let* uploaded :=
            if nonempty vaultPasswordFilePath then
              let* r := resolvePath UploadingArtifacts vaultPasswordFilePath in
              match r with
              | Err err => ret (Err err)
              | Ok vaultPasswordFilePath =>
                  uploadVaultPasswordFile p vaultPasswordFilePath
              end
            else ret (Ok "") in
          match uploaded with
          | Err err => ret (Some err)
          | Ok uploadedVaultPasswordFilePath =>
              let built :=
                commandBuilder p remotePlaybookPath
                  uploadedVaultPasswordFilePath in
              emit BuildingCommand (ABuild built) >>
              match built with
              | Err err => ret (Some err)
              | Ok command =>
                  let* err := uploadInventory p in
                  match err with
                  | Some err => ret (Some err)
                  | None =>
                      Output Running ("running command: " +:+ command) >>
                      let* err := runCommand Running p command in
                      match err with
                      | Some err => ret (Some err)
                      | None =>
                          (if skipCleanup p then ret tt
                           else cleanupAfterBootstrap p) >>
                          ret None
                      end
                  end
              end
          end
      end
  end.

(** ** applyFn *)

(** The part of [applyFn] after [defer comm.Disconnect()]. *)
Definition provision (p : provisioner) : M (option error) :=
  let* err :=
    if skipInstall p then ret None else installAnsible p in
  match err with
  | Some err => ret (Some err)
  | None =>
      let* err := deployAnsibleModule p in
      match err with
      | Some err => Output Failed err >> ret (Some err)
      | None => ret None
      end
  end.

Definition Connect : M (option error) :=
  λ s, let r := comm_Connect (world s) in
       mkRun r.1.1 (mkSt r.2 (now s + Z.of_N r.1.2))
         [Ev Connecting (AConnect r.1.1)].

(** [applyFn]; the outer [None] is a run that does not return: a panic
    of [decodeConfig] or a retry loop that does not end.  The deferred
    [comm.Disconnect()] runs when the function returns, after the
    result is known. *)
Definition applyFn (d : gmap string Value) : M (option (option error)) :=
  match decodeConfig d with
  | None => ret None
  | Some (p, Some err) => ret (Some (Some err))
  | Some (p, None) =>
      let* err := call communicator_New in
      emit Connecting (ANew err) >>
      match err with
      | Some err => ret (Some (Some err))
      | None =>
          let* timeout := ask comm_Timeout in
          let* connected := retryFunc Connecting timeout Connect in
          match connected with
          | None => ret None
          | Some (Some err) => ret (Some (Some err))
          | Some None =>
              let* err := provision p in
              call comm_Disconnect >>
              emit (if err is None then Done else Failed) ADisconnect >>
              ret (Some err)
          end
      end
  end.

End Workflow.

Arguments mkRun {W A} val post events.
Arguments val {W A} r.
Arguments post {W A} r.
Arguments events {W A} r.

(* ================================================================= *)
(** * runCommand and copyOutput as goroutines                         *)
(* ================================================================= *)

(** The body of [runCommand] runs next to the two [copyOutput]
    goroutines and to the remote side, which writes to the pipes.  A
    state holds the statement each goroutine is at; a step is one
    statement of one of them, in any interleaving. *)

Module Goroutines.

Inductive Stream : Type := Stdout | Stderr.

Global Instance Stream_eq_dec : EqDecision Stream.
Proof. solve_decision. Defined.

(** Where [runCommand] is. *)
Inductive MainPC : Type :=
  | AtStart                        (* err := comm.Start(cmd) *)
  | AtWait                         (* cmd.Wait() *)
  | AtCloseOut                     (* outW.Close() *)
  | AtCloseErr                     (* errW.Close() *)
  | AtRecvOut                      (* <-outDoneCh *)
  | AtRecvErr                      (* <-errDoneCh *)
  | Returned (err : option error). (* return err *)

(** Where a [copyOutput] is. *)
Inductive RelayPC : Type :=
  | Receiving                (* for line := range lr.Ch *)
  | Emitting (line : string) (* o.Output(line) *)
  | Closing                  (* the range is over: defer close(doneCh) *)
  | Finished.

(** A pipe with its line reader: the lines written and not yet handed
    to the relay, and whether the write end is closed. *)
Record Pipe : Type := mkPipe { buffer : list string; closed : bool }.

Record State : Type := mkState {
  pc : MainPC;
  command : string;
  submitted : bool;            (* comm.Start returned nil *)
  exitStatus : option Z;       (* cmd.ExitStatus, once the process is over *)
  err : option error;
  pipes : Stream → Pipe;
  relays : Stream → RelayPC;
  doneCh : Stream → bool;      (* the done channel is closed *)
  output : list string         (* the lines given to o.Output *)
}.

Definition upd {A} (f : Stream → A) (x : Stream) (a : A) : Stream → A :=
  λ y, if bool_decide (y = x) then a else f y.

Inductive Label : Type :=
  | Submit (r : option error)         (* comm.Start answers *)
  | Write (x : Stream) (line : string) (* the remote side writes a line *)
  | Exit (status : Z)                 (* the remote process is over *)
  | Main                              (* the next statement of runCommand *)
  | Relay (x : Stream).               (* the next statement of a copyOutput *)

Section Steps.
Context `{Lib}.

(** The state after the two [go p.copyOutput(...)] statements; [cmd] is
    the command after the sudo prefix, [out] what the observer has
    received so far. *)
Definition initial (cmd : string) (out : list string) : State :=
  mkState AtStart cmd false None None
    (λ _, mkPipe [] false) (λ _, Receiving) (λ _, false) out.

Definition setPc (s : State) (pc' : MainPC) : State :=
  mkState pc' (command s) (submitted s) (exitStatus s) (err s)
    (pipes s) (relays s) (doneCh s) (output s).

Definition setPipe (s : State) (x : Stream) (p : Pipe) : State :=
  mkState (pc s) (command s) (submitted s) (exitStatus s) (err s)
    (upd (pipes s) x p) (relays s) (doneCh s) (output s).

Definition setRelay (s : State) (x : Stream) (r : RelayPC) : State :=
  mkState (pc s) (command s) (submitted s) (exitStatus s) (err s)
    (pipes s) (upd (relays s) x r) (doneCh s) (output s).

(** One statement of [runCommand]; [None] when it blocks or is over. *)
Definition stepMain (s : State) : option State :=
  match pc s with
  | AtStart => None
  | AtWait =>
      match exitStatus s with
      | Some status =>
          let e :=
            if bool_decide (status ≠ 0)%Z
            then Some (errExitStatus (command s) status) else None in
          Some (mkState AtCloseOut (command s) (submitted s) (exitStatus s) e
                  (pipes s) (relays s) (doneCh s) (output s))
      | None => None
      end
  | AtCloseOut =>
      Some (setPc (setPipe s Stdout (mkPipe (buffer (pipes s Stdout)) true))
              AtCloseErr)
  | AtCloseErr =>
      Some (setPc (setPipe s Stderr (mkPipe (buffer (pipes s Stderr)) true))
              AtRecvOut)
  | AtRecvOut => if doneCh s Stdout then Some (setPc s AtRecvErr) else None
  | AtRecvErr => if doneCh s Stderr then Some (setPc s (Returned (err s))) else None
  | Returned _ => None
  end.

(** One statement of the [copyOutput] of stream [x]. *)
Definition stepRelay (x : Stream) (s : State) : option State :=
  match relays s x with
  | Receiving =>
      match buffer (pipes s x) with
      | line :: rest =>
          Some (setRelay (setPipe s x (mkPipe rest (closed (pipes s x))))
                  x (Emitting line))
      | [] => if closed (pipes s x) then Some (setRelay s x Closing) else None
      end
  | Emitting line =>
      Some (mkState (pc s) (command s) (submitted s) (exitStatus s) (err s)
              (pipes s) (upd (relays s) x Receiving) (doneCh s)
              (output s ++ [line]))
  | Closing =>
      Some (mkState (pc s) (command s) (submitted s) (exitStatus s) (err s)
              (pipes s) (upd (relays s) x Finished) (upd (doneCh s) x true)
              (output s))
  | Finished => None
  end.

Definition step (l : Label) (s : State) : option State :=
  match l with
  | Submit r =>
      match pc s with
      | AtStart =>
          match r with
          | Some e =>
              Some (setPc s (Returned (Some (errExecuting (command s) e))))
          | None =>
              Some (mkState AtWait (command s) true (exitStatus s) (err s)
                      (pipes s) (relays s) (doneCh s) (output s))
          end
      | _ => None
      end
  | Write x line =>
      if submitted s then
        if closed (pipes s x) then Some s (* io.ErrClosedPipe *)
        else Some (setPipe s x (mkPipe (buffer (pipes s x) ++ [line]) false))
      else None
  | Exit status =>
      if submitted s then
        match exitStatus s with
        | None =>
            Some (mkState (pc s) (command s) (submitted s) (Some status)
                    (err s) (pipes s) (relays s) (doneCh s) (output s))
        | Some _ => None
        end
      else None
  | Main => stepMain s
  | Relay x => stepRelay x s
  end.

(** A schedule: the steps taken, in order. *)
Fixpoint run (ls : list Label) (s : State) : option State :=
  match ls with
  | [] => Some s
  | l :: ls' =>
      match step l s with
      | Some s' => run ls' s'
      | None => None
      end
  end.




End Steps.
End Goroutines.

(* ================================================================= *)
(** * A simulated environment                                         *)
(* ================================================================= *)

(** Collaborators simple enough to run the workflow on concrete
    inputs. *)

Module Sim.

Definition dq : string := String (ascii_of_nat 34) "".

(** Characters that [%q] and [encoding/json] copy unchanged: printable
    ASCII other than the quote, the backslash and the three characters
    JSON escapes for HTML. *)
Definition plainChar (a : ascii) : bool :=
  let n := nat_of_ascii a in
  bool_decide (32 ≤ n ≤ 126)%nat
  && negb (bool_decide (n = 34 ∨ n = 92 ∨ n = 60 ∨ n = 62 ∨ n = 38)%nat).

Fixpoint plain (s : string) : bool :=
  match s with
  | EmptyString => true
  | String a s' => plainChar a && plain s'
  end.

Definition quote (s : string) : string := dq +:+ s +:+ dq.

Definition member (k : string) (kv : string * Value) : option string :=
  match kv.2 with
  | VString v =>
      if plain kv.1 && plain v
      then Some (quote kv.1 +:+ ":" +:+ quote v) else None
  | _ => None
  end.

Definition keyLe (a b : string * Value) : Prop := String.le a.1 b.1.

Global Instance keyLe_dec : RelDecision keyLe.
Proof. intros a b. unfold keyLe. apply _. Defined.

(** The encoding of an object whose values are plain strings, keys in
    order; other objects are refused. *)
Definition marshal (m : gmap string Value) : result string :=
  match mapM (member "") (merge_sort keyLe (map_to_list m)) with
  | Some members => Ok ("{" +:+ String.concat "," members +:+ "}")
  | None => Err "json: unsupported type"
  end.

(** Slash-separated paths without [.], [..] or doubled separators. *)
Definition join (parts : list string) : string := String.concat "/" parts.

Definition dir (path : string) : string :=
  match removelast (Template.splitOn "/"%char "" path) with
  | [] => "."
  | [ "" ] => "/"
  | parts => String.concat "/" parts
  end.

Definition basename (path : string) : string :=
  List.last (Template.splitOn "/"%char "" path) "".

Definition lib : Lib := {|
  json_Marshal := marshal;
  strconv_Quote := quote;
  filepath_Join := join;
  filepath_Dir := dir;
  filepath_Base := basename;
  homedir_Expand := λ path, path;
  executeInstaller := λ i, Ok ("pip install " +:+ AnsibleVersion i)
|}.

(** The remote host and the local machine. *)
Record World : Type := mkWorld {
  timeout : Z;                (* comm.Timeout() *)
  refusals : nat;             (* connection attempts that still fail *)
  attemptTime : N;            (* how long a failing attempt takes *)
  localFiles : list string;   (* the paths os.Stat finds *)
  rejected : list string;     (* commands whose submission fails *)
  exitOne : list string;      (* commands that exit with status 1 *)
  chatter : list (string * list string); (* lines a command prints *)
  started : string;           (* the command submitted last *)
  tie : bool
}.

Definition withRefusals (w : World) (n : nat) : World :=
  mkWorld (timeout w) n (attemptTime w) (localFiles w) (rejected w)
    (exitOne w) (chatter w) (started w) (tie w).

Definition withStarted (w : World) (c : string) : World :=
  mkWorld (timeout w) (refusals w) (attemptTime w) (localFiles w)
    (rejected w) (exitOne w) (chatter w) c (tie w).

Fixpoint linesOf (c : string) (l : list (string * list string)) : list string :=
  match l with
  | [] => []
  | (k, ls) :: l' => if bool_decide (k = c) then ls else linesOf c l'
  end.

Definition communicator : Communicator World := {|
  communicator_New := λ w, (None, w);
  comm_Timeout := timeout;
  comm_Connect := λ w,
    match refusals w with
    | O => (None, 0%N, w)
    | S n => (Some "connection refused", attemptTime w, withRefusals w n)
    end;
  comm_Disconnect := λ w, (None, w);
  comm_UploadDir := λ _ _ w, (None, w);
  comm_Upload := λ _ _ w, (None, w);
  comm_UploadScript := λ _ _ w, (None, w);
  comm_Start := λ c w,
    if bool_decide (c ∈ rejected w) then (Some "session closed", w)
    else (None, withStarted w c);
  cmd_Wait := λ w,
    (if bool_decide (started w ∈ exitOne w) then 1%Z else 0%Z,
     linesOf (started w) (chatter w), [], w);
  os_Stat := λ path w, bool_decide (path ∈ localFiles w);
  os_Open := λ path w,
    if bool_decide (path ∈ localFiles w) then Ok "secret"
    else Err ("open " +:+ path +:+ ": no such file or directory");
  select_tie := tie
|}.

(** The same host when it accepts no upload. *)
Definition readOnly : Communicator World := {|
  communicator_New := @communicator_New _ communicator;
  comm_Timeout := @comm_Timeout _ communicator;
  comm_Connect := @comm_Connect _ communicator;
  comm_Disconnect := @comm_Disconnect _ communicator;
  comm_UploadDir := λ _ _ w, (Some "read-only file system", w);
  comm_Upload := λ _ _ w, (Some "read-only file system", w);
  comm_UploadScript := λ _ _ w, (Some "read-only file system", w);
  comm_Start := @comm_Start _ communicator;
  cmd_Wait := @cmd_Wait _ communicator;
  os_Stat := @os_Stat _ communicator;
  os_Open := @os_Open _ communicator;
  select_tie := @select_tie _ communicator
|}.

(** A host that refuses every connection. *)
Definition refusing : Communicator World := {|
  communicator_New := @communicator_New _ communicator;
  comm_Timeout := @comm_Timeout _ communicator;
  comm_Connect := λ w, (Some "connection refused", attemptTime w, w);
  comm_Disconnect := @comm_Disconnect _ communicator;
  comm_UploadDir := @comm_UploadDir _ communicator;
  comm_Upload := @comm_Upload _ communicator;
  comm_UploadScript := @comm_UploadScript _ communicator;
  comm_Start := @comm_Start _ communicator;
  cmd_Wait := @cmd_Wait _ communicator;
  os_Stat := @os_Stat _ communicator;
  os_Open := @os_Open _ communicator;
  select_tie := @select_tie _ communicator
|}.

(** A resource configuration with the defaults of the schema. *)
Definition config (hosts groups : list string) (skip_install skip_cleanup : bool)
  : gmap string Value :=
  list_to_map
    [ ("playbook", VString "/site/playbook.yaml");
      ("hosts", VList (VString <$> hosts));
      ("groups", VList (VString <$> groups));
      ("tags", VList []); ("skip_tags", VList []);
      ("start_at_task", VString ""); ("limit", VString "");
      ("extra_vars", VMap ∅); ("forks", VInt 0);
      ("verbose", VBool false); ("force_handlers", VBool false);
      ("become", VBool false); ("become_method", VString "sudo");
      ("become_user", VString "user");
      ("vault_password_file", VString "");
      ("use_sudo", VBool true); ("skip_install", VBool skip_install);
      ("skip_cleanup", VBool skip_cleanup);
      ("install_version", VString "") ].

(** A host on which everything succeeds at once. *)
Definition calm : World :=
  mkWorld 300000000000 0 1000000000 ["/site/playbook.yaml"] [] [] [] "" true.

(** A host that refuses the removal command of the cleanup. *)
Definition stubborn : World :=
  mkWorld 300000000000 0 1000000000 ["/site/playbook.yaml"]
    ["sudo rm -rf /tmp"] [] [] "" true.

(** A host that is never reachable, and a five-second timeout. *)
Definition unreachable : World :=
  mkWorld 5000000000 1000 1000000000 ["/site/playbook.yaml"] [] [] [] "" true.

(** A machine without the playbook. *)
Definition blank : World :=
  mkWorld 300000000000 0 1000000000 [] [] [] [] "" true.

(** A host on which the installer fails. *)
Definition broken : World :=
  mkWorld 300000000000 0 1000000000 ["/site/playbook.yaml"] []
    ["/bin/bash -c '/tmp/ansible-install.sh && rm /tmp/ansible-install.sh'"]
    [] "" true.

(** The provisioner of a playbook with nothing else set, with or without
    the cleanup. *)
Definition site (skip_cleanup : bool) : provisioner :=
  mkProvisioner "/site/playbook.yaml" ["web1"; "localhost"] ["app"] [] []
    "" "" 0 ∅ false false false "" "" "" false false skip_cleanup "".

Definition start (w : World) : @St World := mkSt w 0.

(** [applyFn] on the simulated host. *)
Definition apply (d : gmap string Value) (w : World)
  : Run (option (option error)) :=
  @applyFn World communicator lib d (start w).

End Sim.

(* ================================================================= *)
(** * Vocabulary of the properties                                    *)
(* ================================================================= *)

(** The line feed. *)
Definition LF : string := String (ascii_of_nat 10) "".

Fixpoint joinAll (l : list string) : string :=
  match l with
  | [] => ""
  | x :: l' => x +:+ joinAll l'
  end.

(** The inventory in the words of the design: a line for every host,
    then for every group a bracketed header followed by the same full
    host list; the blank lines are those of the template. *)
Definition hostLine (h : string) : string :=
  h +:+ " ansible_connection=local" +:+ LF.

Definition hostLines (hosts : list string) : string :=
  joinAll (hostLine <$> hosts).

Definition groupSection (hosts : list string) (g : string) : string :=
  "[" +:+ g +:+ "]" +:+ LF +:+ hostLines hosts +:+ LF +:+ LF.

Definition inventoryText (hosts groups : list string) : string :=
  hostLines hosts +:+ LF +:+ LF +:+ joinAll (groupSection hosts <$> groups).

(** A provisioner with the given hosts and groups and nothing else
    set. *)
Definition bare (hosts groups : list string) : provisioner :=
  mkProvisioner "" hosts groups [] [] "" "" 0 ∅ false false false "" "" ""
    false false false "".

(** Appending a flag that may be absent to a command line. *)
Definition addFlag (command : string) (flag : option string) : string :=
  match flag with
  | Some f => command +:+ " " +:+ f
  | None => command
  end.

(** The phases a run goes through: the phases of its events, a run of
    events of one phase counted once. *)
Fixpoint phasesFrom (last : option Phase) (evs : list Event) : list Phase :=
  match evs with
  | [] => []
  | e :: evs' =>
      if bool_decide (last = Some (phase e)) then phasesFrom last evs'
      else phase e :: phasesFrom (Some (phase e)) evs'
  end.

Definition phaseSequence (evs : list Event) : list Phase :=
  phasesFrom None evs.

Definition isDisconnect (e : Event) : bool :=
  match action e with ADisconnect => true | _ => false end.

(** How often a run disconnects. *)
Fixpoint disconnects (evs : list Event) : nat :=
  match evs with
  | [] => 0
  | e :: evs' => (if isDisconnect e then 1 else 0) + disconnects evs'
  end.

(** What a run reports: the lines given to the observer and to the
    logger, in order. *)
Fixpoint reported (evs : list Event) : list string :=
  match evs with
  | [] => []
  | e :: evs' =>
      match action e with
      | AOutput line | ALog line => line :: reported evs'
      | _ => reported evs'
      end
  end.

(** The run established the connection. *)
Definition connected (evs : list Event) : Prop :=
  Ev Connecting (AConnect None) ∈ evs.

(** The command [runCommand] submits for [command]. *)
Definition withSudo (p : provisioner) (command : string) : string :=
  if useSudo p then "sudo " +:+ command else command.

(** The commands a run submits, in order. *)
Fixpoint commands (evs : list Event) : list string :=
  match evs with
  | [] => []
  | e :: evs' =>
      match action e with
      | AStart c _ => c :: commands evs'
      | _ => commands evs'
      end
  end.

(** The remote paths a run uploads to, in order. *)
Fixpoint uploads (evs : list Event) : list string :=
  match evs with
  | [] => []
  | e :: evs' =>
      match action e with
      | AUploadDir dst _ _ | AUpload dst _ _ | AUploadScript dst _ _ =>
          dst :: uploads evs'
      | _ => uploads evs'
      end
  end.



(** An action of the connection phase: the creation of the
    communicator, a connection attempt or a log line. *)
Definition connecting (e : Event) : Prop :=
  phase e = Connecting
  ∧ match action e with
    | ANew _ | AConnect _ | ALog _ => True
    | _ => False
    end.

(** The events of failed connection attempts: each attempt and the log
    line of its error. *)
Fixpoint failedAttempts (errs : list error) : list Event :=
  match errs with
  | [] => []
  | e :: errs' =>
      Ev Connecting (AConnect (Some e))
      :: Ev Connecting (ALog ("Retryable error: " +:+ e))
      :: failedAttempts errs'
  end.

(* ================================================================= *)
(** * The inventory template, parsed                                  *)
(* ================================================================= *)

(** The body of the two [range]s over the hosts. *)
Definition hostBody : Template.nodes :=
  Template.NCons (Template.NAction (Template.mkPipe None []))
    (Template.NCons (Template.NText (" ansible_connection=local" +:+ LF))
       Template.NNil).

(** The body of the [range] over the groups. *)
Definition groupBody : Template.nodes :=
  Template.NCons (Template.NText "[")
    (Template.NCons (Template.NAction (Template.mkPipe None []))
       (Template.NCons (Template.NText ("]" +:+ LF))
          (Template.NCons
             (Template.NRange (Template.mkPipe (Some "$top") ["Hosts"])
                hostBody)
             (Template.NCons (Template.NText (LF +:+ LF)) Template.NNil)))).

Definition inventoryNodes : Template.nodes :=
  Template.NCons (Template.NDecl "$top" (Template.mkPipe None []))
    (Template.NCons
       (Template.NRange (Template.mkPipe None ["Hosts"]) hostBody)
       (Template.NCons (Template.NText (LF +:+ LF))
          (Template.NCons
             (Template.NRange (Template.mkPipe None ["Groups"]) groupBody)
             Template.NNil))).

(* ================================================================= *)
(** * Properties of runs                                              *)
(* ================================================================= *)

(** An event of phase [ph] that is not the disconnection. *)
Definition inPhase (ph : Phase) (e : Event) : Prop :=
  phase e = ph ∧ isDisconnect e = false.

Section RunProperties.
Context {W : Type} `{Communicator W} `{Lib}.

(** Every event of every run of [m] satisfies [P]. *)
Definition always {A} (P : Event → Prop) (m : @M W A) : Prop :=
  ∀ s, Forall P (events (m s)).

(** The run [r] of the retry loop ends with the invocation of [f] in the
    state [s']: on success nothing follows it, on failure only the log
    line of its error and the passing of time. *)
Definition endsWithCall (ph : Phase) (f : @M W (option error))
    (r : Run (option (option error))) (s' : St) : Prop :=
  match val (f s') with
  | None =>
      val r = Some None ∧ post r = post (f s')
      ∧ ∃ pre, events r = pre ++ events (f s')
  | Some e =>
      val r = Some (Some e) ∧ world (post r) = world (post (f s'))
      ∧ ∃ pre, events r
               = pre ++ events (f s')
                 ++ [Ev ph (ALog ("Retryable error: " +:+ e))]
  end.

(** The runs of the loop of [retryFunc] from the state [s], with the
    instant [finish] of the timeout: the events, the error returned and
    the state left.  A call of [f] that succeeds ends the run; after a
    call that fails, its error is logged, and the run ends with that
    error when the timeout fires before the retry interval is over (or
    at the same instant and first), and goes on with the next call, one
    interval later, when it does not. *)
Inductive retried (ph : Phase) (finish : Z) (f : @M W (option error))
  : St → list Event → option error → St → Prop :=
  | retried_success s :
      val (f s) = None →
      retried ph finish f s (events (f s)) None (post (f s))
  | retried_timeout s e s' :
      val (f s) = Some e →
      (finish < now (post (f s)) + retryInterval
       ∨ finish = now (post (f s)) + retryInterval
         ∧ select_tie (world (post (f s))) = true)%Z →
      world s' = world (post (f s)) →
      now s' = Z.max finish (now (post (f s))) →
      retried ph finish f s
        (events (f s) ++ [Ev ph (ALog ("Retryable error: " +:+ e))])
        (Some e) s'
  | retried_again s e evs r s' :
      val (f s) = Some e →
      (now (post (f s)) + retryInterval < finish
       ∨ finish = now (post (f s)) + retryInterval
         ∧ select_tie (world (post (f s))) = false)%Z →
      retried ph finish f
        (mkSt (world (post (f s))) (now (post (f s)) + retryInterval))
        evs r s' →
      retried ph finish f s
        (events (f s) ++ Ev ph (ALog ("Retryable error: " +:+ e)) :: evs)
        r s'.

End RunProperties.

(* ================================================================= *)
(** * The calls the communicator receives                             *)
(* ================================================================= *)

(** The actions that are calls of the communicator or of the remote
    command; the others are local: the log, the output to the user, the
    file system of the local machine and the build of the command. *)
Definition isCall (a : Action) : bool :=
  match a with
  | ANew _ | AConnect _ | ADisconnect | AUploadDir _ _ _ | AUpload _ _ _
  | AUploadScript _ _ _ | AStart _ _ | AWait _ => true
  | ALog _ | AOutput _ | AStat _ _ | AOpen _ _ | ABuild _ => false
  end.

(** The calls among the events of a run, in order. *)
Fixpoint callsOf (evs : list Event) : list Action :=
  match evs with
  | [] => []
  | e :: evs' =>
      if isCall (action e) then action e :: callsOf evs' else callsOf evs'
  end.

(** The collaborators with a record of their use beside them: the
    number of calls of [comm.Connect] that succeeded, the number of
    calls of [comm.Disconnect], and every call received, with the answer
    given, in order. *)
Record Monitored (W : Type) : Type := mkMonitored {
  inner : W;
  connections : nat;
  disconnections : nat;
  received : list Action
}.
Arguments mkMonitored {W} inner connections disconnections received.
Arguments inner {W} m.
Arguments connections {W} m.
Arguments disconnections {W} m.
Arguments received {W} m.

Section Monitor.
Context {W : Type} `{Communicator W} `{Lib}.

(** A call that is recorded as [act] of its answer, and not counted. *)
Definition passing {A} (act : A → Action) (f : W → A * W) (m : Monitored W)
  : A * Monitored W :=
  ((f (inner m)).1,
   mkMonitored (f (inner m)).2 (connections m) (disconnections m)
     (received m ++ [act (f (inner m)).1])).

(** The collaborators of [W], monitored: every call is passed on to [W]
    and recorded; a [comm.Connect] that answers nil and every
    [comm.Disconnect] are counted.  The questions that leave the
    collaborators alone are passed on. *)
Definition monitor : Communicator (Monitored W) := {|
  communicator_New := passing ANew communicator_New;
  comm_Timeout := λ m, comm_Timeout (inner m);
  comm_Connect := λ m,
    let r := comm_Connect (inner m) in
    (r.1,
     mkMonitored r.2
       (if r.1.1 is None then S (connections m) else connections m)
       (disconnections m) (received m ++ [AConnect r.1.1]));
  comm_Disconnect := λ m,
    let r := comm_Disconnect (inner m) in
    (r.1,
     mkMonitored r.2 (connections m) (S (disconnections m))
       (received m ++ [ADisconnect]));
  comm_UploadDir := λ dst src,
    passing (AUploadDir dst src) (comm_UploadDir dst src);
  comm_Upload := λ dst content,
    passing (AUpload dst content) (comm_Upload dst content);
  comm_UploadScript := λ dst content,
    passing (AUploadScript dst content) (comm_UploadScript dst content);
  comm_Start := λ c, passing (AStart c) (comm_Start c);
  cmd_Wait := passing (λ r, AWait r.1.1) cmd_Wait;
  os_Stat := λ path m, os_Stat path (inner m);
  os_Open := λ path m, os_Open path (inner m);
  select_tie := λ m, select_tie (inner m)
|}.

(** A run that leaves the two counters as they are. *)
Definition keeps {A} (m : @M (Monitored W) A) : Prop :=
  ∀ s, connections (world (post (m s))) = connections (world s)
       ∧ disconnections (world (post (m s))) = disconnections (world s).

(** A run whose events tell the calls the collaborators received: the
    calls among its events are the calls recorded during the run, one
    for one and in the same order, with the same arguments and
    answers. *)
Definition faithful {A} (m : @M (Monitored W) A) : Prop :=
  ∀ s, received (world (post (m s)))
       = received (world s) ++ callsOf (events (m s)).

End Monitor.

(* ================================================================= *)
(** * Properties of the goroutines                                    *)
(* ================================================================= *)

Section RelayProperties.
Import Goroutines.
Context `{Lib}.

(** The lines the remote side writes in a schedule. *)
Fixpoint written (ls : list Label) : list string :=
  match ls with
  | [] => []
  | Write _ line :: ls' => line :: written ls'
  | _ :: ls' => written ls'
  end.

(** The line a relay holds between its receive and its output. *)
Definition emitting (r : RelayPC) : list string :=
  match r with Emitting line => [line] | _ => [] end.

(** The lines on their way to the observer. *)
Definition held (s : State) : list string :=
  buffer (pipes s Stdout) ++ emitting (relays s Stdout)
  ++ buffer (pipes s Stderr) ++ emitting (relays s Stderr).


(** A step of [runCommand] or of one of its relays. *)
Definition ownStep (l : Label) : Prop :=
  match l with Main | Relay _ => True | _ => False end.

(** The error [runCommand] derives from the exit status. *)
Definition exitError (cmd : string) (status : Z) : option error :=
  if bool_decide (status ≠ 0)%Z then Some (errExitStatus cmd status) else None.

(** More of what holds in every state the goroutines reach: a relay
    that is over has closed its done channel, only a submitted command
    exits, [runCommand] is past a close once the pipe is closed, and past
    the wait it holds the error of the exit status. *)
Record settled (s : State) : Prop := mkSettled {
  st_finished : ∀ x, relays s x = Finished → doneCh s x = true;
  st_exit : ∀ status, exitStatus s = Some status → submitted s = true;
  st_started : submitted s = true → pc s ≠ AtStart;
  st_closedOut :
    pc s = AtCloseErr ∨ pc s = AtRecvOut ∨ pc s = AtRecvErr →
    closed (pipes s Stdout) = true;
  st_closedErr :
    pc s = AtRecvOut ∨ pc s = AtRecvErr → closed (pipes s Stderr) = true;
  st_err :
    pc s = AtCloseOut ∨ pc s = AtCloseErr ∨ pc s = AtRecvOut ∨ pc s = AtRecvErr →
    ∃ status, exitStatus s = Some status ∧ err s = exitError (command s) status;
  st_returned : ∀ e,
    pc s = Returned e → submitted s = true →
    ∃ status, exitStatus s = Some status ∧ e = exitError (command s) status
}.

(** What the steps of a relay leave alone. *)
Definition sameMain (s s' : State) : Prop :=
  pc s' = pc s ∧ err s' = err s ∧ command s' = command s
  ∧ (∀ y, closed (pipes s' y) = closed (pipes s y))
  ∧ (∀ y, doneCh s y = true → doneCh s' y = true).

End RelayProperties.

(* ================================================================= *)
(** * Strings                                                         *)
(* ================================================================= *)

Lemma app_assoc_string (a b c : string) : (a +:+ b) +:+ c = a +:+ b +:+ c.
Proof. induction a as [|x a IH]; [done|]. exact (f_equal (String x) IH). Qed.

Lemma app_empty_r (a : string) : a +:+ "" = a.
Proof. induction a as [|x a IH]; [done|]. exact (f_equal (String x) IH). Qed.

Lemma concat_snoc (sep : string) (l : list string) (w0 w : string) :
  String.concat sep ((w0 :: l) ++ [w]) = String.concat sep (w0 :: l) +:+ sep +:+ w.
Proof.
  revert w0. induction l as [|w1 l IH]; intros w0; [done|].
  change (String.concat sep ((w0 :: w1 :: l) ++ [w]))
    with (w0 +:+ sep +:+ String.concat sep ((w1 :: l) ++ [w])).
  rewrite IH.
  change (String.concat sep (w0 :: w1 :: l))
    with (w0 +:+ sep +:+ String.concat sep (w1 :: l)).
  by rewrite !app_assoc_string.
Qed.

(* ================================================================= *)
(** * decodeConfig                                                    *)
(* ================================================================= *)

Lemma occurrences_snoc (h : string) (l : list string) :
  occurrences h (l ++ [h]) = S (occurrences h l).
Proof.
  unfold occurrences. rewrite filter_app, length_app. simpl.
  rewrite filter_cons_True by done. simpl. lia.
Qed.

Lemma conforms_lookup d k t :
  conforms d = true → (k, t) ∈ Schema → hasType (Get d k) t = true.
Proof.
  unfold conforms. rewrite forallb_forall. intros Hall Hin.
  apply (Hall (k, t)). by apply list_elem_of_In.
Qed.

(** The value of a key of the schema in a conforming configuration. *)
Ltac schema_key d H k t :=
  let Hk := fresh "Hk" in
  assert (Hk : hasType (Get d k) t = true)
    by (apply (conforms_lookup d k t H); set_solver);
  destruct (Get d k); try discriminate Hk; clear Hk.

(** A conforming configuration is decoded without a panic; the decoded
    hosts are the configured strings followed by one [localhost]. *)
Lemma decodeConfig_conforms (d : gmap string Value) :
  conforms d = true →
  ∃ p explicit,
    decodeConfig d = Some (p, None)
    ∧ getStringList (Get d "hosts") = Some explicit
    ∧ Hosts p = explicit ++ ["localhost"].
Proof.
  intros Hd. unfold decodeConfig.
  schema_key d Hd "playbook" TypeString.
  schema_key d Hd "hosts" TypeList.
  schema_key d Hd "groups" TypeList.
  schema_key d Hd "tags" TypeList.
  schema_key d Hd "skip_tags" TypeList.
  schema_key d Hd "start_at_task" TypeString.
  schema_key d Hd "limit" TypeString.
  schema_key d Hd "forks" TypeInt.
  schema_key d Hd "extra_vars" TypeMap.
  schema_key d Hd "verbose" TypeBool.
  schema_key d Hd "force_handlers" TypeBool.
  schema_key d Hd "become" TypeBool.
  schema_key d Hd "become_method" TypeString.
  schema_key d Hd "become_user" TypeString.
  schema_key d Hd "vault_password_file" TypeString.
  schema_key d Hd "use_sudo" TypeBool.
  schema_key d Hd "skip_install" TypeBool.
  schema_key d Hd "skip_cleanup" TypeBool.
  schema_key d Hd "install_version" TypeString.
  simpl. eexists _, _. split; [reflexivity|]. simpl.
  split; reflexivity.
Qed.

(** C4, as the code has it: for every configuration the schema layer
    delivers, [decodeConfig] returns without error a provisioner whose
    hosts are the explicitly configured hosts followed by one appended
    [localhost]; the list is not empty, its last element is [localhost],
    and [localhost] occurs once more than among the configured hosts. *)
Theorem decodeConfig_appends_localhost (d : gmap string Value) :
  conforms d = true →
  ∃ p explicit,
    decodeConfig d = Some (p, None)
    ∧ getStringList (Get d "hosts") = Some explicit
    ∧ Hosts p = explicit ++ ["localhost"]
    ∧ Hosts p ≠ []
    ∧ last (Hosts p) = Some "localhost"
    ∧ occurrences "localhost" (Hosts p) = S (occurrences "localhost" explicit).
Proof.
  intros Hd. destruct (decodeConfig_conforms d Hd) as (p & explicit & Hp & He & Hh).
  exists p, explicit. rewrite Hh. repeat split; try done.
  - by destruct explicit.
  - apply last_snoc.
  - apply occurrences_snoc.
Qed.

Lemma decodeConfig_appends_localhost_witness :
  ∃ p explicit,
    decodeConfig (Sim.config ["web1"] ["app"] true false) = Some (p, None)
    ∧ getStringList (Get (Sim.config ["web1"] ["app"] true false) "hosts")
      = Some explicit
    ∧ Hosts p = explicit ++ ["localhost"]
    ∧ Hosts p ≠ []
    ∧ last (Hosts p) = Some "localhost"
    ∧ occurrences "localhost" (Hosts p) = S (occurrences "localhost" explicit).
Proof.
  apply (decodeConfig_appends_localhost (Sim.config ["web1"] ["app"] true false)).
  vm_compute. reflexivity.
Defined.

(** C4, as the specification words it, fails: a configuration that
    names [localhost] itself is decoded to a host list with two
    occurrences. *)
Lemma decodeConfig_localhost_twice :
  conforms (Sim.config ["localhost"] [] false false) = true
  ∧ ∃ p, decodeConfig (Sim.config ["localhost"] [] false false) = Some (p, None)
         ∧ Hosts p = ["localhost"; "localhost"]
         ∧ occurrences "localhost" (Hosts p) = 2%nat.
Proof.
  split; [vm_compute; reflexivity|].
  eexists. split; [vm_compute; reflexivity|]. split; vm_compute; reflexivity.
Qed.

(* ================================================================= *)
(** * The inventory                                                   *)
(* ================================================================= *)

Section TemplateFacts.
Import Template.

Lemma execNodes_cons n ns vs dot out :
  execNodes (NCons n ns) vs dot out
  = match execNode n vs dot out with
    | Ok r => execNodes ns r.2 dot r.1
    | Err e => Err e
    end.
Proof. reflexivity. Qed.

Lemma execNode_text s vs dot out :
  execNode (NText s) vs dot out = Ok (out +:+ s, vs).
Proof. reflexivity. Qed.

Lemma execNode_dot s vs out :
  execNode (NAction (mkPipe None [])) vs (DString s) out = Ok (out +:+ s, vs).
Proof. reflexivity. Qed.

Lemma execNode_decl v d vs out :
  execNode (NDecl v (mkPipe None [])) vs d out = Ok (out, (v, d) :: vs).
Proof. reflexivity. Qed.

Lemma range_hosts (p : pipe) (vs : vars) (dot : data)
    (hosts : list string) (out : string) :
  evalPipe vs dot p = Ok (DList (DString <$> hosts)) →
  execNode (NRange p hostBody) vs dot out = Ok (out +:+ hostLines hosts, vs).
Proof.
  intros Hp. cbn [execNode]. rewrite Hp. clear Hp.
  revert out. induction hosts as [|h hosts IH]; intros out.
  - cbn. by rewrite app_empty_r.
  - cbn [fmap list_fmap]. unfold hostBody at 1.
    rewrite execNodes_cons, execNode_dot. cbn [fst snd].
    rewrite execNodes_cons, execNode_text. cbn [fst snd execNodes].
    change (list_fmap string data DString hosts) with (DString <$> hosts).
    rewrite IH. unfold hostLines. cbn [fmap list_fmap joinAll]. unfold hostLine.
    f_equal. f_equal. rewrite !app_assoc_string. reflexivity.
Qed.

Lemma inventoryTemplate_parses :
  Template.Parse inventoryTemplate = Some inventoryNodes.
Proof. vm_compute. reflexivity. Qed.

Lemma range_groups (p : pipe) (vs : vars) (dot : data)
    (hosts groups : list string) (out : string) :
  evalPipe vs dot p = Ok (DList (DString <$> groups)) →
  (∀ g, evalPipe vs (DString g) (mkPipe (Some "$top") ["Hosts"])
        = Ok (DList (DString <$> hosts))) →
  execNode (NRange p groupBody) vs dot out
  = Ok (out +:+ joinAll (groupSection hosts <$> groups), vs).
Proof.
  intros Hp Htop. cbn [execNode]. rewrite Hp. clear Hp.
  revert out. induction groups as [|g groups IH]; intros out.
  - cbn. by rewrite app_empty_r.
  - cbn [fmap list_fmap]. unfold groupBody at 1.
    rewrite execNodes_cons, execNode_text. cbn [fst snd].
    rewrite execNodes_cons, execNode_dot. cbn [fst snd].
    rewrite execNodes_cons, execNode_text. cbn [fst snd].
    rewrite execNodes_cons, (range_hosts _ _ _ hosts) by apply Htop.
    cbn [fst snd].
    rewrite execNodes_cons, execNode_text. cbn [fst snd execNodes].
    change (list_fmap string data DString groups) with (DString <$> groups).
    rewrite IH. cbn [joinAll]. unfold groupSection at 2.
    f_equal. f_equal. rewrite !app_assoc_string. reflexivity.
Qed.

(** The template always renders, to the host lines followed by the
    group sections. *)
Lemma renderInventory_text (p : provisioner) :
  renderInventory p = Ok (inventoryText (Hosts p) (Groups p)).
Proof.
  unfold renderInventory. rewrite inventoryTemplate_parses.
  unfold Must, default, Execute, inventoryNodes, id.
  rewrite execNodes_cons, execNode_decl. cbn [fst snd].
  rewrite execNodes_cons, (range_hosts _ _ _ (Hosts p)) by reflexivity.
  cbn [fst snd].
  rewrite execNodes_cons, execNode_text. cbn [fst snd].
  rewrite execNodes_cons, (range_groups _ _ _ (Hosts p) (Groups p));
    [|reflexivity|intros g; reflexivity].
  cbn [fst snd execNodes]. unfold inventoryText. f_equal.
  rewrite !app_assoc_string. reflexivity.
Qed.

End TemplateFacts.

(** C5, as the code has it: the rendered inventory is a function of the
    hosts and the groups alone; it is the line of every host, two line
    feeds, and for every group its bracketed name followed by the line
    of every host and two line feeds; for the hosts [web1] and the
    group [app] each host list is followed by three line feeds. *)
Theorem renderInventory_full_membership (p q : provisioner) :
  renderInventory p
  = Ok (hostLines (Hosts p) +:+ LF +:+ LF
        +:+ joinAll ((λ g, "[" +:+ g +:+ "]" +:+ LF
                           +:+ hostLines (Hosts p) +:+ LF +:+ LF)
                     <$> Groups p))
  ∧ (Hosts p = Hosts q → Groups p = Groups q →
     renderInventory p = renderInventory q)
  ∧ renderInventory (bare ["web1"] ["app"])
    = Ok ("web1 ansible_connection=local" +:+ LF +:+ LF +:+ LF
          +:+ "[app]" +:+ LF
          +:+ "web1 ansible_connection=local" +:+ LF +:+ LF +:+ LF).
Proof.
  rewrite !renderInventory_text. split; [reflexivity|]. split.
  - by intros -> ->.
  - reflexivity.
Qed.

Lemma renderInventory_full_membership_witness :
  renderInventory (bare ["web1"] ["app"])
  = renderInventory
      (mkProvisioner "site.yaml" ["web1"] ["app"] ["t"] [] "" "" 5 ∅
         true false false "" "" "" true true true "2.4").
Proof.
  apply (renderInventory_full_membership (bare ["web1"] ["app"])
           (mkProvisioner "site.yaml" ["web1"] ["app"] ["t"] [] "" "" 5 ∅
              true false false "" "" "" true true true "2.4"));
    reflexivity.
Defined.

(** C5, as the specification words it, fails: the inventory of the
    hosts [web1] and the group [app] is not the text of the scenario,
    which has one line feed less after each host list. *)
Lemma renderInventory_scenario_differs :
  renderInventory (bare ["web1"] ["app"])
  ≠ Ok ("web1 ansible_connection=local" +:+ LF +:+ LF
        +:+ "[app]" +:+ LF
        +:+ "web1 ansible_connection=local" +:+ LF +:+ LF).
Proof. vm_compute. discriminate. Qed.

(* ================================================================= *)
(** * commandBuilder                                                  *)
(* ================================================================= *)

Section BuilderFacts.
Context `{Lib}.

Lemma addFlag_words (w0 : string) (l : list string) (flag : option string) :
  addFlag (String.concat " " (w0 :: l)) flag
  = String.concat " " (w0 :: l ++ omap id [flag]).
Proof.
  destruct flag as [f|]; cbn [addFlag omap id]; cbv [option_list mbind option_bind].
  - apply eq_sym, (concat_snoc " " l w0 f).
  - by rewrite app_nil_r.
Qed.

Lemma addFlags_words (w0 : string) (l : list string) (flags : list (option string)) :
  fold_left addFlag flags (String.concat " " (w0 :: l))
  = String.concat " " (w0 :: l ++ omap id flags).
Proof.
  revert l. induction flags as [|f flags IH]; intros l.
  - by rewrite app_nil_r.
  - cbn [fold_left]. rewrite addFlag_words, IH. f_equal. f_equal.
    rewrite <- app_assoc. f_equal. by destruct f.
Qed.

Lemma extraVars_empty (m : gmap string Value) :
  bool_decide (0 < size m)%nat = negb (bool_decide (m = ∅)).
Proof.
  destruct (decide (m = ∅)) as [->|Hne].
  - by rewrite map_size_empty.
  - rewrite (bool_decide_eq_false_2 (m = ∅)) by done.
    apply bool_decide_eq_true_2. apply map_size_non_empty_iff in Hne. lia.
Qed.

Lemma skipTags_step p c :
  (if nonnil (SkipTags p)
   then c +:+ " --skip-tags=" +:+ strings_Join (SkipTags p) "," else c)
  = addFlag c (skipTagsFlag p).
Proof. unfold skipTagsFlag. by destruct (SkipTags p). Qed.

Lemma tags_step p c :
  (if nonnil (Tags p)
   then c +:+ " --tags=" +:+ strings_Join (Tags p) "," else c)
  = addFlag c (tagsFlag p).
Proof. unfold tagsFlag. by destruct (Tags p). Qed.

Lemma vault_step uploaded c :
  (if nonempty uploaded
   then c +:+ " --vault-password-file=" +:+ uploaded else c)
  = addFlag c (vaultPasswordFileFlag uploaded).
Proof. unfold vaultPasswordFileFlag. by destruct uploaded. Qed.

Lemma startAtTask_step p c :
  (if nonempty (StartAtTask p)
   then c +:+ " --start-at-task=" +:+ StartAtTask p else c)
  = addFlag c (startAtTaskFlag p).
Proof. unfold startAtTaskFlag. by destruct (StartAtTask p). Qed.

Lemma limit_step p c :
  (if nonempty (Limit p) then c +:+ " --limit=" +:+ Limit p else c)
  = addFlag c (limitFlag p).
Proof. unfold limitFlag. by destruct (Limit p). Qed.

Lemma forks_step p c :
  (if bool_decide (0 < Forks p)%Z
   then c +:+ " --forks=" +:+ itoa (Forks p) else c)
  = addFlag c (forksFlag p).
Proof.
  unfold forksFlag. destruct (decide (0 < Forks p)%Z).
  - rewrite bool_decide_eq_true_2, bool_decide_eq_false_2 by lia. done.
  - rewrite bool_decide_eq_false_2, bool_decide_eq_true_2 by lia. done.
Qed.

Lemma verbose_step p c :
  (if Verbose p then c +:+ " --verbose" else c) = addFlag c (verboseFlag p).
Proof. unfold verboseFlag. by destruct (Verbose p). Qed.

Lemma forceHandlers_step p c :
  (if ForceHandlers p then c +:+ " --force-handlers" else c)
  = addFlag c (forceHandlersFlag p).
Proof. unfold forceHandlersFlag. by destruct (ForceHandlers p). Qed.

Lemma become_step p c :
  (if Become p
   then c +:+ " --become --become-method='" +:+ BecomeMethod p
          +:+ "' --become-user='" +:+ BecomeUser p +:+ "'"
   else c)
  = fold_left addFlag (Some <$> becomeFlags p) c.
Proof.
  unfold becomeFlags. destruct (Become p); [|done].
  cbn [fmap list_fmap fold_left addFlag]. by rewrite !app_assoc_string.
Qed.

Lemma omap_id_Some (l : list string) : omap id (Some <$> l) = l.
Proof. induction l as [|x l IH]; [done|]. cbn. by rewrite IH. Qed.

(** The command line is the words of [commandWords], separated by
    single spaces. *)
Lemma commandBuilder_words (p : provisioner) (playbookFile uploaded : string) :
  commandBuilder p playbookFile uploaded
  = match extraVarsFlag p with
    | Ok extraVars =>
        Ok (String.concat " " (commandWords p playbookFile uploaded extraVars))
    | Err e => Err e
    end.
Proof.
  assert (Hwords : ∀ ev c0,
    c0 = addFlag (String.concat " " ["ansible-playbook"; playbookFile;
            "--inventory-file=" +:+ inventoryFilePath]) ev →
    String.concat " " (commandWords p playbookFile uploaded ev)
    = fold_left addFlag (Some <$> becomeFlags p)
        (fold_left addFlag
           [skipTagsFlag p; tagsFlag p; vaultPasswordFileFlag uploaded;
            startAtTaskFlag p; limitFlag p; forksFlag p; verboseFlag p;
            forceHandlersFlag p] c0)).
  { intros ev c0 ->. rewrite <- fold_left_app.
    change (fold_left addFlag ?l (addFlag ?b ev))
      with (fold_left addFlag (ev :: l) b).
    rewrite addFlags_words. unfold commandWords. f_equal.
    change (?a :: ?l ++ omap id (?e :: ?fs ++ ?bs))
      with ((a :: l) ++ omap id ((e :: fs) ++ bs)).
    by rewrite omap_app, omap_id_Some. }
  unfold commandBuilder, extraVarsFlag. rewrite extraVars_empty.
  destruct (bool_decide (ExtraVars p = ∅)); cbn [negb];
    [|destruct (json_Marshal (ExtraVars p)) as [js|e]; [|done]];
    cbv beta iota zeta;
    rewrite skipTags_step, tags_step, vault_step, startAtTask_step,
      limit_step, forks_step, verbose_step, forceHandlers_step, become_step;
    (erewrite Hwords; [reflexivity|]);
    cbn [addFlag String.concat]; rewrite !app_assoc_string; reflexivity.
Qed.

(** C1: the command line is [ansible-playbook], the playbook and the
    inventory file, followed by the flags that are present, in the order
    extra-vars, skip-tags, tags, vault-password-file, start-at-task,
    limit, forks, verbose, force-handlers, become with its method and
    user, each separated by one space; an empty, zero or false field
    gives no flag; no forks give no [--forks], five forks give
    [--forks=5]. *)
Theorem commandBuilder_flag_order (p : provisioner) (playbookFile uploaded : string) :
  commandBuilder p playbookFile uploaded
  = match extraVarsFlag p with
    | Ok extraVars =>
        Ok (String.concat " " (commandWords p playbookFile uploaded extraVars))
    | Err e => Err e
    end
  ∧ (Forks p = 0%Z → forksFlag p = None)
  ∧ (Forks p = 5%Z → forksFlag p = Some "--forks=5").
Proof.
  split; [apply commandBuilder_words|].
  split; intros Hf; unfold forksFlag; rewrite Hf; reflexivity.
Qed.

End BuilderFacts.

Lemma commandBuilder_flag_order_witness :
  @commandBuilder Sim.lib
    (mkProvisioner "site.yaml" ["web1"] ["app"] ["db"] ["slow"] "" "web" 5
       (<["env" := VString "prod"]> ∅) true false true "sudo" "root" ""
       false false false "")
    "/tmp/ansible-terraform-bootstrap/site.yaml" ""
  = Ok ("ansible-playbook /tmp/ansible-terraform-bootstrap/site.yaml"
        +:+ " --inventory-file=/tmp/ansible-terraform-bootstrap/.inventory-ansible-bootstrap/hosts"
        +:+ " --extra-vars='{" +:+ Sim.dq +:+ "env" +:+ Sim.dq +:+ ":"
        +:+ Sim.dq +:+ "prod" +:+ Sim.dq +:+ "}'"
        +:+ " --skip-tags=slow --tags=db --limit=web --forks=5 --verbose"
        +:+ " --become --become-method='sudo' --become-user='root'")
  ∧ @forksFlag
      (mkProvisioner "site.yaml" ["web1"] ["app"] ["db"] ["slow"] "" "web" 5
         (<["env" := VString "prod"]> ∅) true false true "sudo" "root" ""
         false false false "")
    = Some "--forks=5".
Proof.
  pose proof (@commandBuilder_flag_order Sim.lib
    (mkProvisioner "site.yaml" ["web1"] ["app"] ["db"] ["slow"] "" "web" 5
       (<["env" := VString "prod"]> ∅) true false true "sudo" "root" ""
       false false false "")
    "/tmp/ansible-terraform-bootstrap/site.yaml" "") as (Hc & _ & H5).
  split; [rewrite Hc; vm_compute; reflexivity|apply H5; reflexivity].
Defined.

(* ================================================================= *)
(** * Events and phases                                               *)
(* ================================================================= *)

Lemma phasesFrom_same ph evs rest :
  Forall (λ e, phase e = ph) evs →
  phasesFrom (Some ph) (evs ++ rest) = phasesFrom (Some ph) rest.
Proof.
  induction 1 as [|e evs He _ IH]; [done|].
  cbn [app phasesFrom]. by rewrite He, bool_decide_eq_true_2.
Qed.

Lemma phasesFrom_new last ph evs rest :
  evs ≠ [] → Forall (λ e, phase e = ph) evs → last ≠ Some ph →
  phasesFrom last (evs ++ rest) = ph :: phasesFrom (Some ph) rest.
Proof.
  intros Hne Hall Hlast. destruct Hall as [|e evs He Hall]; [done|].
  cbn [app phasesFrom]. rewrite He, bool_decide_eq_false_2 by done.
  f_equal. by apply phasesFrom_same.
Qed.

Lemma phasesFrom_cons_same last e rest :
  last = Some (phase e) → phasesFrom last (e :: rest) = phasesFrom last rest.
Proof. intros ->. cbn [phasesFrom]. by rewrite bool_decide_eq_true_2. Qed.

Lemma phasesFrom_cons_new last e rest :
  last ≠ Some (phase e) →
  phasesFrom last (e :: rest) = phase e :: phasesFrom (Some (phase e)) rest.
Proof. intros Hne. cbn [phasesFrom]. by rewrite bool_decide_eq_false_2. Qed.

Lemma reported_app evs1 evs2 :
  reported (evs1 ++ evs2) = reported evs1 ++ reported evs2.
Proof.
  induction evs1 as [|[ph a] evs1 IH]; [done|].
  cbn [app reported action]. rewrite IH. by destruct a.
Qed.

Lemma reported_outputs ph (lines : list string) :
  reported ((λ l, Ev ph (AOutput l)) <$> lines) = lines.
Proof. induction lines as [|l lines IH]; [done|]. cbn. by rewrite IH. Qed.

Lemma disconnects_app evs1 evs2 :
  disconnects (evs1 ++ evs2) = (disconnects evs1 + disconnects evs2)%nat.
Proof. induction evs1 as [|e evs1 IH]; [done|]. cbn. rewrite IH. lia. Qed.

Lemma disconnects_quiet evs :
  Forall (λ e, isDisconnect e = false) evs → disconnects evs = 0%nat.
Proof. induction 1 as [|e evs He _ IH]; [done|]. cbn. by rewrite He, IH. Qed.

Lemma Forall_not_in (x : Event) (l : list Event) :
  Forall (λ e, e ≠ x) l → x ∉ l.
Proof. rewrite Forall_forall. intros Hall Hin. by apply (Hall x). Qed.

(* ================================================================= *)
(** * Runs                                                            *)
(* ================================================================= *)

Section RunFacts.
Context {W : Type} `{Communicator W} `{Lib}.

Lemma always_ret {A} P (a : A) : always (W:=W) P (ret a).
Proof. intros s. constructor. Qed.

Lemma always_bind {A B} P (m : @M W A) (k : A → @M W B) :
  always P m → (∀ a, always P (k a)) → always P (bind m k).
Proof. intros Hm Hk s. cbn. apply Forall_app. split; [apply Hm|apply Hk]. Qed.

Lemma always_emit (P : Event → Prop) ph a :
  P (Ev ph a) → always (W:=W) P (emit ph a).
Proof. intros HP s. cbn. by constructor. Qed.

Lemma always_call {A} P (f : W → A * W) : always P (call f).
Proof. intros s. constructor. Qed.

Lemma always_ask {A} P (f : W → A) : always P (ask f).
Proof. intros s. constructor. Qed.

Lemma always_getNow P : always (W:=W) P getNow.
Proof. intros s. constructor. Qed.

Lemma always_sleepUntil P t : always (W:=W) P (sleepUntil t).
Proof. intros s. constructor. Qed.

Lemma always_forEach {A} P (l : list A) (body : A → @M W unit) :
  (∀ a, always P (body a)) → always P (forEach l body).
Proof.
  intros Hb. induction l as [|a l IH]; cbn [forEach].
  - apply always_ret.
  - apply always_bind; [apply Hb|intros _; apply IH].
Qed.

Lemma always_mono {A} (P Q : Event → Prop) (m : @M W A) :
  (∀ e, P e → Q e) → always P m → always Q m.
Proof. intros HPQ Hm s. eapply Forall_impl; [apply Hm|apply HPQ]. Qed.

Lemma Forall_events {A} (P Q : Event → Prop) (m : @M W A) s :
  always P m → (∀ e, P e → Q e) → Forall Q (events (m s)).
Proof. intros Hm HPQ. eapply Forall_impl; [apply Hm|apply HPQ]. Qed.

Lemma inPhase_not_in {A} ph (m : @M W A) s (x : Event) :
  always (inPhase ph) m → phase x ≠ ph → x ∉ events (m s).
Proof.
  intros Hm Hph Hin. specialize (Hm s). rewrite Forall_forall in Hm.
  by destruct (Hm x Hin).
Qed.

(** The projections of the runs of the primitives. *)
Lemma val_bind {A B} (m : @M W A) (k : A → @M W B) s :
  val (bind m k s) = val (k (val (m s)) (post (m s))).
Proof. reflexivity. Qed.
Lemma post_bind {A B} (m : @M W A) (k : A → @M W B) s :
  post (bind m k s) = post (k (val (m s)) (post (m s))).
Proof. reflexivity. Qed.
Lemma events_bind {A B} (m : @M W A) (k : A → @M W B) s :
  events (bind m k s) = events (m s) ++ events (k (val (m s)) (post (m s))).
Proof. reflexivity. Qed.
Lemma val_ret {A} (a : A) (s : @St W) : val (ret a s) = a.
Proof. reflexivity. Qed.
Lemma post_ret {A} (a : A) (s : @St W) : post (ret a s) = s.
Proof. reflexivity. Qed.
Lemma events_ret {A} (a : A) (s : @St W) : events (ret a s) = [].
Proof. reflexivity. Qed.
Lemma post_emit ph a (s : @St W) : post (emit ph a s) = s.
Proof. reflexivity. Qed.
Lemma events_emit ph a (s : @St W) : events (emit ph a s) = [Ev ph a].
Proof. reflexivity. Qed.
Lemma post_Output ph msg (s : @St W) : post (Output ph msg s) = s.
Proof. reflexivity. Qed.
Lemma events_Output ph msg (s : @St W) :
  events (Output ph msg s) = [Ev ph (AOutput msg)].
Proof. reflexivity. Qed.
Lemma val_call {A} (f : W → A * W) s : val (call f s) = (f (world s)).1.
Proof. reflexivity. Qed.
Lemma post_call {A} (f : W → A * W) s :
  post (call f s) = mkSt (f (world s)).2 (now s).
Proof. reflexivity. Qed.
Lemma events_call {A} (f : W → A * W) s : events (call f s) = [].
Proof. reflexivity. Qed.
Lemma val_ask {A} (f : W → A) s : val (ask f s) = f (world s).
Proof. reflexivity. Qed.
Lemma post_ask {A} (f : W → A) s : post (ask f s) = s.
Proof. reflexivity. Qed.
Lemma events_ask {A} (f : W → A) s : events (ask f s) = [].
Proof. reflexivity. Qed.
Lemma val_getNow (s : @St W) : val (getNow s) = now s.
Proof. reflexivity. Qed.
Lemma post_getNow (s : @St W) : post (getNow s) = s.
Proof. reflexivity. Qed.
Lemma events_getNow (s : @St W) : events (getNow s) = [].
Proof. reflexivity. Qed.
Lemma post_sleepUntil t (s : @St W) : post (sleepUntil t s) = mkSt (world s) t.
Proof. reflexivity. Qed.
Lemma events_sleepUntil t (s : @St W) : events (sleepUntil t s) = [].
Proof. reflexivity. Qed.
Lemma events_Connect (s : @St W) :
  events (Connect s) = [Ev Connecting (AConnect (val (Connect s)))].
Proof. reflexivity. Qed.

End RunFacts.

Create Rewrite HintDb run.
#[export] Hint Rewrite @val_getNow @post_getNow @events_getNow @post_sleepUntil
  @events_sleepUntil @events_Connect : run.
#[export] Hint Rewrite @val_bind @post_bind @events_bind @val_ret @post_ret
  @events_ret @post_emit @events_emit @post_Output @events_Output
  @val_call @post_call @events_call @val_ask @post_ask @events_ask : run.

Ltac run_simpl :=
  repeat progress (autorewrite with run; cbn [world now fst snd forEach app]).

Ltac in_events :=
  repeat (rewrite elem_of_cons || rewrite elem_of_app || rewrite elem_of_nil);
  intuition congruence.

Ltac always_step :=
  first
    [ apply always_ret
    | apply always_call
    | apply always_ask
    | apply always_getNow
    | apply always_sleepUntil
    | apply always_emit; first [done | by split]
    | apply always_forEach; intros ?
    | apply always_bind; [|intros ?]
    | match goal with
      | |- always _ (match ?x with _ => _ end) => destruct x
      | |- always _ (let _ := ?x in _) => cbv zeta
      end ].

Ltac always_tac := repeat always_step.

(* ================================================================= *)
(** * retryFunc                                                       *)
(* ================================================================= *)

Section RetryFacts.
Context {W : Type} `{Communicator W} `{Lib}.

Lemma endsWithCall_prefix ph (f : @M W (option error)) r r' s' pre :
  endsWithCall ph f r s' →
  val r' = val r → post r' = post r → events r' = pre ++ events r →
  endsWithCall ph f r' s'.
Proof.
  unfold endsWithCall. intros Hr Hv Hp He. rewrite Hv, Hp, He.
  destruct (val (f s')); destruct Hr as (? & ? & pre' & ->);
    (split; [done|split; [done|]]); exists (pre ++ pre');
    by rewrite <- !app_assoc.
Qed.

Lemma retryLoop_ends ph finish (f : @M W (option error)) :
  (∀ s, (now s ≤ now (post (f s)))%Z) →
  ∀ fuel s,
    (1 ≤ fuel)%nat →
    (finish - now s ≤ (Z.of_nat fuel - 1) * retryInterval)%Z →
    ∃ s', endsWithCall ph f (retryLoop fuel ph finish f s) s'.
Proof.
  intros Hmono fuel. induction fuel as [|fuel IH]; intros s Hfuel Hbound; [lia|].
  pose proof (Hmono s) as Hs.
  cbn [retryLoop]. unfold bind at 1. cbv zeta.
  destruct (f s) as [v s1 e1] eqn:Ef. cbn [val post events] in *.
  destruct v as [e|].
  - unfold bind, emit, getNow, sleepUntil, ask, ret.
    cbn [val post events world now].
    rewrite Nat2Z.inj_succ in Hbound.
    repeat case_bool_decide.
    + exists s. unfold endsWithCall. rewrite Ef. cbn [val post events world now].
      split; [done|split; [done|]]. exists [].
      by rewrite ?app_nil_r, <- ?app_assoc.
    + exists s. unfold endsWithCall. rewrite Ef. cbn [val post events world now].
      split; [done|split; [done|]]. exists [].
      by rewrite ?app_nil_r, <- ?app_assoc.
    + destruct (select_tie (world s1)).
      * exists s. unfold endsWithCall. rewrite Ef. cbn [val post events world now].
        split; [done|split; [done|]]. exists [].
        by rewrite ?app_nil_r, <- ?app_assoc.
      * destruct (IH (mkSt (world s1) finish)) as [s' Hs'];
          cbn [val post events world now].
        { lia. }
        { (unfold retryInterval in *; lia). }
        exists s'.
        apply (endsWithCall_prefix _ _ _ _ _
                 (e1 ++ [Ev ph (ALog ("Retryable error: " +:+ e))]) Hs');
          [reflexivity..|].
        cbn [val post events world now app]. by rewrite <- app_assoc.
    + destruct (IH (mkSt (world s1) (now s1 + retryInterval))) as [s' Hs'];
        cbn [val post events world now].
      { unfold retryInterval in *; lia. }
      { unfold retryInterval in *; lia. }
      exists s'.
      apply (endsWithCall_prefix _ _ _ _ _
               (e1 ++ [Ev ph (ALog ("Retryable error: " +:+ e))]) Hs');
        [reflexivity..|].
      cbn [val post events world now app]. by rewrite <- app_assoc.
  - exists s. unfold endsWithCall, ret. rewrite Ef. cbn [val post events world now].
    split; [done|split; [done|]]. exists [].
    by rewrite ?app_nil_r, <- ?app_assoc.
Qed.

Lemma retryFuel_enough timeout :
  (1 ≤ retryFuel timeout)%nat
  ∧ (timeout ≤ (Z.of_nat (retryFuel timeout) - 1) * retryInterval)%Z.
Proof.
  unfold retryFuel. split; [lia|].
  assert (Hint : (0 < retryInterval)%Z) by (unfold retryInterval; lia).
  generalize dependent retryInterval. intros I HI.
  replace (Z.of_nat (Z.to_nat (timeout / I) + 2) - 1)%Z
    with (Z.succ (Z.of_nat (Z.to_nat (timeout / I)))) by lia.
  destruct (Z.le_gt_cases 0 timeout) as [Hpos|Hneg].
  - rewrite Z2Nat.id by (apply Z.div_pos; lia).
    pose proof (Z.mul_succ_div_gt timeout I HI). lia.
  - assert (0 ≤ Z.succ (Z.of_nat (Z.to_nat (timeout / I))) * I)%Z
      by (apply Z.mul_nonneg_nonneg; lia).
    lia.
Qed.

(** The loop ends, and it ends with an invocation of [f]. *)
Lemma retryFunc_ends ph timeout (f : @M W (option error)) s :
  (∀ s, (now s ≤ now (post (f s)))%Z) →
  ∃ s', endsWithCall ph f (retryFunc ph timeout f s) s'.
Proof.
  intros Hmono. unfold retryFunc, bind, getNow. cbn [val post events].
  destruct (retryFuel_enough timeout) as [H1 H2].
  destruct (retryLoop_ends ph (now s + timeout) f Hmono (retryFuel timeout) s)
    as [s' Hs']; [done|lia|].
  exists s'. by apply (endsWithCall_prefix _ _ _ _ _ [] Hs').
Qed.

Lemma retryLoop_retried ph finish (f : @M W (option error)) :
  (∀ s, (now s ≤ now (post (f s)))%Z) →
  ∀ fuel s,
    (1 ≤ fuel)%nat →
    (finish - now s ≤ (Z.of_nat fuel - 1) * retryInterval)%Z →
    ∃ result,
      val (retryLoop fuel ph finish f s) = Some result
      ∧ retried ph finish f s (events (retryLoop fuel ph finish f s)) result
          (post (retryLoop fuel ph finish f s)).
Proof.
  intros Hmono fuel. induction fuel as [|fuel IH]; intros s Hfuel Hbound; [lia|].
  pose proof (Hmono s) as Hs.
  cbn [retryLoop]. run_simpl.
  destruct (val (f s)) as [e|] eqn:Ef; run_simpl.
  2:{ exists None. split; [done|]. rewrite app_nil_r. by constructor. }
  rewrite Nat2Z.inj_succ in Hbound.
  repeat case_bool_decide; run_simpl.
  - exists (Some e). split; [done|].
    apply retried_timeout; [done|unfold retryInterval; lia|done|lia].
  - exists (Some e). split; [done|].
    apply retried_timeout; [done|lia|done|cbn; lia].
  - destruct (select_tie (world (post (f s)))) eqn:Htie; run_simpl.
    + exists (Some e). split; [done|].
      apply retried_timeout; [done|by right|done|cbn; lia].
    + match goal with
      | |- context [retryLoop fuel ph finish f ?s1] =>
          destruct (IH s1) as (result & Hval & Hret)
      end.
      { cbn. unfold retryInterval in *. lia. }
      { cbn. unfold retryInterval in *. lia. }
      exists result. split; [exact Hval|].
      eapply retried_again; [done|by right|].
      match goal with Hf : finish = _ |- _ => rewrite <- Hf end. exact Hret.
  - match goal with
    | |- context [retryLoop fuel ph finish f ?s1] =>
        destruct (IH s1) as (result & Hval & Hret)
    end.
    { cbn. unfold retryInterval in *. lia. }
    { cbn. unfold retryInterval in *. lia. }
    exists result. split; [exact Hval|].
    eapply retried_again; [done|left; lia|exact Hret].
Qed.

(** The run of [retryFunc] is a run of its loop, to the end. *)
Lemma retryFunc_retried ph timeout (f : @M W (option error)) s :
  (∀ s, (now s ≤ now (post (f s)))%Z) →
  ∃ result,
    val (retryFunc ph timeout f s) = Some result
    ∧ retried ph (now s + timeout) f s (events (retryFunc ph timeout f s))
        result (post (retryFunc ph timeout f s)).
Proof.
  intros Hmono. unfold retryFunc. run_simpl.
  destruct (retryFuel_enough timeout) as [H1 H2].
  apply retryLoop_retried; [done|done|lia].
Qed.

(** A first call of [f] that succeeds is all [retryFunc] does. *)
Lemma retryFunc_immediate ph timeout (f : @M W (option error)) s :
  val (f s) = None →
  val (retryFunc ph timeout f s) = Some None
  ∧ events (retryFunc ph timeout f s) = events (f s)
  ∧ post (retryFunc ph timeout f s) = post (f s).
Proof.
  unfold retryFunc, retryFuel. rewrite Nat.add_comm. cbn [Nat.add retryLoop].
  run_simpl. intros ->. run_simpl. by rewrite app_nil_r.
Qed.

(** C2: when time does not run backwards during [f], [retryFunc]
    returns, and its run is a sequence of calls of [f], the first in the
    state [retryFunc] was called in: a call that succeeds ends the run
    at once with nil, with nothing after it; a call that fails is
    followed by the log line of its error, and then either by the return
    of that error, when the timeout fires within the retry interval, or
    by the next call, one interval later.  So the error returned is the
    error of the last call, a first call that succeeds is the whole run,
    and with an [f] that fails on every call the result is an error [f]
    produced. *)
Theorem retryFunc_returns_last_error ph timeout (f : @M W (option error)) s :
  (∀ s, (now s ≤ now (post (f s)))%Z) →
  let r := retryFunc ph timeout f s in
  (∃ result,
     val r = Some result
     ∧ retried ph (now s + timeout) f s (events r) result (post r))
  ∧ (val (f s) = None →
     val r = Some None ∧ events r = events (f s) ∧ post r = post (f s))
  ∧ (∃ s', endsWithCall ph f r s')
  ∧ ((∀ s, val (f s) ≠ None) →
     ∃ s' e, val (f s') = Some e ∧ val r = Some (Some e)).
Proof.
  intros Hmono. cbv zeta.
  split; [by apply retryFunc_retried|].
  split; [apply retryFunc_immediate|].
  destruct (retryFunc_ends ph timeout f s Hmono) as [s' Hs'].
  split; [by exists s'|]. intros Hfail. specialize (Hfail s').
  unfold endsWithCall in Hs'. destruct (val (f s')) as [e|] eqn:Ef; [|done].
  exists s', e. split; [done|apply Hs'].
Qed.

Lemma Connect_monotone (s : @St W) : (now s ≤ now (post (Connect s)))%Z.
Proof. unfold Connect. cbn. lia. Qed.

End RetryFacts.

Lemma retryFunc_returns_last_error_witness :
  (∃ s' e,
     val (@Connect _ Sim.refusing s') = Some e
     ∧ val (@retryFunc _ Sim.refusing Connecting 5000000000
              (@Connect _ Sim.refusing) (Sim.start Sim.unreachable))
       = Some (Some e))
  ∧ val (@retryFunc _ Sim.communicator Connecting 300000000000
           (@Connect _ Sim.communicator) (Sim.start Sim.calm))
    = Some None
  ∧ events (@retryFunc _ Sim.communicator Connecting 300000000000
              (@Connect _ Sim.communicator) (Sim.start Sim.calm))
    = events (@Connect _ Sim.communicator (Sim.start Sim.calm)).
Proof.
  split.
  - destruct (@retryFunc_returns_last_error _ Sim.refusing Connecting
                5000000000 (@Connect _ Sim.refusing)
                (Sim.start Sim.unreachable)) as (_ & _ & _ & Hfails).
    + intros s. unfold Connect. cbn [post now]. lia.
    + apply Hfails. intros s. unfold Connect. cbn. discriminate.
  - destruct (@retryFunc_returns_last_error _ Sim.communicator Connecting
                300000000000 (@Connect _ Sim.communicator)
                (Sim.start Sim.calm)) as (_ & Hfirst & _).
    + intros s. unfold Connect. cbn [post now]. lia.
    + destruct Hfirst as (Hval & Hev & _); [reflexivity|].
      split; [exact Hval|exact Hev].
Defined.

(* ================================================================= *)
(** * runCommand                                                      *)
(* ================================================================= *)

Section CommandFacts.
Context {W : Type} `{Communicator W} `{Lib}.

Lemma forEach_Output_events ph (lines : list string) (s : @St W) :
  events (forEach lines (Output ph) s) = (λ l, Ev ph (AOutput l)) <$> lines
  ∧ post (forEach lines (Output ph) s) = s.
Proof.
  induction lines as [|l lines [IHe IHp]]; [done|].
  cbn [forEach]. run_simpl. rewrite IHe, IHp. done.
Qed.

(** The result of [runCommand], by the answers of the collaborators. *)
Lemma runCommand_val ph p command s :
  let cmd := if useSudo p then "sudo " +:+ command else command in
  val (runCommand ph p command s)
  = match comm_Start cmd (world s) with
    | (Some e, _) => Some (errExecuting cmd e)
    | (None, w1) =>
        if bool_decide ((cmd_Wait w1).1.1.1 ≠ 0%Z)
        then Some (errExitStatus cmd (cmd_Wait w1).1.1.1) else None
    end.
Proof.
  cbv zeta. unfold runCommand. run_simpl.
  destruct (comm_Start _ (world s)) as [[e|] w1]; run_simpl; [done|].
  destruct (cmd_Wait w1) as [[[status early] late] w2] eqn:Ew.
  rewrite ?Ew. run_simpl. rewrite ?Ew. run_simpl. done.
Qed.

(** The events of [runCommand], by the answers of the collaborators. *)
Lemma runCommand_events ph p command s :
  let cmd := if useSudo p then "sudo " +:+ command else command in
  events (runCommand ph p command s)
  = match comm_Start cmd (world s) with
    | (Some e, _) => [Ev ph (AStart cmd (Some e))]
    | (None, w1) =>
        Ev ph (AStart cmd None)
        :: ((λ l, Ev ph (AOutput l)) <$> (cmd_Wait w1).1.1.2)
        ++ Ev ph (AWait (cmd_Wait w1).1.1.1)
        :: ((λ l, Ev ph (AOutput l)) <$> (cmd_Wait w1).1.2)
    end.
Proof.
  cbv zeta. unfold runCommand. run_simpl.
  destruct (comm_Start _ (world s)) as [[e|] w1]; run_simpl; [done|].
  destruct (cmd_Wait w1) as [[[status early] late] w2] eqn:Ew.
  rewrite ?Ew. run_simpl. rewrite ?Ew. run_simpl.
  destruct (forEach_Output_events ph early (mkSt w2 (now s))) as [-> ->].
  destruct (forEach_Output_events ph late (mkSt w2 (now s))) as [-> _].
  by rewrite app_nil_r.
Qed.

(** The state [runCommand] leaves. *)
Lemma runCommand_post ph p command s :
  let cmd := if useSudo p then "sudo " +:+ command else command in
  post (runCommand ph p command s)
  = match comm_Start cmd (world s) with
    | (Some e, w1) => mkSt w1 (now s)
    | (None, w1) => mkSt (cmd_Wait w1).2 (now s)
    end.
Proof.
  cbv zeta. unfold runCommand. run_simpl.
  destruct (comm_Start _ (world s)) as [[e|] w1]; run_simpl; [done|].
  destruct (cmd_Wait w1) as [[[status early] late] w2] eqn:Ew.
  rewrite ?Ew. run_simpl. rewrite ?Ew. run_simpl.
  destruct (forEach_Output_events ph early (mkSt w2 (now s))) as [_ ->].
  by destruct (forEach_Output_events ph late (mkSt w2 (now s))) as [_ ->].
Qed.


Lemma runCommand_wait_zero ph p command s :
  Ev ph (AWait 0) ∈ events (runCommand ph p command s) →
  val (runCommand ph p command s) = None.
Proof.
  rewrite runCommand_events, runCommand_val. cbv zeta.
  destruct (comm_Start _ (world s)) as [[e|] w1].
  - rewrite list_elem_of_singleton. intros [=].
  - rewrite elem_of_cons, elem_of_app, elem_of_cons, !list_elem_of_fmap.
    intros [[=]|[(l & [=] & _)|[[= Hst]|(l & [=] & _)]]].
    by rewrite <- Hst.
Qed.

Lemma runCommand_no_wait_zero ph p command s :
  val (runCommand ph p command s) ≠ None →
  Forall (λ e, e ≠ Ev ph (AWait 0)) (events (runCommand ph p command s)).
Proof.
  intros Hval. apply Forall_forall. intros e Hin ->.
  by apply Hval, runCommand_wait_zero.
Qed.

End CommandFacts.


(* ================================================================= *)
(** * The phases of the steps                                         *)
(* ================================================================= *)

Section PhaseFacts.
Context {W : Type} `{Communicator W} `{Lib}.

Lemma runCommand_inPhase ph p command :
  always (inPhase ph) (runCommand ph p command).
Proof. unfold runCommand, Output. always_tac. Qed.

Lemma resolvePath_inPhase ph path :
  always (W:=W) (inPhase ph) (resolvePath ph path).
Proof. unfold resolvePath, Output. always_tac. Qed.

Lemma uploadVaultPasswordFile_inPhase p path :
  always (inPhase UploadingArtifacts) (uploadVaultPasswordFile p path).
Proof.
  unfold uploadVaultPasswordFile, Output. always_tac; try apply runCommand_inPhase.
Qed.

Lemma uploadInventory_inPhase p :
  always (inPhase UploadingArtifacts) (uploadInventory p).
Proof.
  unfold uploadInventory, Output. always_tac; try apply runCommand_inPhase.
Qed.

Lemma cleanupAfterBootstrap_inPhase p :
  always (inPhase CleaningUp) (cleanupAfterBootstrap p).
Proof.
  unfold cleanupAfterBootstrap, Output. always_tac; try apply runCommand_inPhase.
Qed.

Lemma installAnsible_inPhase p : always (inPhase Installing) (installAnsible p).
Proof.
  unfold installAnsible, Output. always_tac; try apply runCommand_inPhase.
Qed.

Lemma resolvePath_nonempty ph path (s : @St W) :
  events (resolvePath ph path s) ≠ [].
Proof. unfold resolvePath. run_simpl. done. Qed.

Lemma uploadInventory_nonempty p s : events (uploadInventory p s) ≠ [].
Proof. unfold uploadInventory. run_simpl. done. Qed.

Lemma cleanupAfterBootstrap_nonempty p s :
  events (cleanupAfterBootstrap p s) ≠ [].
Proof. unfold cleanupAfterBootstrap. run_simpl. done. Qed.

(** ** The connection attempts *)

Lemma retryLoop_always (P : Event → Prop) fuel ph finish (f : @M W (option error)) :
  always P f → (∀ msg, P (Ev ph (ALog msg))) →
  always P (retryLoop fuel ph finish f).
Proof.
  intros Hf Hlog. induction fuel as [|fuel IH]; cbn [retryLoop].
  - apply always_ret.
  - apply always_bind; [done|]. intros [e|]; [|apply always_ret].
    apply always_bind; [by apply always_emit|]. intros _.
    apply always_bind; [apply always_getNow|]. intros t.
    repeat case_bool_decide; always_tac; done.
Qed.

Lemma Connect_inPhase : always (inPhase Connecting) Connect.
Proof. intros s. unfold Connect. cbn. by repeat constructor. Qed.

Lemma retryFunc_Connect_inPhase timeout :
  always (inPhase Connecting) (retryFunc Connecting timeout Connect).
Proof.
  unfold retryFunc. apply always_bind; [apply always_getNow|]. intros t.
  apply retryLoop_always; [apply Connect_inPhase|done].
Qed.

Lemma retryLoop_connected fuel finish s :
  connected (events (retryLoop fuel Connecting finish Connect s))
  ↔ val (retryLoop fuel Connecting finish Connect s) = Some None.
Proof.
  unfold connected. revert s. induction fuel as [|fuel IH]; intros s.
  - cbn. rewrite elem_of_nil. split; [done|intros [=]].
  - cbn [retryLoop]. run_simpl.
    destruct (val (Connect s)) as [e|] eqn:EC; run_simpl.
    + repeat case_bool_decide; run_simpl;
        try (rewrite !elem_of_cons, elem_of_nil;
             split; [intros [[=]|[[=]|[]]]|intros [=]]).
      * destruct (select_tie _); run_simpl.
        -- rewrite !elem_of_cons, elem_of_nil.
           split; [intros [[=]|[[=]|[]]]|intros [=]].
        -- rewrite !elem_of_cons, <- IH. split; [intros [[=]|[[=]|?]]|]; auto.
      * rewrite !elem_of_cons, <- IH. split; [intros [[=]|[[=]|?]]|]; auto.
    + split; [done|intros _; apply list_elem_of_here].
Qed.

(** A connection was established exactly when the retries end with
    nil. *)
Lemma retryFunc_connected timeout s :
  connected (events (retryFunc Connecting timeout Connect s))
  ↔ val (retryFunc Connecting timeout Connect s) = Some None.
Proof. unfold retryFunc. run_simpl. apply retryLoop_connected. Qed.

Lemma retryFunc_Connect_returns timeout s :
  val (retryFunc Connecting timeout Connect s) ≠ None.
Proof.
  destruct (retryFunc_ends Connecting timeout Connect s Connect_monotone)
    as [s' Hs'].
  unfold endsWithCall in Hs'. destruct (val (Connect s')); by destruct Hs' as [-> _].
Qed.

End PhaseFacts.

(** The events of a step of the workflow are those of its phase. *)
Ltac segment :=
  lazymatch goal with
  | |- Forall _ (events (runCommand _ _ _ _)) =>
      eapply Forall_events; [apply runCommand_inPhase|]
  | |- Forall _ (events (resolvePath _ _ _)) =>
      eapply Forall_events; [apply resolvePath_inPhase|]
  | |- Forall _ (events (uploadVaultPasswordFile _ _ _)) =>
      eapply Forall_events; [apply uploadVaultPasswordFile_inPhase|]
  | |- Forall _ (events (uploadInventory _ _)) =>
      eapply Forall_events; [apply uploadInventory_inPhase|]
  | |- Forall _ (events (cleanupAfterBootstrap _ _)) =>
      eapply Forall_events; [apply cleanupAfterBootstrap_inPhase|]
  | |- Forall _ (events (installAnsible _ _)) =>
      eapply Forall_events; [apply installAnsible_inPhase|]
  | |- Forall _ (events (retryFunc Connecting _ Connect _)) =>
      eapply Forall_events; [apply retryFunc_Connect_inPhase|]
  end.

Ltac quiet_call :=
  eapply always_mono;
    [|first [ apply runCommand_inPhase | apply resolvePath_inPhase
            | apply uploadVaultPasswordFile_inPhase
            | apply uploadInventory_inPhase
            | apply cleanupAfterBootstrap_inPhase
            | apply installAnsible_inPhase ]];
    by intros ? [? ?].

(** No event of the list is [x]: the events of another phase, and those
    of a command that did not end with status zero. *)
Ltac other_phase :=
  lazymatch goal with
  | |- Forall _ [] => apply List.Forall_nil
  | |- Forall _ (_ :: _) => apply List.Forall_cons; [discriminate|]
  | |- Forall _ (_ ++ _) => apply Forall_app; split
  | H : val (runCommand ?ph ?p ?c ?s) = Some _
    |- Forall _ (events (runCommand ?ph ?p ?c ?s)) =>
      apply runCommand_no_wait_zero; rewrite H; discriminate
  | |- _ => segment; intros ? [? ?] ->; discriminate
  end.

(* ================================================================= *)
(** * The uploads                                                     *)
(* ================================================================= *)

Section UploadFacts.
Context {W : Type} `{Communicator W} `{Lib}.

(** What [runCommand] reports: the lines of the two relays. *)
Lemma runCommand_relayed ph p command s :
  let cmd := if useSudo p then "sudo " +:+ command else command in
  reported (events (runCommand ph p command s))
  = match comm_Start cmd (world s) with
    | (Some _, _) => []
    | (None, w1) => (cmd_Wait w1).1.1.2 ++ (cmd_Wait w1).1.2
    end.
Proof.
  rewrite runCommand_events. cbv zeta.
  destruct (comm_Start _ (world s)) as [[e|] w1]; [done|].
  cbn [reported action]. rewrite reported_app. cbn [reported action].
  by rewrite !reported_outputs.
Qed.

End UploadFacts.

Ltac report_simpl :=
  repeat first
    [ rewrite reported_app
    | rewrite runCommand_relayed
    | rewrite <- app_assoc
    | progress cbn [reported action app]
    | progress cbv zeta ].

Section PreparationFacts.
Context {W : Type} `{Communicator W} `{Lib}.

(** C10: whatever the two preparation commands answer, the upload that
    follows them is attempted, in the state they leave, and the result
    of [uploadInventory] and of [uploadVaultPasswordFile] is the answer
    of that upload (for the vault file, after the local file was
    opened), and the collaborators are left as that upload leaves them:
    the results of the preparation commands are not part of it.  Their
    errors are not reported either: what the two functions report is
    their own fixed lines and, between them, the lines the preparation
    commands print, whether the commands fail or not. *)
Theorem preparation_errors_discarded p path s :
  let prep c st := runCommand UploadingArtifacts p c st in
  let printed c st :=
    match
      comm_Start (if useSudo p then "sudo " +:+ c else c) (world st)
    with
    | (Some _, _) => []
    | (None, w1) => (cmd_Wait w1).1.1.2 ++ (cmd_Wait w1).1.2
    end in
  (let dir := filepath_Dir inventoryFilePath in
   let s1 := post (prep ("mkdir -p " +:+ dir) s) in
   let s2 := post (prep ("chmod 0777 " +:+ dir) s1) in
   let text := inventoryText (Hosts p) (Groups p) in
   let answer := (comm_Upload inventoryFilePath text (world s2)).1 in
   val (uploadInventory p s) = answer
   ∧ world (post (uploadInventory p s))
     = (comm_Upload inventoryFilePath text (world s2)).2
   ∧ Ev UploadingArtifacts (AUpload inventoryFilePath text answer)
       ∈ events (uploadInventory p s)
   ∧ reported (events (uploadInventory p s))
     = "Generating ansible inventory..."
       :: printed ("mkdir -p " +:+ dir) s
       ++ printed ("chmod 0777 " +:+ dir) s1
       ++ ("Uploading ansible inventory to " +:+ inventoryFilePath +:+ "...")
       :: (if answer is None then ["Ansible inventory uploaded."] else []))
  ∧
  (let target :=
     filepath_Join
       [bootstrapDirectory; ".vault-ansible-bootstrap"; filepath_Base path] in
   let dir := filepath_Dir target in
   let s1 := post (prep ("mkdir -p " +:+ dir) s) in
   let s2 := post (prep ("chmod 0777 " +:+ dir) s1) in
   reported (events (uploadVaultPasswordFile p path s))
   = printed ("mkdir -p " +:+ dir) s
     ++ printed ("chmod 0777 " +:+ dir) s1
     ++ ("Uploading ansible vault password file to '" +:+ target +:+ "'...")
     :: match os_Open path (world s2) with
        | Ok content =>
            if (comm_Upload target content (world s2)).1 is None
            then ["Ansible vault password file uploaded."] else []
        | Err _ => []
        end
   ∧ match os_Open path (world s2) with
     | Ok content =>
         let answer := (comm_Upload target content (world s2)).1 in
         val (uploadVaultPasswordFile p path s)
         = match answer with Some e => Err e | None => Ok target end
         ∧ world (post (uploadVaultPasswordFile p path s))
           = (comm_Upload target content (world s2)).2
         ∧ Ev UploadingArtifacts (AUpload target content answer)
             ∈ events (uploadVaultPasswordFile p path s)
     | Err e =>
         val (uploadVaultPasswordFile p path s) = Err e
         ∧ post (uploadVaultPasswordFile p path s) = s2
     end).
Proof.
  cbv zeta. split.
  - unfold uploadInventory. rewrite renderInventory_text. cbv zeta.
    run_simpl.
    set (s1 := post (runCommand _ _ _ s)).
    set (s2 := post (runCommand _ _ _ s1)).
    destruct (comm_Upload _ _ (world s2)) as [[e|] w']; run_simpl;
      (split; [done|]); (split; [done|]); (split; [in_events|]);
      report_simpl; reflexivity.
  - unfold uploadVaultPasswordFile. cbv zeta. run_simpl.
    set (s1 := post (runCommand _ _ _ s)).
    set (s2 := post (runCommand _ _ _ s1)).
    destruct (os_Open path (world s2)) as [content|e]; run_simpl.
    + destruct (comm_Upload _ _ (world s2)) as [[e|] w']; run_simpl;
        (split; [report_simpl; reflexivity|]); (split; [done|]);
        (split; [done|]); in_events.
    + split; [|done]. report_simpl. reflexivity.
Qed.

End PreparationFacts.


(* ================================================================= *)
(** * The workflow                                                    *)
(* ================================================================= *)

Section WorkflowFacts.
Context {W : Type} `{Communicator W} `{Lib}.

(** ** The provisioning steps never disconnect *)

Lemma deployAnsibleModule_quiet p :
  always (λ e, isDisconnect e = false) (deployAnsibleModule p).
Proof.
  unfold deployAnsibleModule, Output.
  repeat first [always_step | quiet_call].
Qed.

Lemma provision_quiet p : always (λ e, isDisconnect e = false) (provision p).
Proof.
  unfold provision, Output.
  repeat first [always_step | apply deployAnsibleModule_quiet | quiet_call].
Qed.

(** ** A finished command and the result of the workflow *)

Lemma deployAnsibleModule_wait_zero p s :
  Ev Running (AWait 0) ∈ events (deployAnsibleModule p s) →
  val (deployAnsibleModule p s) = None.
Proof.
  unfold deployAnsibleModule. cbv zeta. run_simpl.
  repeat (case_match; run_simpl).
  all: intros Hin; try done; exfalso; revert Hin.
  all: apply Forall_not_in; repeat other_phase.
Qed.

Lemma provision_wait_zero p s :
  Ev Running (AWait 0) ∈ events (provision p s) → val (provision p s) = None.
Proof.
  unfold provision. run_simpl.
  destruct (skipInstall p); run_simpl.
  - destruct (val (deployAnsibleModule p s)) as [e|] eqn:Ed; run_simpl; [|done].
    rewrite elem_of_app, list_elem_of_singleton.
    intros [Hin|[=]]. apply deployAnsibleModule_wait_zero in Hin. congruence.
  - destruct (val (installAnsible p s)) as [e|] eqn:Ei; run_simpl.
    + rewrite app_nil_r. intros Hin.
      by eapply inPhase_not_in in Hin; [|apply installAnsible_inPhase|].
    + destruct (val (deployAnsibleModule p _)) as [e|] eqn:Ed; run_simpl; [|done].
      rewrite !elem_of_app, list_elem_of_singleton.
      intros [Hin|[Hin|[=]]].
      * by eapply inPhase_not_in in Hin; [|apply installAnsible_inPhase|].
      * apply deployAnsibleModule_wait_zero in Hin. congruence.
Qed.

(** When the playbook command ends with status zero, the workflow
    returns nil. *)
Lemma applyFn_wait_zero d s :
  Ev Running (AWait 0) ∈ events (applyFn d s) → val (applyFn d s) = Some None.
Proof.
  unfold applyFn.
  destruct (decodeConfig d) as [[p [e|]]|]; run_simpl;
    [intros []%elem_of_nil| |intros []%elem_of_nil].
  destruct (communicator_New (world s)) as [[e|] w0]; run_simpl.
  { rewrite list_elem_of_singleton. intros [=]. }
  match goal with
  | |- context [retryFunc Connecting ?t Connect ?s0] =>
      pose proof (retryFunc_Connect_inPhase t s0) as Hph;
      destruct (val (retryFunc Connecting t Connect s0)) as [[e|]|] eqn:Eret
  end; run_simpl.
  - rewrite elem_of_cons, app_nil_r. intros [[=]|Hin].
    by eapply inPhase_not_in in Hin; [|apply retryFunc_Connect_inPhase|].
  - rewrite elem_of_cons, !elem_of_app, list_elem_of_singleton.
    intros [[=]|[Hin|[Hin|Hin]]].
    + by eapply inPhase_not_in in Hin; [|apply retryFunc_Connect_inPhase|].
    + apply provision_wait_zero in Hin. by rewrite Hin.
    + by destruct (val (provision p _)).
  - rewrite elem_of_cons, app_nil_r. intros [[=]|Hin].
    by eapply inPhase_not_in in Hin; [|apply retryFunc_Connect_inPhase|].
Qed.

(** What the cleanup reports: its two fixed lines, and between them the
    lines the removal command prints. *)
Lemma cleanupAfterBootstrap_reported p s :
  let cmd :=
    if useSudo p then "sudo " +:+ "rm -rf " +:+ filepath_Dir bootstrapDirectory
    else "rm -rf " +:+ filepath_Dir bootstrapDirectory in
  reported (events (cleanupAfterBootstrap p s))
  = "Cleaning up after bootstrap..."
    :: match comm_Start cmd (world s) with
       | (Some _, _) => []
       | (None, w1) => (cmd_Wait w1).1.1.2 ++ (cmd_Wait w1).1.2
       end
    ++ ["Cleanup complete."].
Proof.
  cbv zeta. unfold cleanupAfterBootstrap. run_simpl.
  rewrite runCommand_events. cbv zeta. cbn [reported action]. f_equal.
  rewrite reported_app. f_equal.
  destruct (comm_Start _ (world s)) as [[e|] w1]; [done|].
  cbn [reported action].
  by rewrite reported_app, reported_outputs; cbn [reported action];
    rewrite reported_outputs.
Qed.

(** A run of [applyFn], by its events: when it established the
    connection it returns, and the disconnection is its last event and
    its only one; when it did not, none of its events is one. *)
Lemma applyFn_disconnect_event d s :
  let r := applyFn d s in
  (connected (events r) →
   disconnects (events r) = 1%nat
   ∧ (∃ pre ph, events r = pre ++ [Ev ph ADisconnect])
   ∧ ∃ err, val r = Some err)
  ∧ (¬ connected (events r) → disconnects (events r) = 0%nat).
Proof.
  cbv zeta. unfold applyFn.
  destruct (decodeConfig d) as [[p [e|]]|]; run_simpl;
    [split; [intros []%elem_of_nil|done]| |split; [intros []%elem_of_nil|done]].
  destruct (communicator_New (world s)) as [[e|] w0]; run_simpl.
  { split; [|done]. unfold connected. rewrite list_elem_of_singleton. intros [=]. }
  match goal with
  | |- context [retryFunc Connecting ?t Connect ?s0] =>
      pose proof (retryFunc_connected t s0) as Hconn;
      pose proof (retryFunc_Connect_returns t s0) as Hret;
      pose proof (retryFunc_Connect_inPhase t s0) as Hph;
      destruct (val (retryFunc Connecting t Connect s0))
        as [[e|]|] eqn:Eret
  end; [| |done]; run_simpl.
  - match goal with |- (connected ?l → _) ∧ _ => assert (Hno : ¬ connected l) end.
    { unfold connected in *.
      rewrite ?elem_of_cons, ?elem_of_app, ?elem_of_nil.
      intros [[=]|[Hin|[]]]. apply Hconn in Hin. done. }
    split; [done|]. intros _. cbn [disconnects isDisconnect action].
    rewrite disconnects_app, disconnects_quiet; [done|].
    eapply Forall_impl; [exact Hph|]. by intros ? [? ?].
  - split; [|intros Hno; exfalso; apply Hno; unfold connected in *;
              rewrite elem_of_cons, elem_of_app; right; left; by apply Hconn].
    intros _. split; [|split].
    + cbn [disconnects isDisconnect action]. rewrite !disconnects_app.
      rewrite (disconnects_quiet (events (retryFunc _ _ _ _))), disconnects_quiet.
      * by destruct (val (provision p _)).
      * apply provision_quiet.
      * eapply Forall_impl; [exact Hph|]. by intros ? [? ?].
    + match goal with
      | |- ∃ pre ph, ?a :: ?l1 ++ ?l2 ++ [Ev ?ph0 ADisconnect] = _ =>
          exists (a :: l1 ++ l2), ph0; cbn [app]; by rewrite <- app_assoc
      end.
    + by eexists.
Qed.

End WorkflowFacts.

(* ================================================================= *)
(** * What a run submits and uploads                                  *)
(* ================================================================= *)

Lemma commands_app evs1 evs2 :
  commands (evs1 ++ evs2) = commands evs1 ++ commands evs2.
Proof.
  induction evs1 as [|[ph a] evs1 IH]; [done|].
  cbn [app commands action]. rewrite IH. by destruct a.
Qed.

Lemma uploads_app evs1 evs2 :
  uploads (evs1 ++ evs2) = uploads evs1 ++ uploads evs2.
Proof.
  induction evs1 as [|[ph a] evs1 IH]; [done|].
  cbn [app uploads action]. rewrite IH. by destruct a.
Qed.

Lemma commands_outputs ph (lines : list string) :
  commands ((λ l, Ev ph (AOutput l)) <$> lines) = [].
Proof. induction lines as [|l lines IH]; [done|]. by cbn. Qed.

Lemma uploads_outputs ph (lines : list string) :
  uploads ((λ l, Ev ph (AOutput l)) <$> lines) = [].
Proof. induction lines as [|l lines IH]; [done|]. by cbn. Qed.

Lemma connecting_commands evs :
  Forall connecting evs → commands evs = [] ∧ uploads evs = [].
Proof.
  induction 1 as [|[ph a] evs [_ Ha] _ [IHc IHu]]; [done|].
  cbn [commands uploads action] in *. by destruct a.
Qed.

Section CommandTrace.
Context {W : Type} `{Communicator W} `{Lib}.

Lemma runCommand_commands ph p command s :
  commands (events (runCommand ph p command s)) = [withSudo p command].
Proof.
  rewrite runCommand_events. cbv zeta. fold (withSudo p command).
  destruct (comm_Start _ (world s)) as [[e|] w1]; [done|].
  cbn [commands action]. rewrite commands_app. cbn [commands action].
  by rewrite !commands_outputs.
Qed.

Lemma runCommand_uploads ph p command s :
  uploads (events (runCommand ph p command s)) = [].
Proof.
  rewrite runCommand_events. cbv zeta.
  destruct (comm_Start _ (world s)) as [[e|] w1]; [done|].
  cbn [uploads action]. rewrite uploads_app. cbn [uploads action].
  by rewrite !uploads_outputs.
Qed.

Lemma runCommand_started ph p command s :
  val (runCommand ph p command s) = None →
  Ev ph (AStart (withSudo p command) None) ∈ events (runCommand ph p command s).
Proof.
  rewrite runCommand_events, runCommand_val. cbv zeta.
  fold (withSudo p command).
  destruct (comm_Start _ (world s)) as [[e|] w1]; [done|].
  intros _. apply list_elem_of_here.
Qed.

Lemma resolvePath_uploads ph path (s : @St W) :
  uploads (events (resolvePath ph path s)) = [].
Proof. unfold resolvePath. run_simpl. by destruct (os_Stat _ _). Qed.

Lemma resolvePath_found ph path (s : @St W) a :
  val (resolvePath ph path s) = Ok a → a = homedir_Expand path.
Proof.
  unfold resolvePath. run_simpl. destruct (os_Stat _ _); run_simpl; congruence.
Qed.

Lemma retryFunc_Connect_connecting timeout :
  always connecting (retryFunc Connecting timeout Connect).
Proof.
  unfold retryFunc. apply always_bind; [apply always_getNow|]. intros t.
  apply retryLoop_always; [|done].
  intros s. unfold Connect. cbn. by repeat constructor.
Qed.

End CommandTrace.

Ltac trace_simpl :=
  repeat first
    [ rewrite commands_app | rewrite uploads_app
    | rewrite runCommand_commands | rewrite runCommand_uploads
    | rewrite resolvePath_uploads
    | progress cbn [commands uploads action app] ].

Section UploadTrace.
Context {W : Type} `{Communicator W} `{Lib}.

Lemma uploadInventory_uploads p s :
  uploads (events (uploadInventory p s)) = [inventoryFilePath].
Proof.
  unfold uploadInventory. rewrite renderInventory_text. cbv zeta. run_simpl.
  set (s2 := post (runCommand _ _ _ (post (runCommand _ _ _ s)))).
  destruct (comm_Upload _ _ (world s2)) as [[e|] w']; run_simpl;
    trace_simpl; done.
Qed.

Lemma uploadInventory_uploaded p s :
  Ev UploadingArtifacts
    (AUpload inventoryFilePath (inventoryText (Hosts p) (Groups p))
       (val (uploadInventory p s)))
  ∈ events (uploadInventory p s).
Proof.
  unfold uploadInventory. rewrite renderInventory_text. cbv zeta. run_simpl.
  set (s2 := post (runCommand _ _ _ (post (runCommand _ _ _ s)))).
  destruct (comm_Upload _ _ (world s2)) as [[e|] w']; run_simpl; in_events.
Qed.

Lemma uploadVaultPasswordFile_uploads p path s target :
  val (uploadVaultPasswordFile p path s) = Ok target →
  target
  = filepath_Join
      [bootstrapDirectory; ".vault-ansible-bootstrap"; filepath_Base path]
  ∧ uploads (events (uploadVaultPasswordFile p path s)) = [target].
Proof.
  unfold uploadVaultPasswordFile. cbv zeta. run_simpl.
  set (s2 := post (runCommand _ _ _ (post (runCommand _ _ _ s)))).
  destruct (os_Open path (world s2)) as [content|e]; run_simpl; [|done].
  destruct (comm_Upload _ _ (world s2)) as [[e|] w']; run_simpl; [done|].
  intros [= <-]. split; [done|]. trace_simpl. done.
Qed.

Lemma cleanupAfterBootstrap_uploads p s :
  uploads (events (cleanupAfterBootstrap p s)) = [].
Proof. unfold cleanupAfterBootstrap. run_simpl. trace_simpl. done. Qed.

End UploadTrace.

(* ================================================================= *)
(** * The calls of the communicator, counted and recorded             *)
(* ================================================================= *)

Section MonitorFacts.
Context {W : Type} `{Communicator W} `{Lib}.
#[local] Existing Instance monitor.

Lemma keeps_ret {A} (a : A) : keeps (W:=W) (ret a).
Proof. by intros s. Qed.

Lemma keeps_bind {A B} (m : @M (Monitored W) A) (k : A → @M (Monitored W) B) :
  keeps m → (∀ a, keeps (k a)) → keeps (bind m k).
Proof.
  intros Hm Hk s. rewrite post_bind.
  destruct (Hk (val (m s)) (post (m s))) as [-> ->]. apply Hm.
Qed.

Lemma keeps_emit ph a : keeps (W:=W) (emit ph a).
Proof. by intros s. Qed.

Lemma keeps_ask {A} (f : Monitored W → A) : keeps (ask f).
Proof. by intros s. Qed.

Lemma keeps_getNow : keeps (W:=W) getNow.
Proof. by intros s. Qed.

Lemma keeps_sleepUntil t : keeps (W:=W) (sleepUntil t).
Proof. by intros s. Qed.

Lemma keeps_passing {A} act (f : W → A * W) : keeps (call (passing act f)).
Proof. by intros s. Qed.

Lemma keeps_forEach {A} (l : list A) (body : A → @M (Monitored W) unit) :
  (∀ a, keeps (body a)) → keeps (forEach l body).
Proof.
  intros Hb. induction l as [|a l IH]; cbn [forEach].
  - apply keeps_ret.
  - apply keeps_bind; [apply Hb|intros _; apply IH].
Qed.

Lemma monitor_Disconnect (w : Monitored W) :
  connections (comm_Disconnect w).2 = connections w
  ∧ disconnections (comm_Disconnect w).2 = S (disconnections w).
Proof. done. Qed.

End MonitorFacts.

Ltac keeps_prim :=
  lazymatch goal with
  | |- keeps (ret _) => apply keeps_ret
  | |- keeps (ask _) => apply keeps_ask
  | |- keeps getNow => apply keeps_getNow
  | |- keeps (sleepUntil _) => apply keeps_sleepUntil
  | |- keeps (emit _ _) => apply keeps_emit
  | |- keeps (Output _ _) => apply keeps_emit
  | |- keeps (forEach _ _) => apply keeps_forEach; intros ?
  | |- keeps (call (comm_Start _)) => apply (keeps_passing _ (comm_Start _))
  | |- keeps (call cmd_Wait) => apply (keeps_passing _ cmd_Wait)
  | |- keeps (call (comm_Upload _ _)) =>
      apply (keeps_passing _ (comm_Upload _ _))
  | |- keeps (call (comm_UploadDir _ _)) =>
      apply (keeps_passing _ (comm_UploadDir _ _))
  | |- keeps (call (comm_UploadScript _ _)) =>
      apply (keeps_passing _ (comm_UploadScript _ _))
  | |- keeps (call communicator_New) =>
      apply (keeps_passing _ communicator_New)
  | |- keeps (match ?x with _ => _ end) => destruct x
  | |- keeps (let _ := ?x in _) => cbv zeta
  | |- keeps (bind _ _) => apply keeps_bind; [|intros ?]
  end.

Section MonitorCommands.
Context {W : Type} `{Communicator W} `{Lib}.
#[local] Existing Instance monitor.

Lemma runCommand_keeps ph p command : keeps (runCommand ph p command).
Proof. unfold runCommand. repeat keeps_prim. Qed.

Lemma resolvePath_keeps ph path : keeps (W:=W) (resolvePath ph path).
Proof. unfold resolvePath. repeat keeps_prim. Qed.

End MonitorCommands.

Ltac keeps_step :=
  lazymatch goal with
  | |- keeps (runCommand _ _ _) => apply runCommand_keeps
  | |- keeps (resolvePath _ _) => apply resolvePath_keeps
  | |- _ => keeps_prim
  end.

Section MonitorSteps.
Context {W : Type} `{Communicator W} `{Lib}.
#[local] Existing Instance monitor.

Lemma uploadVaultPasswordFile_keeps p path :
  keeps (uploadVaultPasswordFile p path).
Proof. unfold uploadVaultPasswordFile. repeat keeps_step. Qed.

Lemma uploadInventory_keeps p : keeps (uploadInventory p).
Proof. unfold uploadInventory. repeat keeps_step. Qed.

Lemma cleanupAfterBootstrap_keeps p : keeps (cleanupAfterBootstrap p).
Proof. unfold cleanupAfterBootstrap. repeat keeps_step. Qed.

Lemma installAnsible_keeps p : keeps (installAnsible p).
Proof. unfold installAnsible. repeat keeps_step. Qed.

End MonitorSteps.

Ltac keeps_tac :=
  repeat lazymatch goal with
  | |- keeps (uploadVaultPasswordFile _ _) =>
      apply uploadVaultPasswordFile_keeps
  | |- keeps (uploadInventory _) => apply uploadInventory_keeps
  | |- keeps (cleanupAfterBootstrap _) => apply cleanupAfterBootstrap_keeps
  | |- keeps (installAnsible _) => apply installAnsible_keeps
  | |- _ => keeps_step
  end.

Section MonitorWorkflow.
Context {W : Type} `{Communicator W} `{Lib}.
#[local] Existing Instance monitor.

Lemma deployAnsibleModule_keeps p : keeps (deployAnsibleModule p).
Proof. unfold deployAnsibleModule. keeps_tac. Qed.

(** The provisioning neither connects nor disconnects. *)
Lemma provision_keeps p : keeps (provision p).
Proof.
  unfold provision.
  repeat lazymatch goal with
  | |- keeps (deployAnsibleModule _) => apply deployAnsibleModule_keeps
  | |- _ => progress keeps_tac
  end.
Qed.

(** The retries count one connection when they end with nil and none
    when they do not; they do not disconnect. *)
Lemma retryLoop_Connect_counts fuel finish (s : @St (Monitored W)) :
  let r := retryLoop fuel Connecting finish Connect s in
  connections (world (post r))
  = (if val r is Some None then S (connections (world s))
     else connections (world s))
  ∧ disconnections (world (post r)) = disconnections (world s).
Proof.
  cbv zeta. revert s. induction fuel as [|fuel IH]; intros s; [done|].
  cbn [retryLoop]. run_simpl.
  assert (HC : connections (world (post (Connect s)))
               = (if val (Connect s) is None then S (connections (world s))
                  else connections (world s))
               ∧ disconnections (world (post (Connect s)))
                 = disconnections (world s)).
  { unfold Connect. cbn. by destruct (comm_Connect (inner (world s))).1.1. }
  destruct (val (Connect s)) as [e|] eqn:EC; run_simpl; [|done].
  repeat case_bool_decide; run_simpl; try done.
  - destruct (select_tie _); run_simpl; [done|].
    match goal with
    | |- context [retryLoop fuel Connecting finish Connect ?s1] =>
        destruct (IH s1) as [-> ->]
    end.
    cbn [world]. by destruct HC as [-> ->].
  - match goal with
    | |- context [retryLoop fuel Connecting finish Connect ?s1] =>
        destruct (IH s1) as [-> ->]
    end.
    cbn [world]. by destruct HC as [-> ->].
Qed.

Lemma retryFunc_Connect_counts timeout (s : @St (Monitored W)) :
  let r := retryFunc Connecting timeout Connect s in
  connections (world (post r))
  = (if val r is Some None then S (connections (world s))
     else connections (world s))
  ∧ disconnections (world (post r)) = disconnections (world s).
Proof.
  cbv zeta. unfold retryFunc. run_simpl.
  apply (retryLoop_Connect_counts (retryFuel timeout) (now s + timeout) s).
Qed.

(** The calls of [applyFn], counted. *)
Lemma applyFn_counts d (s : @St (Monitored W)) :
  let r := applyFn d s in
  (connected (events r) →
   connections (world (post r)) = S (connections (world s))
   ∧ disconnections (world (post r)) = S (disconnections (world s)))
  ∧ (¬ connected (events r) →
     connections (world (post r)) = connections (world s)
     ∧ disconnections (world (post r)) = disconnections (world s)).
Proof.
  cbv zeta. unfold applyFn.
  destruct (decodeConfig d) as [[p [e|]]|]; run_simpl;
    [split; [intros []%elem_of_nil|done]| |split; [intros []%elem_of_nil|done]].
  assert (Hnew : connections (communicator_New (world s)).2
                 = connections (world s)
                 ∧ disconnections (communicator_New (world s)).2
                   = disconnections (world s)) by done.
  destruct (communicator_New (world s)) as [[e|] w0]; run_simpl.
  { split; [|done]. unfold connected. rewrite list_elem_of_singleton.
    intros [=]. }
  cbn [snd] in Hnew. destruct Hnew as [Hnc Hnd].
  match goal with
  | |- context [retryFunc Connecting ?t Connect ?s0] =>
      pose proof (retryFunc_connected t s0) as Hconn;
      pose proof (retryFunc_Connect_counts t s0) as [Hc Hd];
      destruct (val (retryFunc Connecting t Connect s0))
        as [[e|]|] eqn:Eret
  end; run_simpl.
  - split; [|intros _; cbn [world connections disconnections] in *; lia].
    unfold connected in *. rewrite app_nil_r, elem_of_cons.
    intros [[=]|Hin]. apply Hconn in Hin. done.
  - split.
    + intros _.
      match goal with
      | |- context [provision p ?s1] =>
          destruct (provision_keeps p s1) as [Hpc Hpd]
      end.
      match goal with
      | |- context [comm_Disconnect ?w] =>
          destruct (monitor_Disconnect w) as [-> ->]
      end.
      cbn [world connections disconnections] in *. lia.
    + intros Hno. exfalso. apply Hno. unfold connected in *.
      rewrite elem_of_cons, elem_of_app. right. left. by apply Hconn.
  - split; [|intros _; cbn [world connections disconnections] in *; lia].
    unfold connected in *. rewrite app_nil_r, elem_of_cons.
    intros [[=]|Hin]. apply Hconn in Hin. done.
Qed.

End MonitorWorkflow.

Lemma callsOf_app evs1 evs2 :
  callsOf (evs1 ++ evs2) = callsOf evs1 ++ callsOf evs2.
Proof.
  induction evs1 as [|[ph a] evs1 IH]; [done|].
  cbn [app callsOf action]. rewrite IH. by destruct (isCall a).
Qed.

Lemma callsOf_outputs ph (lines : list string) :
  callsOf ((λ l, Ev ph (AOutput l)) <$> lines) = [].
Proof. induction lines as [|l lines IH]; [done|]. by cbn. Qed.

Section FaithfulFacts.
Context {W : Type} `{Communicator W} `{Lib}.
#[local] Existing Instance monitor.

Lemma faithful_ret {A} (a : A) : faithful (W:=W) (ret a).
Proof. intros s. cbn. by rewrite app_nil_r. Qed.

Lemma faithful_bind {A B} (m : @M (Monitored W) A) (k : A → @M (Monitored W) B) :
  faithful m → (∀ a, faithful (k a)) → faithful (bind m k).
Proof.
  intros Hm Hk s. rewrite post_bind, events_bind, callsOf_app, app_assoc.
  rewrite (Hk (val (m s)) (post (m s))). by rewrite (Hm s).
Qed.

Lemma faithful_emit ph a : isCall a = false → faithful (W:=W) (emit ph a).
Proof. intros Ha s. cbn. rewrite Ha. by rewrite app_nil_r. Qed.

Lemma faithful_ask {A} (f : Monitored W → A) : faithful (ask f).
Proof. intros s. cbn. by rewrite app_nil_r. Qed.

Lemma faithful_getNow : faithful (W:=W) getNow.
Proof. intros s. cbn. by rewrite app_nil_r. Qed.

Lemma faithful_sleepUntil t : faithful (W:=W) (sleepUntil t).
Proof. intros s. cbn. by rewrite app_nil_r. Qed.

Lemma faithful_forEach {A} (l : list A) (body : A → @M (Monitored W) unit) :
  (∀ a, faithful (body a)) → faithful (forEach l body).
Proof.
  intros Hb. induction l as [|a l IH]; cbn [forEach].
  - apply faithful_ret.
  - apply faithful_bind; [apply Hb|intros _; apply IH].
Qed.

(** A call that is recorded, followed by the event that tells it. *)
Lemma faithful_passing {A B} (act : A → Action) (f : W → A * W) ph
    (k : A → @M (Monitored W) B) :
  (∀ a, isCall (act a) = true) → (∀ a, faithful (k a)) →
  faithful (bind (call (passing act f)) (λ a, bind (emit ph (act a)) (λ _, k a))).
Proof.
  intros Hact Hk s. rewrite !post_bind, !events_bind.
  rewrite (Hk _ _). cbn. rewrite Hact. by rewrite <- app_assoc.
Qed.

Lemma faithful_Disconnect {B} ph (k : @M (Monitored W) B) :
  faithful k →
  faithful (bind (call comm_Disconnect) (λ _, bind (emit ph ADisconnect) (λ _, k))).
Proof.
  intros Hk s. rewrite !post_bind, !events_bind.
  rewrite (Hk _). cbn. by rewrite <- app_assoc.
Qed.

Lemma Connect_faithful : faithful (W:=W) Connect.
Proof. intros s. done. Qed.

Lemma runCommand_faithful ph p command : faithful (runCommand ph p command).
Proof.
  intros s. rewrite runCommand_post, runCommand_events. cbv zeta. cbn.
  destruct (comm_Start _ (inner (world s))) as [[e|] w1]; [done|].
  cbn. rewrite callsOf_app. cbn. rewrite !callsOf_outputs.
  by rewrite <- app_assoc.
Qed.

End FaithfulFacts.

Ltac faithful_step :=
  lazymatch goal with
  | |- faithful (runCommand _ _ _) => apply runCommand_faithful
  | |- faithful Connect => apply Connect_faithful
  | |- faithful (ret _) => apply faithful_ret
  | |- faithful (ask _) => apply faithful_ask
  | |- faithful getNow => apply faithful_getNow
  | |- faithful (sleepUntil _) => apply faithful_sleepUntil
  | |- faithful (emit _ _) => apply faithful_emit; reflexivity
  | |- faithful (Output _ _) => apply faithful_emit; reflexivity
  | |- faithful (forEach _ _) => apply faithful_forEach; intros ?
  | |- faithful (bind (call (comm_Upload ?dst ?content)) _) =>
      apply (faithful_passing (AUpload dst content) (comm_Upload dst content));
        [reflexivity|intros ?]
  | |- faithful (bind (call (comm_UploadDir ?dst ?src)) _) =>
      apply (faithful_passing (AUploadDir dst src) (comm_UploadDir dst src));
        [reflexivity|intros ?]
  | |- faithful (bind (call (comm_UploadScript ?dst ?content)) _) =>
      apply (faithful_passing (AUploadScript dst content)
               (comm_UploadScript dst content));
        [reflexivity|intros ?]
  | |- faithful (bind (call communicator_New) _) =>
      apply (faithful_passing ANew communicator_New); [reflexivity|intros ?]
  | |- faithful (bind (call comm_Disconnect) _) => apply faithful_Disconnect
  | |- faithful (match ?x with _ => _ end) => destruct x
  | |- faithful (let _ := ?x in _) => cbv zeta
  | |- faithful (bind _ _) => apply faithful_bind; [|intros ?]
  end.

Section FaithfulWorkflow.
Context {W : Type} `{Communicator W} `{Lib}.
#[local] Existing Instance monitor.

Lemma resolvePath_faithful ph path : faithful (W:=W) (resolvePath ph path).
Proof. unfold resolvePath. repeat faithful_step. Qed.

Lemma uploadVaultPasswordFile_faithful p path :
  faithful (uploadVaultPasswordFile p path).
Proof. unfold uploadVaultPasswordFile. repeat faithful_step. Qed.

Lemma uploadInventory_faithful p : faithful (uploadInventory p).
Proof. unfold uploadInventory. repeat faithful_step. Qed.

Lemma cleanupAfterBootstrap_faithful p : faithful (cleanupAfterBootstrap p).
Proof. unfold cleanupAfterBootstrap. repeat faithful_step. Qed.

Lemma installAnsible_faithful p : faithful (installAnsible p).
Proof. unfold installAnsible. repeat faithful_step. Qed.

Lemma deployAnsibleModule_faithful p : faithful (deployAnsibleModule p).
Proof.
  unfold deployAnsibleModule.
  repeat lazymatch goal with
  | |- faithful (resolvePath _ _) => apply resolvePath_faithful
  | |- faithful (uploadVaultPasswordFile _ _) =>
      apply uploadVaultPasswordFile_faithful
  | |- faithful (uploadInventory _) => apply uploadInventory_faithful
  | |- faithful (cleanupAfterBootstrap _) => apply cleanupAfterBootstrap_faithful
  | |- _ => faithful_step
  end.
Qed.

Lemma provision_faithful p : faithful (provision p).
Proof.
  unfold provision.
  repeat lazymatch goal with
  | |- faithful (deployAnsibleModule _) => apply deployAnsibleModule_faithful
  | |- faithful (installAnsible _) => apply installAnsible_faithful
  | |- _ => faithful_step
  end.
Qed.

Lemma retryLoop_faithful fuel ph finish (f : @M (Monitored W) (option error)) :
  faithful f → faithful (retryLoop fuel ph finish f).
Proof.
  intros Hf. induction fuel as [|fuel IH]; cbn [retryLoop].
  - apply faithful_ret.
  - repeat lazymatch goal with
    | |- faithful f => exact Hf
    | |- faithful (retryLoop fuel _ _ _) => exact IH
    | |- faithful (if bool_decide _ then _ else _) => case_bool_decide
    | |- _ => faithful_step
    end.
Qed.

(** The events of [applyFn] tell the calls the collaborators received:
    none is left out, added or moved. *)
Lemma applyFn_faithful d : faithful (applyFn d).
Proof.
  unfold applyFn, retryFunc.
  repeat lazymatch goal with
  | |- faithful (provision _) => apply provision_faithful
  | |- faithful (retryLoop _ _ _ _) =>
      apply retryLoop_faithful, Connect_faithful
  | |- faithful (emit (if ?x is Some _ then _ else _) _) => destruct x
  | |- _ => faithful_step
  end.
Qed.

End FaithfulWorkflow.

Section MonitoredRuns.
Context {W : Type} `{Communicator W} `{Lib}.
#[local] Existing Instance monitor.

(** C9: run on collaborators whose calls are counted, [applyFn]
    disconnects as often as it connects: a run that established the
    connection returns, has called [comm.Connect] with success once and
    [comm.Disconnect] once, and the disconnection is its last event and
    its only one; a run that did not establish the connection has
    called [comm.Disconnect] not at all. *)
Theorem applyFn_disconnects_once d (s : @St (Monitored W)) :
  let r := @applyFn (Monitored W) monitor _ d s in
  (connected (events r) →
   connections (world (post r)) = S (connections (world s))
   ∧ disconnections (world (post r)) = S (disconnections (world s))
   ∧ disconnects (events r) = 1%nat
   ∧ (∃ pre ph, events r = pre ++ [Ev ph ADisconnect])
   ∧ ∃ err, val r = Some err)
  ∧ (¬ connected (events r) →
     connections (world (post r)) = connections (world s)
     ∧ disconnections (world (post r)) = disconnections (world s)
     ∧ disconnects (events r) = 0%nat).
Proof.
  cbv zeta.
  destruct (applyFn_counts d s) as [Hyes Hno].
  destruct (applyFn_disconnect_event d s) as [Eyes Eno].
  split.
  - intros Hc. destruct (Hyes Hc) as [? ?]. destruct (Eyes Hc) as (? & ? & ?).
    done.
  - intros Hc. destruct (Hno Hc) as [? ?]. by rewrite (Eno Hc).
Qed.

End MonitoredRuns.

(* ================================================================= *)
(** * The phases of a successful run                                  *)
(* ================================================================= *)

Ltac same_phase := segment; by intros ? [? ?].

Ltac flatten := repeat first [rewrite <- app_assoc | progress (cbn [app])].

(** Every event of the list is of the connection or of the upload
    phase. *)
Ltac uploading :=
  lazymatch goal with
  | |- Forall _ [] => apply List.Forall_nil
  | |- Forall _ (_ :: _) => apply List.Forall_cons; [by right|]
  | |- Forall _ (_ ++ _) => apply Forall_app; split
  | |- _ => segment; intros ? [-> ?]; by right
  end.

Section PhaseSequence.
Context {W : Type} `{Communicator W} `{Lib}.

(** A deployment that succeeds and cleans up uploads, builds the
    command, uploads again, runs and cleans up. *)
Lemma deployAnsibleModule_phases p s last rest :
  val (deployAnsibleModule p s) = None → skipCleanup p = false →
  last ≠ Some UploadingArtifacts →
  phasesFrom last (events (deployAnsibleModule p s) ++ rest)
  = [UploadingArtifacts; BuildingCommand; UploadingArtifacts; Running;
     CleaningUp] ++ phasesFrom (Some CleaningUp) rest.
Proof.
  intros Hval Hclean Hlast. revert Hval.
  unfold deployAnsibleModule. cbv zeta. rewrite Hclean. run_simpl.
  repeat (case_match; run_simpl); intros Hval; try discriminate Hval.
  - flatten.
    rewrite (phasesFrom_new last UploadingArtifacts);
      [|apply resolvePath_nonempty|same_phase|exact Hlast].
    rewrite phasesFrom_cons_same by done.
    rewrite (phasesFrom_same UploadingArtifacts) by same_phase.
    rewrite (phasesFrom_same UploadingArtifacts) by same_phase.
    rewrite phasesFrom_cons_new by discriminate. cbn [phase].
    rewrite (phasesFrom_new _ UploadingArtifacts);
      [|apply uploadInventory_nonempty|same_phase|discriminate].
    rewrite phasesFrom_cons_new by discriminate. cbn [phase].
    rewrite (phasesFrom_same Running) by same_phase.
    rewrite (phasesFrom_new _ CleaningUp);
      [|apply cleanupAfterBootstrap_nonempty|same_phase|discriminate].
    reflexivity.
  - exfalso.
    match goal with
    | Hb : val (bind _ _ _) = Ok _, He : val (resolvePath _ _ _) = Err _ |- _ =>
        rewrite val_bind, He, val_ret in Hb; discriminate Hb
    end.
  - flatten.
    rewrite (phasesFrom_new last UploadingArtifacts);
      [|apply resolvePath_nonempty|same_phase|exact Hlast].
    rewrite phasesFrom_cons_same by done.
    rewrite phasesFrom_cons_new by discriminate. cbn [phase].
    rewrite (phasesFrom_new _ UploadingArtifacts);
      [|apply uploadInventory_nonempty|same_phase|discriminate].
    rewrite phasesFrom_cons_new by discriminate. cbn [phase].
    rewrite (phasesFrom_same Running) by same_phase.
    rewrite (phasesFrom_new _ CleaningUp);
      [|apply cleanupAfterBootstrap_nonempty|same_phase|discriminate].
    reflexivity.
Qed.

(** Without the installation, [provision] is the deployment, followed
    by the report of its error. *)
Lemma provision_skip_install p s :
  skipInstall p = true →
  val (provision p s) = val (deployAnsibleModule p s)
  ∧ events (provision p s)
    = events (deployAnsibleModule p s)
      ++ match val (deployAnsibleModule p s) with
         | Some e => [Ev Failed (AOutput e)]
         | None => []
         end.
Proof.
  intros Hskip. unfold provision. rewrite Hskip. run_simpl.
  destruct (val (deployAnsibleModule p s)); run_simpl; done.
Qed.

(** A deployment that succeeds uploads the playbook directory, and the
    vault password file when there is one, before it builds the
    command, and the inventory after it. *)
Lemma deployAnsibleModule_order p s :
  val (deployAnsibleModule p s) = None →
  ∃ pre post c,
    events (deployAnsibleModule p s)
    = pre ++ Ev BuildingCommand (ABuild (Ok c)) :: post
    ∧ Forall (λ e, phase e = Connecting ∨ phase e = UploadingArtifacts) pre
    ∧ uploads pre
      = bootstrapDirectory
        :: (if nonempty (VaultPasswordFile p)
            then [filepath_Join
                    [bootstrapDirectory; ".vault-ansible-bootstrap";
                     filepath_Base (homedir_Expand (VaultPasswordFile p))]]
            else [])
    ∧ uploads post = [inventoryFilePath]
    ∧ Ev UploadingArtifacts
        (AUpload inventoryFilePath (inventoryText (Hosts p) (Groups p)) None)
      ∈ post
    ∧ Ev Running (AStart (withSudo p c) None) ∈ post.
Proof.
  unfold deployAnsibleModule. cbv zeta. run_simpl.
  repeat (case_match; run_simpl); intros Hval; try discriminate Hval.
  all: try (exfalso;
    match goal with
    | Hb : val (bind _ _ _) = Ok _, He : val (resolvePath _ _ _) = Err _ |- _ =>
        rewrite val_bind, He, val_ret in Hb; discriminate Hb
    end).
  all: flatten.
  all: lazymatch goal with
       | |- ∃ pre post c,
              ?a ++ ?b :: ?v1 ++ ?v2
              ++ Ev BuildingCommand (ABuild (Ok ?c0)) :: ?rest = _ ∧ _ =>
           exists (a ++ b :: v1 ++ v2), rest, c0
       | |- ∃ pre post c,
              ?a ++ ?b :: Ev BuildingCommand (ABuild (Ok ?c0)) :: ?rest = _ ∧ _ =>
           exists (a ++ [b]), rest, c0
       end.
  all: (split; [flatten; reflexivity|]).
  all: (split; [repeat uploading|]).
  all: try match goal with
       | Hb : val (bind _ _ _) = Ok _, He : val (resolvePath _ _ _) = Ok _ |- _ =>
           pose proof (resolvePath_found _ _ _ _ He) as ->;
           rewrite val_bind, He in Hb; cbv beta iota in Hb;
           apply uploadVaultPasswordFile_uploads in Hb as [-> Hup]
       end.
  all: (split; [trace_simpl; rewrite ?Hup; done|]).
  all: (split; [trace_simpl;
                rewrite uploadInventory_uploads, ?cleanupAfterBootstrap_uploads;
                done|]).
  all: (split;
        [rewrite elem_of_app; left;
         match goal with
         | Hinv : val (uploadInventory ?p ?st) = None |- _ =>
             pose proof (uploadInventory_uploaded p st) as Hu;
             rewrite Hinv in Hu; exact Hu
         end|]).
  all: rewrite elem_of_app, elem_of_cons, elem_of_app; right; right; left.
  all: by apply runCommand_started.
Qed.

(** The same of a run of [applyFn] without the installation. *)
Lemma applyFn_order d p s :
  decodeConfig d = Some (p, None) → skipInstall p = true →
  val (applyFn d s) = Some None →
  ∃ pre post c,
    events (applyFn d s) = pre ++ Ev BuildingCommand (ABuild (Ok c)) :: post
    ∧ Forall (λ e, phase e = Connecting ∨ phase e = UploadingArtifacts) pre
    ∧ uploads pre
      = bootstrapDirectory
        :: (if nonempty (VaultPasswordFile p)
            then [filepath_Join
                    [bootstrapDirectory; ".vault-ansible-bootstrap";
                     filepath_Base (homedir_Expand (VaultPasswordFile p))]]
            else [])
    ∧ uploads post = [inventoryFilePath]
    ∧ Ev UploadingArtifacts
        (AUpload inventoryFilePath (inventoryText (Hosts p) (Groups p)) None)
      ∈ post
    ∧ Ev Running (AStart (withSudo p c) None) ∈ post.
Proof.
  intros Hd Hinstall. unfold applyFn. rewrite Hd. run_simpl.
  destruct (communicator_New (world s)) as [[e|] w0]; run_simpl; [intros [=]|].
  match goal with
  | |- context [retryFunc Connecting ?t Connect ?s0] =>
      pose proof (retryFunc_Connect_connecting t s0) as Hph;
      destruct (val (retryFunc Connecting t Connect s0)) as [[e|]|] eqn:Eret
  end; run_simpl; [intros [=]| |intros [=]].
  match goal with
  | |- context [provision p ?s1] =>
      destruct (provision_skip_install p s1 Hinstall) as [Hv He];
      rewrite Hv, He; clear Hv He;
      destruct (val (deployAnsibleModule p s1)) as [e|] eqn:Ed;
      [intros [=]|];
      destruct (deployAnsibleModule_order p s1 Ed)
        as (pre & post & c & -> & Hpre & Hupre & Hupost & Hinv & Hrun)
  end.
  intros _.
  match goal with
  | |- ∃ pre' post' c', ?a :: ?l ++ ((pre ++ ?b :: post) ++ []) ++ [?z] = _ ∧ _ =>
      exists (a :: l ++ pre), (post ++ [z]), c
  end.
  split; [cbn [app]; rewrite app_nil_r, <- !app_assoc; reflexivity|].
  destruct (connecting_commands _ Hph) as [_ Hu0].
  split.
  { apply List.Forall_cons; [by left|]. apply Forall_app. split; [|done].
    eapply Forall_impl; [exact Hph|]. intros ? [? _]. by left. }
  split; [cbn [uploads action]; by rewrite uploads_app, Hu0|].
  split; [rewrite uploads_app, Hupost; by cbn|].
  split; rewrite elem_of_app; by left.
Qed.

(** The phases of a run without the installation that returns nil. *)
Lemma applyFn_phaseSequence d p s :
  decodeConfig d = Some (p, None) →
  skipInstall p = true → skipCleanup p = false →
  val (applyFn d s) = Some None →
  phaseSequence (events (applyFn d s))
  = [Connecting; UploadingArtifacts; BuildingCommand; UploadingArtifacts;
     Running; CleaningUp; Done].
Proof.
  intros Hd Hinstall Hclean. unfold applyFn. rewrite Hd. run_simpl.
  destruct (communicator_New (world s)) as [[e|] w0]; run_simpl; [intros [=]|].
  match goal with
  | |- context [retryFunc Connecting ?t Connect ?s0] =>
      pose proof (retryFunc_Connect_inPhase t s0) as Hph;
      destruct (val (retryFunc Connecting t Connect s0)) as [[e|]|] eqn:Eret
  end; run_simpl; [intros [=]| |intros [=]].
  match goal with
  | |- context [provision p ?s1] =>
      destruct (provision_skip_install p s1 Hinstall) as [Hv He];
      rewrite Hv, He; clear Hv He;
      destruct (val (deployAnsibleModule p s1)) as [e|] eqn:Ed
  end; [intros [=]|]. intros _.
  unfold phaseSequence. rewrite app_nil_r.
  rewrite phasesFrom_cons_new by discriminate. cbn [phase]. f_equal.
  rewrite (phasesFrom_same Connecting) by same_phase.
  rewrite deployAnsibleModule_phases by done. reflexivity.
Qed.

(** C6, as the code has it: when the playbook command ends with status
    zero the workflow returns nil, whatever the removal command of the
    cleanup answers; and the cleanup reports its two fixed lines and the
    lines the removal command prints, nothing of the error
    [runCommand] returns for it. *)
Theorem cleanup_failure_discarded d p s :
  (Ev Running (AWait 0) ∈ events (applyFn d s) →
   val (applyFn d s) = Some None)
  ∧ (let cmd :=
       if useSudo p
       then "sudo " +:+ "rm -rf " +:+ filepath_Dir bootstrapDirectory
       else "rm -rf " +:+ filepath_Dir bootstrapDirectory in
     reported (events (cleanupAfterBootstrap p s))
     = "Cleaning up after bootstrap..."
       :: match comm_Start cmd (world s) with
          | (Some _, _) => []
          | (None, w1) => (cmd_Wait w1).1.1.2 ++ (cmd_Wait w1).1.2
          end
       ++ ["Cleanup complete."]).
Proof.
  split; [apply applyFn_wait_zero|apply cleanupAfterBootstrap_reported].
Qed.

End PhaseSequence.

Section MonitoredPhases.
Context {W : Type} `{Communicator W} `{Lib}.

(** C7, as the code has it: run on monitored collaborators, without the
    installation and with the cleanup, a run whose playbook command ends
    with status zero returns nil and goes through the phases Connecting,
    UploadingArtifacts, BuildingCommand, UploadingArtifacts again,
    Running, CleaningUp and Done; Installing is not among them.  The
    calls among its events are the calls the collaborators received, in
    that order.  The build of the command divides the run: before it, in
    the phases Connecting and UploadingArtifacts, the playbook directory
    is uploaded to the bootstrap directory, and then the vault password
    file when there is one, and nothing else; after it the inventory,
    rendered from the hosts and the groups, is uploaded to the inventory
    file, and nothing else is, and the command that was built is
    submitted. *)
Theorem applyFn_phases d p (s : @St (Monitored W)) :
  let r := @applyFn (Monitored W) monitor _ d s in
  decodeConfig d = Some (p, None) →
  skipInstall p = true → skipCleanup p = false →
  Ev Running (AWait 0) ∈ events r →
  val r = Some None
  ∧ phaseSequence (events r)
    = [Connecting; UploadingArtifacts; BuildingCommand; UploadingArtifacts;
       Running; CleaningUp; Done]
  ∧ received (world (post r)) = received (world s) ++ callsOf (events r)
  ∧ ∃ pre post c,
      events r = pre ++ Ev BuildingCommand (ABuild (Ok c)) :: post
      ∧ Forall (λ e, phase e = Connecting ∨ phase e = UploadingArtifacts) pre
      ∧ uploads pre
        = bootstrapDirectory
          :: (if nonempty (VaultPasswordFile p)
              then [filepath_Join
                      [bootstrapDirectory; ".vault-ansible-bootstrap";
                       filepath_Base (homedir_Expand (VaultPasswordFile p))]]
              else [])
      ∧ uploads post = [inventoryFilePath]
      ∧ Ev UploadingArtifacts
          (AUpload inventoryFilePath (inventoryText (Hosts p) (Groups p)) None)
        ∈ post
      ∧ Ev Running
          (AStart (if useSudo p then "sudo " +:+ c else c) None) ∈ post.
Proof.
  cbv zeta. intros Hd Hinstall Hclean Hwait.
  pose proof (applyFn_wait_zero (H:=monitor) d s Hwait) as Hval.
  split; [exact Hval|].
  split; [by apply (applyFn_phaseSequence (H:=monitor) d p s)|].
  split; [apply (applyFn_faithful d s)|].
  by apply (applyFn_order (H:=monitor) d p s).
Qed.

End MonitoredPhases.


(** Membership in a list of events that is known in full. *)
Ltac found := vm_compute; repeat constructor.

Lemma applyFn_phases_witness :
  let r :=
    @applyFn _ (@monitor _ Sim.communicator) Sim.lib
      (Sim.config ["web1"] ["app"] true false)
      (mkSt (mkMonitored Sim.calm 0 0 []) 0) in
  phaseSequence (events r)
  = [Connecting; UploadingArtifacts; BuildingCommand; UploadingArtifacts;
     Running; CleaningUp; Done]
  ∧ received (world (post r)) = [] ++ callsOf (events r)
  ∧ ∃ pre post c,
      events r = pre ++ Ev BuildingCommand (ABuild (Ok c)) :: post
      ∧ uploads pre = ["/tmp/ansible-terraform-bootstrap"]
      ∧ uploads post
        = ["/tmp/ansible-terraform-bootstrap/.inventory-ansible-bootstrap/hosts"].
Proof.
  cbv zeta.
  edestruct (@applyFn_phases _ Sim.communicator Sim.lib
               (Sim.config ["web1"] ["app"] true false))
    with (s := mkSt (mkMonitored Sim.calm 0 0 []) 0)
    as (_ & Hphases & Hcalls & pre & post & c & Hev & _ & Hpre & Hpost & _).
  - vm_compute. reflexivity.
  - reflexivity.
  - reflexivity.
  - found.
  - split; [exact Hphases|]. split; [exact Hcalls|]. exists pre, post, c.
    split; [exact Hev|]. split; [exact Hpre|exact Hpost].
Defined.

(** C7, as the specification words it, fails: on a host where
    everything succeeds the phases are not the six of the scenario; the
    inventory is uploaded after the command is built. *)
Lemma applyFn_phases_scenario_differs :
  Ev Running (AWait 0)
    ∈ events (Sim.apply (Sim.config ["web1"] ["app"] true false) Sim.calm)
  ∧ phaseSequence
      (events (Sim.apply (Sim.config ["web1"] ["app"] true false) Sim.calm))
    = [Connecting; UploadingArtifacts; BuildingCommand; UploadingArtifacts;
       Running; CleaningUp; Done]
  ∧ phaseSequence
      (events (Sim.apply (Sim.config ["web1"] ["app"] true false) Sim.calm))
    ≠ [Connecting; UploadingArtifacts; BuildingCommand; Running; CleaningUp;
       Done].
Proof.
  split; [found|]. split; [vm_compute; reflexivity|vm_compute; discriminate].
Qed.

Lemma cleanup_failure_discarded_witness :
  val (Sim.apply (Sim.config ["web1"] ["app"] true false) Sim.stubborn)
  = Some None.
Proof.
  apply (@cleanup_failure_discarded _ Sim.communicator Sim.lib
           (Sim.config ["web1"] ["app"] true false) (bare [] [])
           (Sim.start Sim.stubborn)).
  found.
Defined.

(** C6, as the specification words it, fails: on a host that refuses
    the removal command the run returns nil, and none of the lines it
    reports mentions the failure of the cleanup. *)
Lemma cleanup_failure_unreported :
  Ev CleaningUp (AStart "sudo rm -rf /tmp" (Some "session closed"))
    ∈ events (Sim.apply (Sim.config ["web1"] ["app"] true false) Sim.stubborn)
  ∧ val (Sim.apply (Sim.config ["web1"] ["app"] true false) Sim.stubborn)
    = Some None
  ∧ reported
      (events (Sim.apply (Sim.config ["web1"] ["app"] true false) Sim.stubborn))
    = [ "Generating ansible inventory...";
        "Uploading ansible inventory to /tmp/ansible-terraform-bootstrap/.inventory-ansible-bootstrap/hosts...";
        "Ansible inventory uploaded.";
        "running command: ansible-playbook /tmp/ansible-terraform-bootstrap/playbook.yaml --inventory-file=/tmp/ansible-terraform-bootstrap/.inventory-ansible-bootstrap/hosts";
        "Cleaning up after bootstrap..."; "Cleanup complete." ].
Proof.
  split; [found|]. split; vm_compute; reflexivity.
Qed.

Lemma applyFn_disconnects_once_witness :
  disconnections
    (world
       (post
          (@applyFn _ (@monitor _ Sim.communicator) Sim.lib
             (Sim.config ["web1"] ["app"] true false)
             (mkSt (mkMonitored Sim.calm 0 0 []) 0))))
  = 1%nat
  ∧ disconnections
      (world
         (post
            (@applyFn _ (@monitor _ Sim.communicator) Sim.lib
               (Sim.config ["web1"] ["app"] true false)
               (mkSt (mkMonitored Sim.unreachable 0 0 []) 0))))
    = 0%nat.
Proof.
  split.
  - apply (@applyFn_disconnects_once _ Sim.communicator Sim.lib
             (Sim.config ["web1"] ["app"] true false)
             (mkSt (mkMonitored Sim.calm 0 0 []) 0)).
    found.
  - apply (@applyFn_disconnects_once _ Sim.communicator Sim.lib
             (Sim.config ["web1"] ["app"] true false)
             (mkSt (mkMonitored Sim.unreachable 0 0 []) 0)).
    vm_compute. intros Hin.
    repeat (inversion Hin as [|? ? ? Hin']; clear Hin; rename Hin' into Hin).
Defined.

(* ================================================================= *)
(** * runCommand and its relays                                       *)
(* ================================================================= *)

Section GoroutineFacts.
Context `{Lib}.
Import Goroutines.

Lemma upd_same {A} (f : Stream → A) x a : upd f x a x = a.
Proof. unfold upd. by rewrite bool_decide_eq_true_2. Qed.

Lemma upd_other {A} (f : Stream → A) x a y : y ≠ x → upd f x a y = f y.
Proof. intros Hne. unfold upd. by rewrite bool_decide_eq_false_2. Qed.


Ltac fields :=
  cbn [pc command submitted exitStatus err pipes relays doneCh output
       setPc setPipe setRelay buffer closed] in *.

Ltac at_stream x y :=
  destruct (decide (y = x)) as [->|?];
  [rewrite ?upd_same in *|rewrite ?upd_other in * by done]; fields.













End GoroutineFacts.


(* ================================================================= *)
(** * More on the configuration                                       *)
(* ================================================================= *)






(** What a decoded configuration says about the configuration. *)
Lemma decodeConfig_inv d p e :
  decodeConfig d = Some (p, e) →
  e = None
  ∧ Get d "playbook" = VString (Playbook p)
  ∧ (∃ hosts, getStringList (Get d "hosts") = Some hosts
              ∧ Hosts p = hosts ++ ["localhost"])
  ∧ getStringList (Get d "groups") = Some (Groups p)
  ∧ getStringList (Get d "tags") = Some (Tags p)
  ∧ getStringList (Get d "skip_tags") = Some (SkipTags p)
  ∧ Get d "start_at_task" = VString (StartAtTask p)
  ∧ Get d "limit" = VString (Limit p)
  ∧ Get d "forks" = VInt (Forks p)
  ∧ getStringMap (Get d "extra_vars") = Some (ExtraVars p)
  ∧ Get d "verbose" = VBool (Verbose p)
  ∧ Get d "force_handlers" = VBool (ForceHandlers p)
  ∧ Get d "become" = VBool (Become p)
  ∧ Get d "become_method" = VString (BecomeMethod p)
  ∧ Get d "become_user" = VString (BecomeUser p)
  ∧ Get d "vault_password_file" = VString (VaultPasswordFile p)
  ∧ Get d "use_sudo" = VBool (useSudo p)
  ∧ Get d "skip_install" = VBool (skipInstall p)
  ∧ Get d "skip_cleanup" = VBool (skipCleanup p)
  ∧ Get d "install_version" = VString (installVersion p).
Proof.
  unfold decodeConfig. intros Hd.
  destruct (Get d "playbook"); try discriminate Hd.
  destruct (getStringList (Get d "hosts")) as [hosts|]; [|discriminate Hd].
  destruct (getStringList (Get d "groups")) as [groups|]; [|discriminate Hd].
  destruct (getStringList (Get d "tags")) as [tags|]; [|discriminate Hd].
  destruct (getStringList (Get d "skip_tags")) as [skip|]; [|discriminate Hd].
  destruct (Get d "start_at_task"); try discriminate Hd.
  destruct (Get d "limit"); try discriminate Hd.
  destruct (Get d "forks"); try discriminate Hd.
  destruct (getStringMap (Get d "extra_vars")) as [vars|]; [|discriminate Hd].
  destruct (Get d "verbose"); try discriminate Hd.
  destruct (Get d "force_handlers"); try discriminate Hd.
  destruct (Get d "become"); try discriminate Hd.
  destruct (Get d "become_method"); try discriminate Hd.
  destruct (Get d "become_user"); try discriminate Hd.
  destruct (Get d "vault_password_file"); try discriminate Hd.
  destruct (Get d "use_sudo"); try discriminate Hd.
  destruct (Get d "skip_install"); try discriminate Hd.
  destruct (Get d "skip_cleanup"); try discriminate Hd.
  destruct (Get d "install_version"); try discriminate Hd.
  cbn in Hd. injection Hd as <- <-. cbn.
  repeat split; try reflexivity. by exists hosts.
Qed.

(** X2: when [decodeConfig] returns, its error is nil and every field of
    the provisioner is the value of its own key: the scalar keys hold a
    value of the field's type, the list keys decode to the field through
    [getStringList] (the hosts with [localhost] appended), and the extra
    variables through [getStringMap]. *)
Theorem decodeConfig_copies_fields d p e :
  decodeConfig d = Some (p, e) →
  e = None
  ∧ Get d "playbook" = VString (Playbook p)
  ∧ (∃ hosts, getStringList (Get d "hosts") = Some hosts
              ∧ Hosts p = hosts ++ ["localhost"])
  ∧ getStringList (Get d "groups") = Some (Groups p)
  ∧ getStringList (Get d "tags") = Some (Tags p)
  ∧ getStringList (Get d "skip_tags") = Some (SkipTags p)
  ∧ Get d "start_at_task" = VString (StartAtTask p)
  ∧ Get d "limit" = VString (Limit p)
  ∧ Get d "forks" = VInt (Forks p)
  ∧ getStringMap (Get d "extra_vars") = Some (ExtraVars p)
  ∧ Get d "verbose" = VBool (Verbose p)
  ∧ Get d "force_handlers" = VBool (ForceHandlers p)
  ∧ Get d "become" = VBool (Become p)
  ∧ Get d "become_method" = VString (BecomeMethod p)
  ∧ Get d "become_user" = VString (BecomeUser p)
  ∧ Get d "vault_password_file" = VString (VaultPasswordFile p)
  ∧ Get d "use_sudo" = VBool (useSudo p)
  ∧ Get d "skip_install" = VBool (skipInstall p)
  ∧ Get d "skip_cleanup" = VBool (skipCleanup p)
  ∧ Get d "install_version" = VString (installVersion p).
Proof. apply decodeConfig_inv. Qed.

Lemma decodeConfig_copies_fields_witness :
  ∃ p, decodeConfig (Sim.config ["web1"] ["app"] true false) = Some (p, None)
       ∧ Get (Sim.config ["web1"] ["app"] true false) "playbook"
         = VString (Playbook p)
       ∧ Get (Sim.config ["web1"] ["app"] true false) "skip_install"
         = VBool (skipInstall p).
Proof.
  eexists. split; [vm_compute; reflexivity|].
  edestruct (decodeConfig_copies_fields
               (Sim.config ["web1"] ["app"] true false))
    as (_ & Hplaybook & _ & _ & _ & _ & _ & _ & _ & _ & _ & _ & _ & _ & _ & _
        & _ & Hskip & _);
    [vm_compute; reflexivity|].
  split; [exact Hplaybook|exact Hskip].
Defined.

(** X3: the inventory of a decoded configuration lists the configured
    hosts followed by [localhost], first on their own and then under
    every configured group. *)
Theorem inventory_of_decoded_config d p e :
  decodeConfig d = Some (p, e) →
  ∃ hosts groups,
    getStringList (Get d "hosts") = Some hosts
    ∧ getStringList (Get d "groups") = Some groups
    ∧ renderInventory p
      = Ok (inventoryText (hosts ++ ["localhost"]) groups).
Proof.
  intros Hd. destruct (decodeConfig_inv d p e Hd)
    as (_ & _ & (hosts & Hh & Hp) & Hg & _).
  exists hosts, (Groups p). split; [done|]. split; [done|].
  by rewrite renderInventory_text, Hp.
Qed.

Lemma inventory_of_decoded_config_witness :
  ∃ p hosts groups,
    decodeConfig (Sim.config ["web1"] ["app"] true false) = Some (p, None)
    ∧ getStringList (Get (Sim.config ["web1"] ["app"] true false) "hosts")
      = Some hosts
    ∧ getStringList (Get (Sim.config ["web1"] ["app"] true false) "groups")
      = Some groups
    ∧ renderInventory p = Ok (inventoryText (hosts ++ ["localhost"]) groups).
Proof.
  eexists.
  edestruct (inventory_of_decoded_config
               (Sim.config ["web1"] ["app"] true false))
    as (hosts & groups & Hh & Hg & Hr); [vm_compute; reflexivity|].
  exists hosts, groups. split; [vm_compute; reflexivity|].
  split; [exact Hh|]. split; [exact Hg|exact Hr].
Defined.

Section BuilderErrors.
Context `{Lib}.

(** X4: [commandBuilder] fails exactly when there are extra variables
    and their JSON encoding fails, with the error of the encoder. *)
Theorem commandBuilder_fails_iff p playbookFile uploaded e :
  commandBuilder p playbookFile uploaded = Err e
  ↔ ExtraVars p ≠ ∅ ∧ json_Marshal (ExtraVars p) = Err e.
Proof.
  rewrite commandBuilder_words. unfold extraVarsFlag.
  case_bool_decide as Hempty.
  - split; [done|]. by intros [? _].
  - destruct (json_Marshal (ExtraVars p)) as [js|e'].
    + split; [done|]. by intros [_ ?].
    + split; [by intros [= ->]|]. by intros [_ [= ->]].
Qed.

End BuilderErrors.

Lemma commandBuilder_fails_iff_witness :
  @commandBuilder Sim.lib
    (mkProvisioner "site.yaml" [] [] [] [] "" "" 0 (<["retries" := VInt 3]> ∅)
       false false false "" "" "" false false false "")
    "site.yaml" ""
  = Err "json: unsupported type".
Proof.
  apply (@commandBuilder_fails_iff Sim.lib). split.
  - apply insert_non_empty.
  - vm_compute. reflexivity.
Defined.

(* ================================================================= *)
(** * More on runCommand                                              *)
(* ================================================================= *)

Section CommandReports.
Context {W : Type} `{Communicator W} `{Lib}.




End CommandReports.

(** No event of the list is of the phase excluded. *)
Ltac not_phase :=
  lazymatch goal with
  | |- Forall _ [] => apply List.Forall_nil
  | |- Forall _ (_ :: _) => apply List.Forall_cons; [discriminate|]
  | |- Forall _ (_ ++ _) => apply Forall_app; split
  | |- _ => segment; intros ? [-> ?]; discriminate
  end.

Ltac not_installing :=
  eapply always_mono;
    [|first [ apply runCommand_inPhase | apply resolvePath_inPhase
            | apply uploadVaultPasswordFile_inPhase
            | apply uploadInventory_inPhase
            | apply cleanupAfterBootstrap_inPhase ]];
    intros ? [-> ?]; discriminate.

Section StepTraces.
Context {W : Type} `{Communicator W} `{Lib}.




(* ================================================================= *)
(** * The deployment                                                  *)
(* ================================================================= *)

(** X9: when the playbook is not found, the deployment fails with the
    error that names the configured path (not the expanded one), after
    the one look at the file system: nothing is uploaded, no command is
    submitted and the state is unchanged. *)
Theorem deployAnsibleModule_missing_playbook p s :
  os_Stat (homedir_Expand (Playbook p)) (world s) = false →
  val (deployAnsibleModule p s)
  = Some ("Ansible module not found at path: [" +:+ Playbook p +:+ "]")
  ∧ events (deployAnsibleModule p s)
    = [Ev UploadingArtifacts (AStat (homedir_Expand (Playbook p)) false)]
  ∧ post (deployAnsibleModule p s) = s.
Proof.
  intros Hstat. unfold deployAnsibleModule, resolvePath. run_simpl.
  rewrite Hstat. run_simpl. done.
Qed.

(** X10: when the upload of the playbook directory fails, the
    deployment returns the error of the upload and submits no
    command. *)
Theorem deployAnsibleModule_upload_failure p s e w :
  os_Stat (homedir_Expand (Playbook p)) (world s) = true →
  comm_UploadDir bootstrapDirectory (filepath_Dir (homedir_Expand (Playbook p)))
    (world s) = (Some e, w) →
  val (deployAnsibleModule p s) = Some e
  ∧ commands (events (deployAnsibleModule p s)) = []
  ∧ uploads (events (deployAnsibleModule p s)) = [bootstrapDirectory].
Proof.
  intros Hstat Hup. unfold deployAnsibleModule, resolvePath. cbv zeta. run_simpl.
  rewrite Hstat. run_simpl. rewrite Hup. run_simpl. done.
Qed.

(** X11: the cleanup is part of a deployment only when the deployment
    succeeds and [skipCleanup] is not set: a deployment that fails, or
    one with [skipCleanup], has no event of the cleanup phase. *)
Theorem deployAnsibleModule_cleanup_only_on_success p s :
  skipCleanup p = true ∨ val (deployAnsibleModule p s) ≠ None →
  Forall (λ e, phase e ≠ CleaningUp) (events (deployAnsibleModule p s)).
Proof.
  unfold deployAnsibleModule. cbv zeta. run_simpl.
  destruct (skipCleanup p) eqn:Hskip.
  all: repeat (case_match; run_simpl).
  all: intros Hor; try (by destruct Hor).
  all: repeat not_phase.
Qed.


(* ================================================================= *)
(** * The installation                                                *)
(* ================================================================= *)



(** X14: the installation succeeds exactly when its command ended with
    status zero. *)
Theorem installAnsible_succeeds_iff p s :
  val (installAnsible p s) = None
  ↔ Ev Installing (AWait 0) ∈ events (installAnsible p s).
Proof.
  unfold installAnsible. cbv zeta. run_simpl.
  destruct (executeInstaller _) as [script|e]; run_simpl.
  2:{ split; [done|]. rewrite list_elem_of_singleton. intros [=]. }
  destruct (comm_UploadScript _ script (world s)) as [[e|] w1]; run_simpl.
  { split; [done|]. rewrite !elem_of_cons, elem_of_nil.
    intros [[=]|[[=]|[[=]|[]]]]. }
  match goal with
  | |- context [val (runCommand Installing p ?c ?s1)] =>
      pose proof (runCommand_wait_zero Installing p c s1) as Hzero;
      pose proof (runCommand_val Installing p c s1) as Hval;
      pose proof (runCommand_events Installing p c s1) as Hev;
      destruct (val (runCommand Installing p c s1)) as [e|] eqn:Hr
  end; run_simpl.
  - split; [done|]. rewrite !elem_of_cons, !elem_of_app, elem_of_nil.
    intros [[=]|[[=]|[[=]|[Hin|[]]]]]. by apply Hzero in Hin.
  - split; [intros _|done].
    rewrite !elem_of_cons, !elem_of_app. right. right. right. left.
    cbv zeta in Hval, Hev. rewrite Hev.
    destruct (comm_Start _ _) as [[e|] w2]; [done|].
    case_bool_decide as Hst; [done|].
    assert ((cmd_Wait w2).1.1.1 = 0%Z) as ->
      by (by destruct (decide ((cmd_Wait w2).1.1.1 = 0%Z))).
    rewrite elem_of_cons, elem_of_app, elem_of_cons. right. right. by left.
Qed.

(** X15: when the installation fails, the provisioning stops with its
    error: the deployment does not start, and nothing is added to the
    events of the installation (the error is not printed, unlike that of
    a deployment). *)
Theorem provision_install_failure p s e :
  skipInstall p = false → val (installAnsible p s) = Some e →
  val (provision p s) = Some e
  ∧ events (provision p s) = events (installAnsible p s)
  ∧ post (provision p s) = post (installAnsible p s).
Proof.
  intros Hskip Hinst. unfold provision. rewrite Hskip. run_simpl.
  rewrite Hinst. run_simpl. by rewrite app_nil_r.
Qed.

(* ================================================================= *)
(** * More on the workflow                                            *)
(* ================================================================= *)

(** X16: a run that does not establish the connection stays in the
    connection phase: it submits no command and uploads nothing. *)
Theorem applyFn_never_connected d s :
  ¬ connected (events (applyFn d s)) →
  Forall (λ e, phase e = Connecting) (events (applyFn d s))
  ∧ commands (events (applyFn d s)) = []
  ∧ uploads (events (applyFn d s)) = [].
Proof.
  intros Hno.
  assert (Hall : Forall connecting (events (applyFn d s))).
  { revert Hno. unfold applyFn.
    destruct (decodeConfig d) as [[p [e|]]|]; run_simpl; [constructor| |constructor].
    destruct (communicator_New (world s)) as [[e|] w0]; run_simpl.
    { intros _. by repeat constructor. }
    match goal with
    | |- context [retryFunc Connecting ?t Connect ?s0] =>
        pose proof (retryFunc_connected t s0) as Hconn;
        pose proof (retryFunc_Connect_connecting t s0) as Hph;
        destruct (val (retryFunc Connecting t Connect s0)) as [[e|]|] eqn:Eret
    end; run_simpl.
    - intros _. rewrite app_nil_r. by constructor.
    - intros Hno. exfalso. apply Hno. unfold connected in *.
      rewrite elem_of_cons, elem_of_app. right. left. by apply Hconn.
    - intros _. rewrite app_nil_r. by constructor. }
  split; [|by apply connecting_commands].
  eapply Forall_impl; [exact Hall|]. by intros ? [? ?].
Qed.


Lemma deployAnsibleModule_not_installing p :
  always (λ e, phase e ≠ Installing) (deployAnsibleModule p).
Proof.
  unfold deployAnsibleModule, Output.
  repeat first [always_step | not_installing].
Qed.

(** X18: with [skip_install], no run of [applyFn] has an event of the
    installation phase, whether it succeeds or fails. *)
Theorem applyFn_skip_install d p s :
  decodeConfig d = Some (p, None) → skipInstall p = true →
  Forall (λ e, phase e ≠ Installing) (events (applyFn d s)).
Proof.
  intros Hd Hskip.
  assert (Hprov : always (λ e, phase e ≠ Installing) (provision p)).
  { unfold provision, Output. rewrite Hskip.
    repeat first [always_step | apply deployAnsibleModule_not_installing]. }
  unfold applyFn. rewrite Hd.
  repeat first
    [ lazymatch goal with
      | |- always _ (provision p) => apply Hprov
      | |- always _ (retryFunc Connecting _ Connect) =>
          eapply always_mono; [|apply retryFunc_Connect_inPhase];
          intros ? [-> ?]; discriminate
      | |- always _ (emit (if ?x is Some _ then _ else _) _) => destruct x
      end
    | always_step ].
Qed.

(** X19: with [skip_install], a run that connected and returns an error
    prints that error to the user before it disconnects: the run ends
    with the output of the error and the disconnection. *)
Theorem applyFn_reports_deploy_error d p s e :
  decodeConfig d = Some (p, None) → skipInstall p = true →
  connected (events (applyFn d s)) →
  val (applyFn d s) = Some (Some e) →
  ∃ pre, events (applyFn d s)
         = pre ++ [Ev Failed (AOutput e); Ev Failed ADisconnect].
Proof.
  intros Hd Hskip Hconn. unfold applyFn in *. rewrite Hd in *. revert Hconn.
  run_simpl.
  destruct (communicator_New (world s)) as [[e0|] w0]; run_simpl.
  { unfold connected. rewrite list_elem_of_singleton. intros [=]. }
  match goal with
  | |- context [retryFunc Connecting ?t Connect ?s0] =>
      pose proof (retryFunc_connected t s0) as Hrc;
      destruct (val (retryFunc Connecting t Connect s0)) as [[e0|]|] eqn:Eret
  end; run_simpl.
  - unfold connected in *. rewrite app_nil_r, elem_of_cons.
    intros [[=]|Hin]. apply Hrc in Hin. discriminate Hin.
  - intros _.
    match goal with
    | |- context [provision p ?s1] =>
        destruct (provision_skip_install p s1 Hskip) as [Hv He];
        rewrite Hv, He; clear Hv He;
        destruct (val (deployAnsibleModule p s1)) as [e1|] eqn:Ed
    end; intros [= <-].
    match goal with
    | |- ∃ pre, ?a :: ?l1 ++ (?l2 ++ [?x]) ++ [?y] = _ =>
        exists (a :: l1 ++ l2); cbn [app]; rewrite <- !app_assoc; reflexivity
    end.
  - intros _ [=].
Qed.

(* ================================================================= *)
(** * More on retryFunc                                               *)
(* ================================================================= *)

Lemma retryLoop_deadline ph finish (f : @M W (option error)) d :
  (0 ≤ d)%Z →
  (∀ s, (now (post (f s)) ≤ now s + d)%Z) →
  ∀ fuel s,
    (now s ≤ finish)%Z →
    (now (post (retryLoop fuel ph finish f s)) ≤ finish + d)%Z.
Proof.
  intros Hd Hf fuel. induction fuel as [|fuel IH]; intros s Hs.
  - cbn. lia.
  - pose proof (Hf s) as Hfs. cbn [retryLoop]. run_simpl.
    destruct (val (f s)) as [e|]; run_simpl; [|lia].
    repeat case_bool_decide; run_simpl; try lia.
    + destruct (select_tie _); run_simpl; [lia|]. apply IH. cbn. lia.
    + apply IH. cbn. unfold retryInterval in *. lia.
Qed.

Lemma retryFunc_returns ph timeout (f : @M W (option error)) s :
  (∀ s, (now s ≤ now (post (f s)))%Z) →
  val (retryFunc ph timeout f s) ≠ None.
Proof.
  intros Hmono. destruct (retryFunc_ends ph timeout f s Hmono) as [s' Hs'].
  unfold endsWithCall in Hs'. destruct (val (f s')); by destruct Hs' as [-> _].
Qed.

(** X20: with a timeout that is not negative and an [f] that takes at
    most [d] and does not turn the clock back, [retryFunc] returns, no
    later than the timeout plus the duration of one call of [f] after it
    was called. *)
Theorem retryFunc_deadline ph timeout (f : @M W (option error)) d s :
  (0 ≤ timeout)%Z →
  (∀ s, (now s ≤ now (post (f s)) ≤ now s + d)%Z) →
  val (retryFunc ph timeout f s) ≠ None
  ∧ (now (post (retryFunc ph timeout f s)) ≤ now s + timeout + d)%Z.
Proof.
  intros Htimeout Hf. split.
  - apply retryFunc_returns. intros s'. apply Hf.
  - unfold retryFunc. run_simpl. apply retryLoop_deadline.
    + pose proof (Hf s). lia.
    + intros s'. apply Hf.
    + lia.
Qed.

Lemma retryLoop_Connect_trace fuel finish s :
  let r := retryLoop fuel Connecting finish Connect s in
  ∃ errs,
    events r
    = failedAttempts errs
      ++ (if val r is Some None then [Ev Connecting (AConnect None)] else [])
    ∧ ∀ e, val r = Some (Some e) → last errs = Some e.
Proof.
  cbv zeta. revert s. induction fuel as [|fuel IH]; intros s.
  - exists []. by cbn.
  - cbn [retryLoop]. run_simpl.
    destruct (val (Connect s)) as [e|] eqn:EC; run_simpl.
    2:{ exists []. by cbn. }
    repeat case_bool_decide; run_simpl.
    + exists [e]. split; [done|]. by intros ? [= <-].
    + exists [e]. split; [done|]. by intros ? [= <-].
    + destruct (select_tie _); run_simpl.
      * exists [e]. split; [done|]. by intros ? [= <-].
      * match goal with
        | |- context [retryLoop fuel Connecting finish Connect ?s1] =>
            destruct (IH s1) as (errs & -> & Hlast)
        end.
        exists (e :: errs). split; [done|]. intros e' He'.
        specialize (Hlast e' He'). destruct errs; [done|]. done.
    + match goal with
      | |- context [retryLoop fuel Connecting finish Connect ?s1] =>
          destruct (IH s1) as (errs & -> & Hlast)
      end.
      exists (e :: errs). split; [done|]. intros e' He'.
      specialize (Hlast e' He'). destruct errs; [done|]. done.
Qed.

(** X21: the connection retries are a sequence of failed attempts, each
    followed by the log line of its error, ended by the successful
    attempt when the result is nil; the lines logged are those of the
    failed attempts, in order; and an error that is returned is the
    error of the last attempt. *)
Theorem retryFunc_Connect_trace timeout s :
  let r := retryFunc Connecting timeout Connect s in
  ∃ errs,
    events r
    = failedAttempts errs
      ++ (if val r is Some None then [Ev Connecting (AConnect None)] else [])
    ∧ reported (events r) = (λ e, "Retryable error: " +:+ e) <$> errs
    ∧ ∀ e, val r = Some (Some e) → last errs = Some e.
Proof.
  cbv zeta. unfold retryFunc. run_simpl.
  destruct (retryLoop_Connect_trace (retryFuel timeout) (now s + timeout) s)
    as (errs & Hev & Hlast).
  exists errs. split; [exact Hev|]. split; [|exact Hlast].
  rewrite Hev, reported_app.
  assert (Hrep : reported (failedAttempts errs)
                 = (λ e, "Retryable error: " +:+ e) <$> errs).
  { clear. induction errs as [|e errs IH]; [done|]. cbn. by rewrite IH. }
  rewrite Hrep. destruct (val _) as [[e|]|]; cbn; by rewrite app_nil_r.
Qed.

End StepTraces.

Lemma deployAnsibleModule_missing_playbook_witness :
  val (@deployAnsibleModule _ Sim.communicator Sim.lib (Sim.site false)
         (Sim.start Sim.blank))
  = Some "Ansible module not found at path: [/site/playbook.yaml]"
  ∧ post (@deployAnsibleModule _ Sim.communicator Sim.lib (Sim.site false)
            (Sim.start Sim.blank))
    = Sim.start Sim.blank.
Proof.
  destruct (@deployAnsibleModule_missing_playbook _ Sim.communicator Sim.lib
              (Sim.site false) (Sim.start Sim.blank)) as (Hval & _ & Hpost).
  - reflexivity.
  - split; [exact Hval|exact Hpost].
Defined.

Lemma deployAnsibleModule_upload_failure_witness :
  val (@deployAnsibleModule _ Sim.readOnly Sim.lib (Sim.site false)
         (Sim.start Sim.calm))
  = Some "read-only file system"
  ∧ commands
      (events (@deployAnsibleModule _ Sim.readOnly Sim.lib (Sim.site false)
                 (Sim.start Sim.calm)))
    = [].
Proof.
  destruct (@deployAnsibleModule_upload_failure _ Sim.readOnly Sim.lib
              (Sim.site false) (Sim.start Sim.calm)
              "read-only file system" Sim.calm) as (Hval & Hcmd & _).
  - reflexivity.
  - reflexivity.
  - split; [exact Hval|exact Hcmd].
Defined.

Lemma deployAnsibleModule_cleanup_only_on_success_witness :
  Forall (λ e, phase e ≠ CleaningUp)
    (events (@deployAnsibleModule _ Sim.communicator Sim.lib (Sim.site true)
               (Sim.start Sim.calm))).
Proof.
  apply (@deployAnsibleModule_cleanup_only_on_success _ Sim.communicator
           Sim.lib (Sim.site true) (Sim.start Sim.calm)).
  left. reflexivity.
Defined.


Lemma provision_install_failure_witness :
  ∃ e,
    val (@provision _ Sim.communicator Sim.lib (Sim.site false)
           (Sim.start Sim.broken)) = Some e
    ∧ events (@provision _ Sim.communicator Sim.lib (Sim.site false)
                (Sim.start Sim.broken))
      = events (@installAnsible _ Sim.communicator Sim.lib (Sim.site false)
                  (Sim.start Sim.broken)).
Proof.
  eexists.
  edestruct (@provision_install_failure _ Sim.communicator Sim.lib
               (Sim.site false) (Sim.start Sim.broken)) as (Hval & Hev & _).
  - reflexivity.
  - vm_compute. reflexivity.
  - split; [exact Hval|exact Hev].
Defined.

Lemma applyFn_never_connected_witness :
  commands
    (events (Sim.apply (Sim.config ["web1"] ["app"] true false)
               Sim.unreachable))
  = []
  ∧ uploads
      (events (Sim.apply (Sim.config ["web1"] ["app"] true false)
                 Sim.unreachable))
    = [].
Proof.
  apply (@applyFn_never_connected _ Sim.communicator Sim.lib
           (Sim.config ["web1"] ["app"] true false)
           (Sim.start Sim.unreachable)).
  vm_compute. intros Hin.
  repeat (inversion Hin as [|? ? ? Hin']; clear Hin; rename Hin' into Hin).
Defined.


Lemma applyFn_skip_install_witness :
  Forall (λ e, phase e ≠ Installing)
    (events (Sim.apply (Sim.config ["web1"] ["app"] true false) Sim.blank)).
Proof.
  eapply (@applyFn_skip_install _ Sim.communicator Sim.lib
            (Sim.config ["web1"] ["app"] true false)).
  - vm_compute. reflexivity.
  - reflexivity.
Defined.

Lemma applyFn_reports_deploy_error_witness :
  ∃ pre,
    events (Sim.apply (Sim.config ["web1"] ["app"] true false) Sim.blank)
    = pre
      ++ [Ev Failed
            (AOutput "Ansible module not found at path: [/site/playbook.yaml]");
          Ev Failed ADisconnect].
Proof.
  eapply (@applyFn_reports_deploy_error _ Sim.communicator Sim.lib
            (Sim.config ["web1"] ["app"] true false)).
  - vm_compute. reflexivity.
  - reflexivity.
  - vm_compute. repeat constructor.
  - vm_compute. reflexivity.
Defined.

Lemma retryFunc_deadline_witness :
  (now (post (@retryFunc _ Sim.communicator Connecting 5000000000
                (ret (Some "host is down")) (Sim.start Sim.calm)))
   ≤ 0 + 5000000000 + 0)%Z.
Proof.
  apply (@retryFunc_deadline _ Sim.communicator Connecting 5000000000
           (ret (Some "host is down")) 0 (Sim.start Sim.calm)).
  - lia.
  - intros s. cbn. lia.
Defined.

(* ================================================================= *)
(** * More on runCommand and its relays                               *)
(* ================================================================= *)

Section RelayFacts.
Context `{Lib}.
Import Goroutines.

Ltac fields :=
  cbn [pc command submitted exitStatus err pipes relays doneCh output
       setPc setPipe setRelay buffer closed] in *.

Ltac streams x :=
  destruct x; rewrite ?upd_same, ?upd_other by done; fields.

Ltac at_stream x y :=
  destruct (decide (y = x)) as [Heq|?];
  [first [subst x|subst y]; rewrite ?upd_same in *
  |rewrite ?upd_other in * by done]; fields.





(** A step outputs at most one line, a line it held; the lines held
    afterwards were held before or are the line just written. *)
Lemma held_step l s s' :
  step l s = Some s' →
  ∃ more, output s' = output s ++ more
          ∧ more ++ held s' ⊆+ held s ++ written [l].
Proof.
  intros Hstep. destruct s as [pc0 cmd sub ex er ps rs dn out].
  unfold held. fields.
  destruct l as [r|x line|status| |x]; cbn [step] in Hstep;
    unfold stepMain, stepRelay in Hstep; fields.
  - exists []. rewrite app_nil_r. cbn [written app].
    destruct pc0; try discriminate Hstep.
    destruct r; injection Hstep as <-; fields; split; try done;
      solve_submseteq.
  - exists []. rewrite app_nil_r. cbn [written app]. destruct sub; [|done].
    destruct (closed (ps x)); injection Hstep as <-; fields;
      (split; [done|]); [solve_submseteq|].
    streams x; solve_submseteq.
  - exists []. rewrite app_nil_r. cbn [written app]. destruct sub; [|done].
    destruct ex; [done|]. injection Hstep as <-; fields.
    split; [done|]. solve_submseteq.
  - exists []. rewrite app_nil_r. cbn [written app].
    destruct pc0; try discriminate Hstep.
    + destruct ex; [|done]. injection Hstep as <-; fields.
      split; [done|]. solve_submseteq.
    + injection Hstep as <-; fields. split; [done|].
      rewrite upd_same, !upd_other by done. fields. solve_submseteq.
    + injection Hstep as <-; fields. split; [done|].
      rewrite upd_same, !upd_other by done. fields. solve_submseteq.
    + destruct (dn Stdout); [|done]. injection Hstep as <-; fields.
      split; [done|]. solve_submseteq.
    + destruct (dn Stderr); [|done]. injection Hstep as <-; fields.
      split; [done|]. solve_submseteq.
  - cbn [written]. destruct (rs x) as [|line| |] eqn:Hr; [| | |done].
    + exists []. rewrite app_nil_r.
      destruct (buffer (ps x)) as [|line rest] eqn:Hb.
      * destruct (closed (ps x)); [|done]. injection Hstep as <-; fields.
        split; [done|].
        streams x; rewrite ?Hr; cbn [emitting]; solve_submseteq.
      * injection Hstep as <-; fields. split; [done|].
        streams x; rewrite ?Hr, ?Hb; cbn [emitting]; solve_submseteq.
    + injection Hstep as <-; fields. exists [line]. split; [done|].
      streams x; rewrite ?Hr; cbn [emitting]; solve_submseteq.
    + injection Hstep as <-; fields. exists []. rewrite app_nil_r.
      split; [done|].
      streams x; rewrite ?Hr; cbn [emitting]; solve_submseteq.
Qed.

Lemma written_cons l ls : written (l :: ls) = written [l] ++ written ls.
Proof. by destruct l. Qed.

Lemma held_run ls s s' :
  run ls s = Some s' →
  ∃ more, output s' = output s ++ more
          ∧ more ++ held s' ⊆+ held s ++ written ls.
Proof.
  revert s. induction ls as [|l ls IH]; intros s; cbn [run].
  - intros [= <-]. exists []. rewrite app_nil_r. split; [done|].
    cbn [written app]. solve_submseteq.
  - destruct (step l s) as [s1|] eqn:Hstep; [|done]. intros Hrun.
    destruct (held_step l s s1 Hstep) as (m1 & Ho1 & Hh1).
    destruct (IH s1 Hrun) as (m2 & Ho2 & Hh2).
    exists (m1 ++ m2). split; [by rewrite Ho2, Ho1, app_assoc|].
    rewrite written_cons.
    transitivity (m1 ++ held s1 ++ written ls).
    + rewrite <- app_assoc. by apply submseteq_skips_l.
    + rewrite !app_assoc. by apply submseteq_app.
Qed.

(** X23: the relays invent nothing and repeat nothing: in every state
    reached the lines output since the start, together with the lines
    still in the pipes or in the hands of a relay, are among the lines
    the remote side wrote, each no more often than it was written. *)
Theorem runCommand_relays_written_lines cmd out ls s :
  run ls (initial cmd out) = Some s →
  ∃ more, output s = out ++ more ∧ more ++ held s ⊆+ written ls.
Proof.
  intros Hrun. destruct (held_run ls _ s Hrun) as (more & Hout & Hsub).
  exists more. split; [exact Hout|exact Hsub].
Qed.

Lemma settled_initial cmd out : settled (initial cmd out).
Proof.
  constructor; cbn; try done; try (intros [?|[?|[?|?]]]; done);
    try (intros [?|[?|?]]; done); try (intros [?|?]; done).
Qed.

Ltac returned_case S3 S6 S7 :=
  let e' := fresh "e" in
  let Hpc' := fresh "Hpc" in
  let Hsub' := fresh "Hsub" in
  intros e' Hpc' Hsub';
  first [ discriminate Hpc'
        | by destruct (S3 Hsub')
        | by destruct (S7 e' Hpc' Hsub') as (? & [=] & _)
        | injection Hpc' as <-; apply S6; by auto
        | by apply S7 ].

Lemma settled_step l s s' : settled s → step l s = Some s' → settled s'.
Proof.
  intros [S1 S2 S3 S4 S5 S6 S7] Hstep.
  destruct s as [pc0 cmd sub ex er ps rs dn out]. fields.
  destruct l as [r|x line|status| |x]; cbn [step] in Hstep;
    unfold stepMain, stepRelay in Hstep; fields.
  - destruct pc0; try discriminate Hstep.
    destruct r as [e|]; injection Hstep as <-; constructor; fields;
      try done; try (intros [?|[?|[?|?]]]; done);
      try (intros [?|[?|?]]; done); try (intros [?|?]; done);
      try (returned_case S3 S6 S7).
  - destruct sub; [|done].
    destruct (closed (ps x)) eqn:Hc; injection Hstep as <-; [by constructor|].
    constructor; fields; try done; try (returned_case S3 S6 S7).
    + intros Hpc. specialize (S4 Hpc). at_stream x Stdout; congruence.
    + intros Hpc. specialize (S5 Hpc). at_stream x Stderr; congruence.
  - destruct sub; [|done]. destruct ex; [done|]. injection Hstep as <-.
    constructor; fields; try done; try (returned_case S3 S6 S7).
    intros Hpc. destruct (S6 Hpc) as (st & [=] & _).
  - destruct pc0; try discriminate Hstep.
    + destruct ex as [st|] eqn:Hex; [|done]. injection Hstep as <-.
      constructor; fields; try done; try (returned_case S3 S6 S7); try (intros [?|[?|?]]; done);
        try (intros [?|?]; done).
      intros _. by exists st.
    + injection Hstep as <-. constructor; fields; try done; try (returned_case S3 S6 S7);
        try (intros [?|?]; done).
      intros _. apply S6. by left.
    + injection Hstep as <-. constructor; fields; try done; try (returned_case S3 S6 S7).
      * intros _. rewrite upd_other by done. apply S4. by left.
      * intros _. apply S6. right. by left.
    + destruct (dn Stdout); [|done]. injection Hstep as <-.
      constructor; fields; try done; try (returned_case S3 S6 S7).
      * intros _. apply S4. right. by left.
      * intros _. apply S5. by left.
      * intros _. apply S6. right. right. by left.
    + destruct (dn Stderr); [|done]. injection Hstep as <-.
      constructor; fields; try done; try (intros [?|[?|[?|?]]]; done);
        try (intros [?|[?|?]]; done); try (intros [?|?]; done);
        try (returned_case S3 S6 S7).
  - destruct (rs x) as [|line| |] eqn:Hr; [| | |done].
    + destruct (buffer (ps x)) as [|line rest] eqn:Hb.
      * destruct (closed (ps x)) eqn:Hc; [|done]. injection Hstep as <-.
        constructor; fields; try done; try (returned_case S3 S6 S7).
        intros y Hy. at_stream x y; [done|by apply S1].
      * injection Hstep as <-. constructor; fields; try done; try (returned_case S3 S6 S7).
        -- intros y Hy. at_stream x y; [done|by apply S1].
        -- intros Hpc. specialize (S4 Hpc). by at_stream x Stdout.
        -- intros Hpc. specialize (S5 Hpc). by at_stream x Stderr.
    + injection Hstep as <-. constructor; fields; try done; try (returned_case S3 S6 S7).
      intros y Hy. at_stream x y; [done|by apply S1].
    + injection Hstep as <-. constructor; fields; try done; try (returned_case S3 S6 S7).
      intros y Hy. at_stream x y; [done|by apply S1].
Qed.

Lemma settled_run ls s s' : settled s → run ls s = Some s' → settled s'.
Proof.
  revert s. induction ls as [|l ls IH]; intros s Hs; cbn [run].
  - by intros [= <-].
  - destruct (step l s) as [s1|] eqn:Hstep; [|done].
    apply IH. by eapply settled_step.
Qed.

Lemma run_app ls1 ls2 s s1 s2 :
  run ls1 s = Some s1 → run ls2 s1 = Some s2 → run (ls1 ++ ls2) s = Some s2.
Proof.
  revert s. induction ls1 as [|l ls1 IH]; intros s; cbn [run app].
  - by intros [= <-].
  - destruct (step l s) as [s'|]; [|done]. apply IH.
Qed.

Lemma drain_receiving x (n : nat) s :
  length (buffer (pipes s x)) = n →
  closed (pipes s x) = true → relays s x = Receiving →
  ∃ ls s', Forall ownStep ls ∧ run ls s = Some s'
           ∧ doneCh s' x = true ∧ sameMain s s'.
Proof.
  revert s. induction n as [|n IH]; intros s Hn Hc Hr.
  - destruct (buffer (pipes s x)) eqn:Hb; [|done].
    eexists [Relay x; Relay x], _. split; [by repeat constructor|].
    cbn [run step]. unfold stepRelay. rewrite Hr, Hb, Hc. fields.
    rewrite upd_same. split; [reflexivity|]. fields.
    rewrite upd_same. split; [done|]. unfold sameMain. fields.
    repeat split; try done. intros y Hy. by at_stream x y.
  - destruct (buffer (pipes s x)) as [|line rest] eqn:Hb; [done|].
    destruct s as [pc0 cmd sub ex er ps rs dn out]. fields.
    edestruct (IH (mkState pc0 cmd sub ex er
                     (upd ps x (mkPipe rest (closed (ps x))))
                     (upd (upd rs x (Emitting line)) x Receiving) dn
                     (out ++ [line])))
      as (ls & s' & Hown & Hrun & Hdone & Hpc & Herr & Hcmd & Hcl & Hdn);
      fields; rewrite ?upd_same; fields; [by simplify_eq/=|done..|].
    fields.
    exists (Relay x :: Relay x :: ls), s'.
    split; [by repeat constructor|]. split.
    { cbn [run step]. unfold stepRelay. fields. rewrite Hr, Hb. fields.
      rewrite upd_same. exact Hrun. }
    split; [done|]. unfold sameMain. fields. repeat split; try done.
    intros y. rewrite Hcl. by at_stream x y.
Qed.

Lemma drain x s :
  settled s → closed (pipes s x) = true →
  ∃ ls s', Forall ownStep ls ∧ run ls s = Some s'
           ∧ doneCh s' x = true ∧ sameMain s s'.
Proof.
  intros Hs Hc. destruct (relays s x) as [|line| |] eqn:Hr.
  - by eapply (drain_receiving x (length (buffer (pipes s x)))).
  - destruct s as [pc0 cmd sub ex er ps rs dn out]. fields.
    edestruct (drain_receiving x (length (buffer (ps x)))
                 (mkState pc0 cmd sub ex er ps (upd rs x Receiving) dn
                    (out ++ [line])))
      as (ls & s' & Hown & Hrun & Hdone & Hsame);
      fields; rewrite ?upd_same; [done..|].
    exists (Relay x :: ls), s'. split; [by repeat constructor|]. split.
    { cbn [run step]. unfold stepRelay. fields. rewrite Hr. exact Hrun. }
    done.
  - eexists [Relay x], _. split; [by repeat constructor|].
    cbn [run step]. unfold stepRelay. rewrite Hr. split; [reflexivity|].
    fields. rewrite upd_same. split; [done|]. unfold sameMain. fields.
    repeat split; try done. intros y Hy. by at_stream x y.
  - exists [], s. split; [constructor|]. split; [done|].
    split; [by apply (st_finished s Hs)|]. by repeat split.
Qed.

Lemma finish_recvErr s :
  settled s → pc s = AtRecvErr →
  ∃ ls s', Forall ownStep ls ∧ run ls s = Some s' ∧ pc s' = Returned (err s).
Proof.
  intros Hs Hpc.
  destruct (drain Stderr s Hs) as (ls & s1 & Hown & Hrun & Hdone & Hpc1 & Herr1 & _).
  { apply (st_closedErr s Hs). by right. }
  exists (ls ++ [Main]), (setPc s1 (Returned (err s1))).
  split; [apply Forall_app; split; [done|by repeat constructor]|].
  split; [|by rewrite <- Herr1].
  eapply run_app; [exact Hrun|]. cbn [run step]. unfold stepMain.
  by rewrite Hpc1, Hpc, Hdone.
Qed.

Lemma finish_recvOut s :
  settled s → pc s = AtRecvOut →
  ∃ ls s', Forall ownStep ls ∧ run ls s = Some s' ∧ pc s' = Returned (err s).
Proof.
  intros Hs Hpc.
  destruct (drain Stdout s Hs) as (ls & s1 & Hown & Hrun & Hdone & Hpc1 & Herr1 & _).
  { apply (st_closedOut s Hs). right. by left. }
  assert (Hstep : step Main s1 = Some (setPc s1 AtRecvErr)).
  { cbn [step]. unfold stepMain. by rewrite Hpc1, Hpc, Hdone. }
  pose proof (settled_run ls s s1 Hs Hrun) as Hs1.
  pose proof (settled_step Main s1 _ Hs1 Hstep) as Hs2.
  destruct (finish_recvErr _ Hs2 eq_refl) as (ls2 & s' & Hown2 & Hrun2 & Hpc2).
  exists (ls ++ Main :: ls2), s'.
  split; [apply Forall_app; split; [done|by constructor]|].
  split; [|by rewrite Hpc2; cbn; rewrite Herr1].
  eapply run_app; [exact Hrun|]. cbn [run]. by rewrite Hstep.
Qed.

Lemma finish_closeErr s :
  settled s → pc s = AtCloseErr →
  ∃ ls s', Forall ownStep ls ∧ run ls s = Some s' ∧ pc s' = Returned (err s).
Proof.
  intros Hs Hpc.
  assert (Hstep : step Main s
    = Some (setPc (setPipe s Stderr (mkPipe (buffer (pipes s Stderr)) true))
              AtRecvOut)).
  { cbn [step]. unfold stepMain. by rewrite Hpc. }
  pose proof (settled_step Main s _ Hs Hstep) as Hs1.
  destruct (finish_recvOut _ Hs1 eq_refl) as (ls2 & s' & Hown2 & Hrun2 & Hpc2).
  exists (Main :: ls2), s'. split; [by constructor|].
  split; [|done]. cbn [run]. by rewrite Hstep.
Qed.

Lemma finish_closeOut s :
  settled s → pc s = AtCloseOut →
  ∃ ls s', Forall ownStep ls ∧ run ls s = Some s' ∧ pc s' = Returned (err s).
Proof.
  intros Hs Hpc.
  assert (Hstep : step Main s
    = Some (setPc (setPipe s Stdout (mkPipe (buffer (pipes s Stdout)) true))
              AtCloseErr)).
  { cbn [step]. unfold stepMain. by rewrite Hpc. }
  pose proof (settled_step Main s _ Hs Hstep) as Hs1.
  destruct (finish_closeErr _ Hs1 eq_refl) as (ls2 & s' & Hown2 & Hrun2 & Hpc2).
  exists (Main :: ls2), s'. split; [by constructor|].
  split; [|done]. cbn [run]. by rewrite Hstep.
Qed.

(** X24: once the command has exited, [runCommand] can return by its
    own steps and those of its relays, whatever was scheduled before and
    however many lines are still in the pipes, and the error it returns
    is that of the exit status: nil for zero. *)
Theorem runCommand_never_hangs cmd out ls s status :
  run ls (initial cmd out) = Some s → exitStatus s = Some status →
  ∃ ls' s', Forall ownStep ls' ∧ run ls' s = Some s'
            ∧ pc s' = Returned (exitError (command s) status).
Proof.
  intros Hrun Hex.
  pose proof (settled_run ls _ s (settled_initial cmd out) Hrun) as Hs.
  pose proof (st_exit s Hs status Hex) as Hsub.
  destruct (pc s) as [| | | | | |e] eqn:Hpc.
  - by destruct (st_started s Hs Hsub).
  - assert (Hstep : step Main s
      = Some (mkState AtCloseOut (command s) (submitted s) (exitStatus s)
                (exitError (command s) status)
                (pipes s) (relays s) (doneCh s) (output s))).
    { cbn [step]. unfold stepMain. by rewrite Hpc, Hex. }
    pose proof (settled_step Main s _ Hs Hstep) as Hs1.
    destruct (finish_closeOut _ Hs1 eq_refl) as (ls2 & s' & Hown2 & Hrun2 & Hpc2).
    exists (Main :: ls2), s'. split; [by constructor|].
    split; [|done]. cbn [run]. by rewrite Hstep.
  - destruct (st_err s Hs) as (st & Hst & Herr); [rewrite Hpc; by left|].
    destruct (finish_closeOut s Hs Hpc) as (ls2 & s' & ? & ? & Hpc2).
    exists ls2, s'. split; [done|]. split; [done|]. congruence.
  - destruct (st_err s Hs) as (st & Hst & Herr); [rewrite Hpc; right; by left|].
    destruct (finish_closeErr s Hs Hpc) as (ls2 & s' & ? & ? & Hpc2).
    exists ls2, s'. split; [done|]. split; [done|]. congruence.
  - destruct (st_err s Hs) as (st & Hst & Herr);
      [rewrite Hpc; right; right; by left|].
    destruct (finish_recvOut s Hs Hpc) as (ls2 & s' & ? & ? & Hpc2).
    exists ls2, s'. split; [done|]. split; [done|]. congruence.
  - destruct (st_err s Hs) as (st & Hst & Herr);
      [rewrite Hpc; right; right; by right|].
    destruct (finish_recvErr s Hs Hpc) as (ls2 & s' & ? & ? & Hpc2).
    exists ls2, s'. split; [done|]. split; [done|]. congruence.
  - destruct (st_returned s Hs e Hpc Hsub) as (st & Hst & ->).
    exists [], s. split; [constructor|]. split; [done|]. congruence.
Qed.

End RelayFacts.


Lemma runCommand_relays_written_lines_witness :
  ∃ s more,
    @Goroutines.run Sim.lib
      [ Goroutines.Submit None; Goroutines.Write Goroutines.Stdout "ok";
        Goroutines.Write Goroutines.Stderr "warning"; Goroutines.Exit 0;
        Goroutines.Main; Goroutines.Relay Goroutines.Stdout;
        Goroutines.Relay Goroutines.Stdout ]
      (Goroutines.initial "ansible-playbook site.yaml" [])
    = Some s
    ∧ Goroutines.output s = [] ++ more
    ∧ more ++ held s ⊆+ ["ok"; "warning"].
Proof.
  pose proof
    (@runCommand_relays_written_lines Sim.lib "ansible-playbook site.yaml" []
       [ Goroutines.Submit None; Goroutines.Write Goroutines.Stdout "ok";
         Goroutines.Write Goroutines.Stderr "warning"; Goroutines.Exit 0;
         Goroutines.Main; Goroutines.Relay Goroutines.Stdout;
         Goroutines.Relay Goroutines.Stdout ]) as Hlines.
  edestruct Hlines as (more & Hout & Hsub); [vm_compute; reflexivity|].
  eexists _, more. split; [vm_compute; reflexivity|].
  split; [exact Hout|exact Hsub].
Defined.

Lemma runCommand_never_hangs_witness :
  ∃ s ls' s',
    @Goroutines.run Sim.lib
      [ Goroutines.Submit None; Goroutines.Write Goroutines.Stdout "ok";
        Goroutines.Exit 1 ]
      (Goroutines.initial "ansible-playbook site.yaml" [])
    = Some s
    ∧ Forall ownStep ls'
    ∧ @Goroutines.run Sim.lib ls' s = Some s'
    ∧ Goroutines.pc s'
      = Goroutines.Returned
          (@exitError Sim.lib "ansible-playbook site.yaml" 1).
Proof.
  pose proof
    (@runCommand_never_hangs Sim.lib "ansible-playbook site.yaml" []
       [ Goroutines.Submit None; Goroutines.Write Goroutines.Stdout "ok";
         Goroutines.Exit 1 ]) as Hreturns.
  edestruct Hreturns as (ls' & s' & Hown & Hrun & Hpc);
    [vm_compute; reflexivity|reflexivity|].
  eexists _, ls', s'. split; [vm_compute; reflexivity|]. split; [exact Hown|].
  split; [exact Hrun|exact Hpc].
Defined.
